(** * amqp091-go: the channel-id allocator and the frame codec

    A shallow embedding of [allocator.go] and of the frame codec as its
    specification describes it, with the properties the specification
    states about them.

    - Go's [int] is modelled on a 64-bit target: a [Z] kept inside
      [min_int .. max_int], every arithmetic operation followed by the
      two's-complement wrap-around that Go defines for signed overflow.
    - [*big.Int] is an arbitrary precision integer: a [Z].  [Bit] and
      [SetBit] follow math/big: both panic on a negative bit index,
      [SetBit] also on a bit value other than 0 or 1, and where setting a
      bit makes the number grow beyond the bytes makeslice allocates (2^48
      on the 64-bit targets).  An allocation within that limit is taken to
      succeed.
    - A method that mutates its receiver takes the allocator and returns
      the new one.  A panic is an outcome of its own; loops carry fuel.
    - The codec works on lists of bytes; what its specification leaves
      open (the values of type codes and discriminants) is a parameter.
    - The two helpers with which the integration tests make and check
      checksummed message bodies are embedded with Go's slices (backing
      array, length, capacity) and with [t.Fatalf] as an outcome. *)

From Stdlib Require Import ZArith List Lia Bool String Ascii DecimalString Sorted.
From Stdlib.Strings Require Import Byte.
Import ListNotations.
Local Open Scope Z_scope.

(** ** Outcomes: normal return, panic, fuel exhausted *)

Inductive outcome (A : Type) : Type :=
| Ret (a : A)
| Panic (msg : string)
| OutOfFuel.

Arguments Ret {A} a.
Arguments Panic {A} msg.
Arguments OutOfFuel {A}.

Definition bind {A B : Type} (m : outcome A) (k : A -> outcome B) : outcome B :=
  match m with
  | Ret a => k a
  | Panic msg => Panic msg
  | OutOfFuel => OutOfFuel
  end.

Declare Scope outcome_scope.
Delimit Scope outcome_scope with outcome.
Notation "x <- m ;; k" := (bind m (fun x => k))
  (at level 61, m at next level, right associativity) : outcome_scope.
Notation "' p <- m ;; k" := (bind m (fun x => let 'p := x in k))
  (at level 61, p pattern, m at next level, right associativity) : outcome_scope.
Local Open Scope outcome_scope.

Definition returns {A : Type} (m : outcome A) : Prop := exists a, m = Ret a.

(** ** Go's [int] *)

Module GoInt.

Definition size : Z := 64.
Definition min_int : Z := - 2 ^ (size - 1).
Definition max_int : Z := 2 ^ (size - 1) - 1.

Definition in_int (z : Z) : Prop := min_int <= z <= max_int.

(** Two's-complement wrap-around of a mathematical result. *)
Definition wrap (z : Z) : Z := (z + 2 ^ (size - 1)) mod 2 ^ size - 2 ^ (size - 1).

Definition add (x y : Z) : Z := wrap (x + y).
Definition sub (x y : Z) : Z := wrap (x - y).

End GoInt.

(** ** math/big: the two methods the allocator calls *)

Module big.

Definition Int : Type := Z.

Definition NewInt (x : Z) : Int := x.

(** [x.Bit(i)]: the i'th bit of x, (x>>i)&1; the index must be >= 0. *)
Definition Bit (x : Int) (i : Z) : outcome Z :=
  if i <? 0 then Panic "negative bit index"
  else Ret (if Z.testbit x i then 1 else 0).

(** The words, of 64 bits, of the magnitude m >= 0 of an Int: the length
    of its slice, which holds no leading zero word. *)
Definition words (m : Z) : Z := if m =? 0 then 0 else Z.log2 m / 64 + 1.

(** The most bytes makeslice allocates on the 64-bit targets. *)
Definition maxAlloc : Z := 2 ^ 48.

(** Setting a bit in word j of a magnitude of [len] words.  A word
    within the length is there.  Beyond it the slice is made anew, of
    j + 1 words, with room for four more unless it is a single word; a
    slice of more than [maxAlloc] bytes is refused with a panic.  The room
    a slice keeps from an earlier growth is not tracked: it is at most the
    four words asked for then, so that the code and this definition can
    differ only where j lies within four words of the limit. *)
Definition grow (len j : Z) : outcome unit :=
  if j <? len then Ret tt
  else if j =? 0 then Ret tt
  else if maxAlloc <? (j + 1) * 8 then Panic "makeslice: len out of range"
  else if maxAlloc <? (j + 1 + 4) * 8 then Panic "makeslice: cap out of range"
  else Ret tt.

(** The bit positions below which a bit is set without a panic, whatever
    the length. *)
Definition max_bits : Z := (maxAlloc / 8 - 4) * 64.

(** [z.SetBit(x, i, b)]: x | (1 << i) when b is 1, which is [Z.setbit],
    x &^ (1 << i) when b is 0, which is [Z.clearbit].  Of x >= 0 the
    magnitude is x, and a bit set in it may be beyond its words; a bit
    cleared never is.  Of x < 0, which no allocator holds, the magnitude
    worked on is -x - 1, with the bit inverted. *)
Definition SetBit (x : Int) (i : Z) (b : Z) : outcome Int :=
  if i <? 0 then Panic "negative bit index"
  else if b =? 0 then
    if x <? 0 then _ <- grow (words (- x - 1)) (i / 64) ;; Ret (Z.clearbit x i)
    else Ret (Z.clearbit x i)
  else if b =? 1 then
    if x <? 0 then Ret (Z.setbit x i)
    else _ <- grow (words x) (i / 64) ;; Ret (Z.setbit x i)
  else Panic "set bit is not 0 or 1".

End big.

(** * allocator.go *)

Definition free : Z := 0.
Definition allocated : Z := 1.

(** allocator maintains a bitset of allocated numbers. *)
Record allocator : Type := mkAllocator {
  pool : big.Int;
  follow : Z;
  low : Z;
  high : Z
}.

Definition set_pool (a : allocator) (p : big.Int) : allocator :=
  mkAllocator p (follow a) (low a) (high a).

Definition set_follow (a : allocator) (f : Z) : allocator :=
  mkAllocator (pool a) f (low a) (high a).

Definition newAllocator (lo hi : Z) : allocator :=
  {| pool := big.NewInt 0; follow := lo; low := lo; high := hi |}.

(** reserved returns true if the integer has been allocated *)
Definition reserved (a : allocator) (n : Z) : outcome bool :=
  b <- big.Bit (pool a) (GoInt.sub n (low a)) ;;
  Ret (b =? allocated).

(** reserve claims the bit if it is not already claimed, returning true if
    successfully claimed. *)
Definition reserve (a : allocator) (n : Z) : outcome (bool * allocator) :=
  r <- reserved a n ;;
  if r then Ret (false, a)
  else
    p <- big.SetBit (pool a) (GoInt.sub n (low a)) allocated ;;
    Ret (true, set_pool a p).

(** release frees the use of the number for another allocation *)
Definition release (a : allocator) (n : Z) : outcome allocator :=
  p <- big.SetBit (pool a) (GoInt.sub n (low a)) free ;;
  Ret (set_pool a p).

(** The deferred function of [next]: make a.follow point to next value. *)
Definition advance (a : allocator) : allocator :=
  if follow a =? high a then set_follow a (low a)
  else set_follow a (GoInt.add (follow a) 1).

(** One of the two loops of [next],
    [for ; cond; a.follow++ { if a.reserve(a.follow) { return a.follow, true } }].
    [Some n] is the early return of n, [None] the loop running to its end.
    The second component lists the positions handed to [reserve], in order. *)
Fixpoint scan (fuel : nat) (cond : allocator -> bool) (a : allocator)
  : outcome (option Z * allocator * list Z) :=
  match fuel with
  | O => OutOfFuel
  | S fuel' =>
      if cond a then
        '(ok, a1) <- reserve a (follow a) ;;
        if (ok : bool) then Ret (Some (follow a1), a1, [follow a])
        else
          '(r, a2, probed) <- scan fuel' cond (set_follow a1 (GoInt.add (follow a1) 1)) ;;
          Ret (r, a2, follow a :: probed)
      else Ret (None, a, [])
  end.

(** [next] with the list of the positions it examined. *)
Definition next_probed (fuel : nat) (a : allocator)
  : outcome (Z * bool * allocator * list Z) :=
  let wrapped := follow a in
  (* Find trailing bit *)
  '(r1, a1, probed1) <- scan fuel (fun a => follow a <=? high a) a ;;
  match r1 with
  | Some n => Ret (n, true, advance a1, probed1)
  | None =>
      (* Find preceding free'd pool *)
      let a2 := set_follow a1 (low a1) in
      '(r2, a3, probed2) <- scan fuel (fun a => follow a <? wrapped) a2 ;;
      match r2 with
      | Some n => Ret (n, true, advance a3, probed1 ++ probed2)
      | None => Ret (0, false, advance a3, probed1 ++ probed2)
      end
  end.

(** Next reserves and returns the next available number out of the range
    between low and high.  If no number is available, false is returned. *)
Definition next (fuel : nat) (a : allocator) : outcome (Z * bool * allocator) :=
  '(n, ok, a', _) <- next_probed fuel a ;;
  Ret (n, ok, a').


(** [a.String()]: the inner loop,
    [for a.reserved(high) && high <= a.high { high++ }]. *)
Fixpoint run_end (fuel : nat) (a : allocator) (hi : Z) : outcome Z :=
  match fuel with
  | O => OutOfFuel
  | S fuel' =>
      r <- reserved a hi ;;
      if r && (hi <=? high a) then run_end fuel' a (GoInt.add hi 1)
      else Ret hi
  end.

(** [%d] of fmt. *)
Definition dec (z : Z) : string := NilZero.string_of_int (Z.to_int z).

(** The outer loop, [for low := a.low; low <= a.high; low++ { ... }], on the
    builder's contents [b]. *)
Fixpoint String_loop (fuel : nat) (a : allocator) (lo : Z) (b : string)
  : outcome string :=
  match fuel with
  | O => OutOfFuel
  | S fuel' =>
      if lo <=? high a then
        hi <- run_end fuel a lo ;;
        let b' :=
          if hi >? GoInt.add lo 1
          then (b ++ " " ++ dec lo ++ ".." ++ dec (GoInt.sub hi 1))%string
          else if hi >? lo
          then (b ++ " " ++ dec (GoInt.sub hi 1))%string
          else b in
        String_loop fuel' a (GoInt.add hi 1) b'
      else Ret b
  end.

(** String returns a string describing the contents of the allocator like
    "allocator[low..high] reserved..until" *)
Definition String (fuel : nat) (a : allocator) : outcome string :=
  String_loop fuel a (low a)
    ("allocator[" ++ dec (low a) ++ ".." ++ dec (high a) ++ "]")%string.

(** * The specification's vocabulary for the allocator *)

(** The position of n's bit in the pool, [n - a.low] in Go's arithmetic. *)
Definition idx (a : allocator) (n : Z) : Z := GoInt.sub n (low a).

(** The range fits Go's int and the pool: the cursor can step past [hi],
    and a bit can be set for every integer of the range. *)
Definition range_ok (lo hi : Z) : Prop :=
  GoInt.min_int <= lo /\ lo <= hi /\ hi < GoInt.max_int /\ hi - lo < big.max_bits.

(** The invariant of the allocator's fields. *)
Record wf (a : allocator) : Prop := mk_wf {
  wf_range : range_ok (low a) (high a);
  wf_follow : low a <= follow a <= high a
}.

(** Enough fuel for both loops of [next] over the whole range. *)
Definition enough (fuel : nat) (a : allocator) : Prop :=
  high a - low a + 2 <= Z.of_nat fuel.

(** The position after n, from high back to low. *)
Definition succ_wrap (a : allocator) (n : Z) : Z :=
  if n =? high a then low a else n + 1.

(** [from; from + 1; ...], [len] positions. *)
Fixpoint upto (from : Z) (len : nat) : list Z :=
  match len with
  | O => []
  | S len' => from :: upto (from + 1) len'
  end.

(** The positions [from .. to], none when [to < from]. *)
Definition span (from to : Z) : list Z := upto from (Z.to_nat (to - from + 1)).

(** The states an allocator over [lo, hi] goes through. *)
Inductive reachable (lo hi : Z) : allocator -> Prop :=
| reach_new : reachable lo hi (newAllocator lo hi)
| reach_next a fuel n ok a' :
    reachable lo hi a -> next fuel a = Ret (n, ok, a') -> reachable lo hi a'
| reach_release a n a' :
    reachable lo hi a -> GoInt.in_int n -> release a n = Ret a' ->
    reachable lo hi a'.

(** n is handed out again: by the next call of [next], or by a later one
    when the calls before it hand out other ids. *)
Inductive reissued (fuel : nat) (n : Z) : allocator -> Prop :=
| reissued_now a a' :
    next fuel a = Ret (n, true, a') -> reissued fuel n a
| reissued_later a m a' :
    next fuel a = Ret (m, true, a') -> m <> n -> reissued fuel n a' ->
    reissued fuel n a.

(** How far ahead of the cursor n lies, going up and around. *)
Definition ahead (a : allocator) (n : Z) : Z :=
  if follow a <=? n then n - follow a
  else n - follow a + (high a - low a + 1).

(** The calls made on an allocator. *)
Inductive op : Type :=
| Next
| Release (n : Z).

(** The argument of a call is a Go int. *)
Definition op_int (o : op) : Prop :=
  match o with
  | Next => True
  | Release n => GoInt.in_int n
  end.

(** Run a sequence of calls and keep the ids that are live: returned by a
    successful [next] and not released since. *)
Fixpoint run (fuel : nat) (ops : list op) (a : allocator) (live : list Z)
  : outcome (allocator * list Z) :=
  match ops with
  | [] => Ret (a, live)
  | Next :: ops' =>
      '(n, ok, a') <- next fuel a ;;
      run fuel ops' a' (if (ok : bool) then n :: live else live)
  | Release n :: ops' =>
      a' <- release a n ;;
      run fuel ops' a' (remove Z.eq_dec n live)
  end.

(** The live ids are exactly the ints whose bit is set, each once. *)
Definition live_inv (a : allocator) (live : list Z) : Prop :=
  GoInt.in_int (low a) /\ GoInt.in_int (follow a) /\ NoDup live /\
  forall n, GoInt.in_int n -> (In n live <-> reserved a n = Ret true).

(** The rendering, in the specification's words: a run x..y of two or more
    reserved integers reads " x..y", a single one " x". *)
Definition render_run (r : Z * Z) : string :=
  if fst r <? snd r then (" " ++ dec (fst r) ++ ".." ++ dec (snd r))%string
  else (" " ++ dec (fst r))%string.

Definition render (runs : list (Z * Z)) : string :=
  fold_right (fun r s => (render_run r ++ s)%string) EmptyString runs.

(** x..y is a maximal run of reserved integers of the range: all of it is
    reserved, and it can be extended on neither side. *)
Definition maximal_run (a : allocator) (r : Z * Z) : Prop :=
  low a <= fst r /\ fst r <= snd r /\ snd r <= high a /\
  (forall m, fst r <= m <= snd r -> reserved a m = Ret true) /\
  (fst r = low a \/ reserved a (fst r - 1) = Ret false) /\
  (snd r = high a \/ reserved a (snd r + 1) = Ret false).

(** The runs in increasing order, each ending before the next begins. *)
Definition increasing (runs : list (Z * Z)) : Prop :=
  Sorted (fun r r' => snd r < fst r') runs.

(** The range leaves room for the two steps [String] takes past [high]. *)
Definition string_ok (a : allocator) : Prop :=
  GoInt.min_int <= low a /\ high a + 2 <= GoInt.max_int /\
  high a - low a < GoInt.max_int.

(** The cursor is inside a range that leaves room for one step past
    [high]; nothing is asked of the width of the range. *)
Definition cursor_ok (a : allocator) : Prop :=
  GoInt.min_int <= low a /\ low a <= follow a <= high a /\ high a < GoInt.max_int.

(** The allocator after n was claimed at the cursor. *)
Definition claim (a : allocator) (n : Z) : allocator :=
  mkAllocator (Z.setbit (pool a) (idx a n)) (succ_wrap a n) (low a) (high a).

(** What one call of [next] does, read off the free bits: the three ways
    out of the two loops. *)
Inductive next_spec (a : allocator) : Z -> bool -> allocator -> list Z -> Prop :=
| next_trailing n :
    follow a <= n <= high a ->
    reserved a n = Ret false ->
    (forall m, follow a <= m < n -> reserved a m = Ret true) ->
    next_spec a n true (claim a n) (span (follow a) n)
| next_preceding n :
    low a <= n < follow a ->
    reserved a n = Ret false ->
    (forall m, follow a <= m <= high a -> reserved a m = Ret true) ->
    (forall m, low a <= m < n -> reserved a m = Ret true) ->
    next_spec a n true (claim a n) (span (follow a) (high a) ++ span (low a) n)
| next_exhausted :
    (forall m, low a <= m <= high a -> reserved a m = Ret true) ->
    next_spec a 0 false (set_follow a (succ_wrap a (follow a)))
      (span (follow a) (high a) ++ span (low a) (follow a - 1)).

(** ** Sequences of calls *)

(** Call [next] up to k times, until it reports exhaustion; the ids it
    handed out, in order. *)
Fixpoint nexts (fuel : nat) (k : nat) (a : allocator)
  : outcome (list Z * allocator) :=
  match k with
  | O => Ret ([], a)
  | S k' =>
      '(n, ok, a1) <- next fuel a ;;
      if (ok : bool) then
        '(ns, a2) <- nexts fuel k' a1 ;;
        Ret (n :: ns, a2)
      else Ret ([], a1)
  end.

(** The ids of the range that are free. *)
Definition free_ids (a : allocator) : list Z :=
  filter (fun m => negb (Z.testbit (pool a) (m - low a))) (span (low a) (high a)).

(** A fresh allocator after its j lowest ids were handed out: the cursor
    is j past low, or back at low once it has passed high. *)
Definition filled (lo hi j : Z) : allocator :=
  mkAllocator (Z.ones j) (if lo + j <=? hi then lo + j else lo) lo hi.

(** ** States at the edges of Go's int *)

(** The allocator over [max_int - 1, max_int - 1] after its one id was
    handed out. *)
Definition near_max : allocator :=
  mkAllocator 1 (GoInt.max_int - 1) (GoInt.max_int - 1) (GoInt.max_int - 1).

(** The allocator over [max_int - 1, max_int] with max_int reserved, the
    cursor on it, and max_int - 1 just released. *)
Definition top_taken : allocator :=
  mkAllocator 2 GoInt.max_int (GoInt.max_int - 1) GoInt.max_int.

(** An allocator over [max_int - 1, max_int] whose cursor has wrapped to
    the negative ints, every bit from the cursor's on being clear. *)
Definition astray (a : allocator) : Prop :=
  low a = GoInt.max_int - 1 /\ high a = GoInt.max_int /\
  GoInt.min_int <= follow a <= -2 /\
  forall i, follow a + 9223372036854775810 <= i -> Z.testbit (pool a) i = false.

(** * The frame codec (modelled from the specification)

    Of the protocol engine only the allocator's source is at hand; the
    repository's reader and writer of frames, methods and field tables
    are not, and are modelled from sections 3 and 4.2 of the
    specification.  What the specification leaves open -- the values of
    the frame type codes, of the frame-end marker and of the field type
    discriminants -- stays a parameter of the model. *)

Module Codec.

(** ** Bytes and big-endian integers *)

Definition byte_of (z : Z) : byte :=
  match Byte.of_N (Z.to_N (z mod 256)) with
  | Some b => b
  | None => x00
  end.

Definition byte_val (b : byte) : Z := Z.of_N (Byte.to_N b).

(** The low [n] bytes of x, most significant first. *)
Fixpoint be (n : nat) (x : Z) : list byte :=
  match n with
  | O => []
  | S n' => be n' (x / 256) ++ [byte_of x]
  end.

Definition unbe (bs : list byte) : Z :=
  fold_left (fun acc b => acc * 256 + byte_val b) bs 0.

(** Two's complement on [n] bytes. *)
Definition be_signed (n : nat) (x : Z) : list byte := be n (x mod 256 ^ Z.of_nat n).

Definition to_signed (n : nat) (u : Z) : Z :=
  if u <? 256 ^ Z.of_nat n / 2 then u else u - 256 ^ Z.of_nat n.

(** ** Decoding results *)

(** The faults of section 4.2. *)
Inductive fault : Type :=
| FramingFault
| DecodeFault
| TruncationFault.

Inductive decoding (A : Type) : Type :=
| Done (a : A)
| Faulty (f : fault)
| Starved.

Arguments Done {A} a.
Arguments Faulty {A} f.
Arguments Starved {A}.

Definition dbind {A B : Type} (m : decoding A) (k : A -> decoding B) : decoding B :=
  match m with
  | Done a => k a
  | Faulty f => Faulty f
  | Starved => Starved
  end.

Declare Scope decoding_scope.
Delimit Scope decoding_scope with decoding.
Notation "x <- m ;; k" := (dbind m (fun x => k))
  (at level 61, m at next level, right associativity) : decoding_scope.
Notation "' p <- m ;; k" := (dbind m (fun x => let 'p := x in k))
  (at level 61, p pattern, m at next level, right associativity) : decoding_scope.
Local Open Scope decoding_scope.

(** Read exactly [n] bytes; the stream ending before is a truncation. *)
Definition get_bytes (n : nat) (bs : list byte) : decoding (list byte * list byte) :=
  if (List.length bs <? n)%nat then Faulty TruncationFault
  else Done (firstn n bs, skipn n bs).

Definition get_uint (n : nat) (bs : list byte) : decoding (Z * list byte) :=
  '(raw, rest) <- get_bytes n bs ;;
  Done (unbe raw, rest).

Definition get_int (n : nat) (bs : list byte) : decoding (Z * list byte) :=
  '(u, rest) <- get_uint n bs ;;
  Done (to_signed n u, rest).

Definition len (bs : list byte) : Z := Z.of_nat (List.length bs).

(** ** Frames *)

(** Modelled from the spec: the frame type of the codec, whose source is
    missing; section 3 has a frame as {type, channel-id, payload: bytes}
    with four types. *)
Inductive frame_type : Type :=
| Method
| ContentHeader
| ContentBody
| Heartbeat.

Record frame : Type := mkFrame {
  ftype : frame_type;
  channel : Z;
  payload : list byte
}.

Definition frame_types : list frame_type :=
  [Method; ContentHeader; ContentBody; Heartbeat].

(** A frame that the wire format can carry: the channel-id fits 2 bytes,
    the payload List.length 4. *)
Definition valid_frame (f : frame) : Prop :=
  0 <= channel f < 2 ^ 16 /\ len (payload f) < 2 ^ 32.

(** Modelled from the spec: the method type of the codec, whose source
    is missing; section 4.2 has a method payload as {2-byte class-id,
    2-byte method-id, argument encoding}.  The argument schemas of the
    protocol's method table are not reproduced by the specification and
    the arguments stay bytes. *)
Record method : Type := mkMethod {
  class_id : Z;
  method_id : Z;
  arguments : list byte
}.

Definition valid_method (m : method) : Prop :=
  0 <= class_id m < 2 ^ 16 /\ 0 <= method_id m < 2 ^ 16.

(** Modelled from the spec: the writer and the reader of a method
    payload, missing from the sources. *)
Definition encode_method (m : method) : list byte :=
  be 2 (class_id m) ++ be 2 (method_id m) ++ arguments m.

Definition decode_method (bs : list byte) : decoding method :=
  '(c, bs1) <- get_uint 2 bs ;;
  '(m, bs2) <- get_uint 2 bs1 ;;
  Done (mkMethod c m bs2).

(** ** Field-table values *)

(** Modelled from the spec: the field-table value type of the codec,
    whose source is missing; the tagged union of section 3.  Floats are
    kept as their 32 and 64 bits, a decimal as scale and value, a
    timestamp as its 64 bits; a table is the list of its entries in
    encoding order. *)
#[local] Unset Elimination Schemes.
Inductive value : Type :=
| VBoolean (b : bool)
| VInt8 (z : Z)
| VInt16 (z : Z)
| VInt32 (z : Z)
| VInt64 (z : Z)
| VUint8 (z : Z)
| VFloat32 (bits : Z)
| VFloat64 (bits : Z)
| VDecimal (scale : Z) (v : Z)
| VShortString (s : list byte)
| VLongString (s : list byte)
| VArray (vs : list value)
| VTable (t : list (list byte * value))
| VTimestamp (z : Z)
| VNull.
#[local] Set Elimination Schemes.

Definition table : Type := list (list byte * value).

(** The cases of the union, one discriminant each. *)
Inductive kind : Type :=
| KBoolean | KInt8 | KInt16 | KInt32 | KInt64 | KUint8 | KFloat32 | KFloat64
| KDecimal | KShortString | KLongString | KArray | KTable | KTimestamp | KNull.

Definition kinds : list kind :=
  [KBoolean; KInt8; KInt16; KInt32; KInt64; KUint8; KFloat32; KFloat64;
   KDecimal; KShortString; KLongString; KArray; KTable; KTimestamp; KNull].

Definition signed_ok (n : nat) (z : Z) : bool :=
  (- (256 ^ Z.of_nat n / 2) <=? z) && (z <? 256 ^ Z.of_nat n / 2).

Definition unsigned_ok (n : nat) (z : Z) : bool :=
  (0 <=? z) && (z <? 256 ^ Z.of_nat n).

Section Wire.

(** The discriminants and markers of the wire format. *)
Variable type_code : frame_type -> byte.
Variable frame_end : byte.
Variable tag : kind -> byte.

(** Modelled from the spec: the frame writer, missing from the sources;
    encode of section 4.2, {1-byte type, 2-byte channel-id, 4-byte
    big-endian payload length, payload, 1-byte frame-end marker}. *)
Definition encode_frame (f : frame) : list byte :=
  type_code (ftype f) :: be 2 (channel f) ++ be 4 (len (payload f)) ++
  payload f ++ [frame_end].

Definition type_of_code (c : byte) : option frame_type :=
  find (fun t => Byte.eqb (type_code t) c) frame_types.

(** Modelled from the spec: decode of section 4.2, read the fixed header,
    read exactly payload-List.length bytes, verify the frame-end marker; a
    stream that ends mid-frame is a truncation fault, an end marker that
    does not match a framing fault (as is, here, a type code that is
    none of the four). *)
Definition decode_frame (bs : list byte) : decoding (frame * list byte) :=
  '(t, bs1) <- get_bytes 1 bs ;;
  '(c, bs2) <- get_uint 2 bs1 ;;
  '(size, bs3) <- get_uint 4 bs2 ;;
  '(body, bs4) <- get_bytes (Z.to_nat size) bs3 ;;
  '(e, bs5) <- get_bytes 1 bs4 ;;
  match t, e with
  | [t0], [e0] =>
      if Byte.eqb e0 frame_end then
        match type_of_code t0 with
        | Some ty => Done (mkFrame ty c body, bs5)
        | None => Faulty FramingFault
        end
      else Faulty FramingFault
  | _, _ => Faulty FramingFault
  end.

(** A key of a table: a short string, its List.length in 1 byte. *)
Definition encode_key (k : list byte) : list byte := be 1 (len k) ++ k.

(** Modelled from the spec: the field-table encoding of section 4.2, every
    value tagged with a single-byte type discriminant before its bytes;
    short strings carry their List.length in 1 byte, long strings, arrays and
    tables the List.length of their bytes in 4. *)
Fixpoint encode_value (v : value) : list byte :=
  match v with
  | VBoolean b => [tag KBoolean; if b then x01 else x00]
  | VInt8 z => tag KInt8 :: be_signed 1 z
  | VInt16 z => tag KInt16 :: be_signed 2 z
  | VInt32 z => tag KInt32 :: be_signed 4 z
  | VInt64 z => tag KInt64 :: be_signed 8 z
  | VUint8 z => tag KUint8 :: be 1 z
  | VFloat32 bits => tag KFloat32 :: be 4 bits
  | VFloat64 bits => tag KFloat64 :: be 8 bits
  | VDecimal scale z => tag KDecimal :: be 1 scale ++ be_signed 4 z
  | VShortString s => tag KShortString :: be 1 (len s) ++ s
  | VLongString s => tag KLongString :: be 4 (len s) ++ s
  | VArray vs =>
      let body := flat_map encode_value vs in
      tag KArray :: be 4 (len body) ++ body
  | VTable t =>
      let body := flat_map (fun kv => encode_key (fst kv) ++ encode_value (snd kv)) t in
      tag KTable :: be 4 (len body) ++ body
  | VTimestamp z => tag KTimestamp :: be 8 z
  | VNull => [tag KNull]
  end.

Definition encode_values (vs : list value) : list byte :=
  flat_map encode_value vs.

Definition encode_fields (t : table) : list byte :=
  flat_map (fun kv => encode_key (fst kv) ++ encode_value (snd kv)) t.

(** A table on its own (a method argument, the headers of a message): the
    List.length of its bytes in 4, then its entries. *)
Definition encode_table (t : table) : list byte :=
  be 4 (len (encode_fields t)) ++ encode_fields t.

Definition kind_of_tag (b : byte) : option kind :=
  find (fun k => Byte.eqb (tag k) b) kinds.

(** Modelled from the spec: the reader of field values, missing from the
    sources; here the bytes of a value that holds no other value, after
    its discriminant. *)
Definition decode_scalar (k : kind) (bs : list byte) : decoding (value * list byte) :=
  match k with
  | KBoolean => '(b, rest) <- get_uint 1 bs ;; Done (VBoolean (negb (b =? 0)), rest)
  | KInt8 => '(z, rest) <- get_int 1 bs ;; Done (VInt8 z, rest)
  | KInt16 => '(z, rest) <- get_int 2 bs ;; Done (VInt16 z, rest)
  | KInt32 => '(z, rest) <- get_int 4 bs ;; Done (VInt32 z, rest)
  | KInt64 => '(z, rest) <- get_int 8 bs ;; Done (VInt64 z, rest)
  | KUint8 => '(z, rest) <- get_uint 1 bs ;; Done (VUint8 z, rest)
  | KFloat32 => '(z, rest) <- get_uint 4 bs ;; Done (VFloat32 z, rest)
  | KFloat64 => '(z, rest) <- get_uint 8 bs ;; Done (VFloat64 z, rest)
  | KDecimal =>
      '(scale, bs1) <- get_uint 1 bs ;;
      '(z, rest) <- get_int 4 bs1 ;;
      Done (VDecimal scale z, rest)
  | KShortString =>
      '(n, bs1) <- get_uint 1 bs ;;
      '(s, rest) <- get_bytes (Z.to_nat n) bs1 ;;
      Done (VShortString s, rest)
  | KLongString =>
      '(n, bs1) <- get_uint 4 bs ;;
      '(s, rest) <- get_bytes (Z.to_nat n) bs1 ;;
      Done (VLongString s, rest)
  | KTimestamp => '(z, rest) <- get_uint 8 bs ;; Done (VTimestamp z, rest)
  | KNull => Done (VNull, bs)
  | KArray | KTable => Faulty DecodeFault
  end.

(** Modelled from the spec: the reader of field values, missing from the
    sources; a discriminant that is none of the known ones is a decode
    fault, and a length-prefixed value is decoded from exactly the bytes
    its length declares. *)
Fixpoint decode_value (fuel : nat) (bs : list byte) {struct fuel}
  : decoding (value * list byte) :=
  match fuel with
  | O => Starved
  | S fuel' =>
      match bs with
      | [] => Faulty TruncationFault
      | t0 :: bs1 =>
          match kind_of_tag t0 with
          | None => Faulty DecodeFault
          | Some KArray =>
              '(n, bs2) <- get_uint 4 bs1 ;;
              '(body, rest) <- get_bytes (Z.to_nat n) bs2 ;;
              vs <- decode_values fuel' body ;;
              Done (VArray vs, rest)
          | Some KTable =>
              '(n, bs2) <- get_uint 4 bs1 ;;
              '(body, rest) <- get_bytes (Z.to_nat n) bs2 ;;
              t <- decode_fields fuel' body ;;
              Done (VTable t, rest)
          | Some k => decode_scalar k bs1
          end
      end
  end

with decode_values (fuel : nat) (bs : list byte) {struct fuel}
  : decoding (list value) :=
  match fuel with
  | O => Starved
  | S fuel' =>
      match bs with
      | [] => Done []
      | _ =>
          '(v, rest) <- decode_value fuel' bs ;;
          vs <- decode_values fuel' rest ;;
          Done (v :: vs)
      end
  end

with decode_fields (fuel : nat) (bs : list byte) {struct fuel}
  : decoding table :=
  match fuel with
  | O => Starved
  | S fuel' =>
      match bs with
      | [] => Done []
      | _ =>
          '(n, bs1) <- get_uint 1 bs ;;
          '(k, bs2) <- get_bytes (Z.to_nat n) bs1 ;;
          '(v, rest) <- decode_value fuel' bs2 ;;
          t <- decode_fields fuel' rest ;;
          Done ((k, v) :: t)
      end
  end.

(** Modelled from the spec: the reader of a table on its own, with fuel
    for every byte. *)
Definition decode_table (bs : list byte) : decoding (table * list byte) :=
  '(n, bs1) <- get_uint 4 bs ;;
  '(body, rest) <- get_bytes (Z.to_nat n) bs1 ;;
  t <- decode_fields (S (List.length body)) body ;;
  Done (t, rest).

End Wire.

(** The number of bytes a value takes on the wire. *)
Fixpoint wire_size (v : value) : Z :=
  match v with
  | VBoolean _ => 2
  | VInt8 _ => 2
  | VInt16 _ => 3
  | VInt32 _ => 5
  | VInt64 _ => 9
  | VUint8 _ => 2
  | VFloat32 _ => 5
  | VFloat64 _ => 9
  | VDecimal _ _ => 6
  | VShortString s => 2 + len s
  | VLongString s => 5 + len s
  | VArray vs => 5 + fold_right (fun v acc => wire_size v + acc) 0 vs
  | VTable t =>
      5 + fold_right (fun kv acc => 1 + len (fst kv) + wire_size (snd kv) + acc) 0 t
  | VTimestamp _ => 9
  | VNull => 1
  end.

Definition values_size (vs : list value) : Z :=
  fold_right (fun v acc => wire_size v + acc) 0 vs.

Definition fields_size (t : table) : Z :=
  fold_right (fun kv acc => 1 + len (fst kv) + wire_size (snd kv) + acc) 0 t.

(** The values the wire format can carry: every number within its width,
    every length within its prefix. *)
Fixpoint valid_value (v : value) : bool :=
  match v with
  | VBoolean _ => true
  | VInt8 z => signed_ok 1 z
  | VInt16 z => signed_ok 2 z
  | VInt32 z => signed_ok 4 z
  | VInt64 z => signed_ok 8 z
  | VUint8 z => unsigned_ok 1 z
  | VFloat32 bits => unsigned_ok 4 bits
  | VFloat64 bits => unsigned_ok 8 bits
  | VDecimal scale z => unsigned_ok 1 scale && signed_ok 4 z
  | VShortString s => len s <? 2 ^ 8
  | VLongString s => len s <? 2 ^ 32
  | VArray vs =>
      forallb valid_value vs &&
      (fold_right (fun v acc => wire_size v + acc) 0 vs <? 2 ^ 32)
  | VTable t =>
      forallb (fun kv => (len (fst kv) <? 2 ^ 8) && valid_value (snd kv)) t &&
      (fold_right (fun kv acc => 1 + len (fst kv) + wire_size (snd kv) + acc) 0 t
       <? 2 ^ 32)
  | VTimestamp z => unsigned_ok 8 z
  | VNull => true
  end.

Definition valid_values (vs : list value) : bool := forallb valid_value vs.

Definition valid_fields (t : table) : bool :=
  forallb (fun kv => (len (fst kv) <? 2 ^ 8) && valid_value (snd kv)) t.

(** A table on its own: valid entries, and a length that fits 4 bytes. *)
Definition valid_table (t : table) : bool :=
  valid_fields t && (fields_size t <? 2 ^ 32).

(** One assignment of the codes and discriminants, in the manner of
    AMQP 0-9-1, to run the codec on. *)
Definition sample_type_code (t : frame_type) : byte :=
  match t with
  | Method => x01
  | ContentHeader => x02
  | ContentBody => x03
  | Heartbeat => x08
  end.

Definition sample_frame_end : byte := xce.

Definition sample_tag (k : kind) : byte :=
  match k with
  | KBoolean => "t" | KInt8 => "b" | KInt16 => "U" | KInt32 => "I"
  | KInt64 => "L" | KUint8 => "B" | KFloat32 => "f" | KFloat64 => "d"
  | KDecimal => "D" | KShortString => "s" | KLongString => "S"
  | KArray => "A" | KTable => "F" | KTimestamp => "T" | KNull => "V"
  end%byte.

Definition sample_table : table :=
  [(["a"; "b"]%byte,
    VArray [VInt8 (-3); VNull; VTable [([], VBoolean true)]; VFloat32 1078530011]);
   (["c"]%byte, VDecimal 2 (-100000));
   ([], VLongString ["x"; "y"]%byte);
   (["t"]%byte, VTimestamp 1700000000);
   (["n"]%byte, VTable [(["i"]%byte, VInt64 (-9223372036854775808));
                        (["s"]%byte, VShortString ["o"; "k"]%byte)])].

(** The values that hold no other value. *)
Definition scalar (v : value) : Prop :=
  match v with
  | VArray _ | VTable _ => False
  | _ => True
  end.

(** What the round trip asks of a value: with fuel for its bytes it decodes
    to itself and leaves what follows it. *)
Definition decodes_back (tag : kind -> byte) (v : value) : Prop :=
  valid_value v = true ->
  forall fuel rest, wire_size v <= Z.of_nat fuel ->
    decode_value tag fuel (encode_value tag v ++ rest) = Done (v, rest).

End Codec.

(** * The integration tests' checksummed message bodies

    [generateCrc32Random] and [assertMessageCrc32], the helpers with which
    the integration tests publish bodies that carry their own length and
    CRC-32 and check what comes back.

    - A [[]byte] is its backing array, from the slice's first element up
      to its capacity, together with its length.  A slice expression
      panics as Go's does: [s[:h]] and [s[l:h]] are checked against the
      capacity, [s[l:]] against the length.  A write through [msg[l:h]]
      is a write to the array of [msg], l elements on.
    - [t.Fatalf] ends the test: an outcome of its own, with the formatted
      message.  A run-time panic is another, with its kind.
    - The checksum of hash/crc32 is a parameter, a function of the bytes
      written; so are the random reader (the bytes it yields, or its
      error) and the largest length [make] allocates. *)

Module Crc.

Inductive runtime_error : Type :=
| slice_bounds      (* slice bounds out of range *)
| index_range       (* index out of range *)
| makeslice_len.    (* makeslice: len out of range *)

Inductive test (A : Type) : Type :=
| Pass (a : A)
| Fatal (msg : string)
| Crash (e : runtime_error).

Arguments Pass {A} a.
Arguments Fatal {A} msg.
Arguments Crash {A} e.

Definition tbind {A B : Type} (m : test A) (k : A -> test B) : test B :=
  match m with
  | Pass a => k a
  | Fatal msg => Fatal msg
  | Crash e => Crash e
  end.

Declare Scope test_scope.
Delimit Scope test_scope with test.
Notation "x <- m ;; k" := (tbind m (fun x => k))
  (at level 61, m at next level, right associativity) : test_scope.
Local Open Scope test_scope.

(** ** Slices of bytes *)

Record slice : Type := mkSlice {
  array : list byte;
  len : nat
}.

Definition cap (s : slice) : nat := List.length (array s).

(** The elements of a slice. *)
Definition elems (s : slice) : list byte := firstn (len s) (array s).

(** What holds of every slice of a Go program. *)
Definition slice_ok (s : slice) : Prop :=
  (len s <= cap s)%nat /\ Z.of_nat (cap s) <= GoInt.max_int.

(** [s[:h]] *)
Definition slice_to (s : slice) (h : nat) : test slice :=
  if (h <=? cap s)%nat then Pass (mkSlice (array s) h)
  else Crash slice_bounds.

(** [s[l:]] *)
Definition slice_from (s : slice) (l : nat) : test slice :=
  if (l <=? len s)%nat then Pass (mkSlice (skipn l (array s)) (len s - l))
  else Crash slice_bounds.

(** [s[l:h]] *)
Definition slice_range (s : slice) (l h : nat) : test slice :=
  if ((l <=? h)%nat && (h <=? cap s)%nat)%bool
  then Pass (mkSlice (skipn l (array s)) (h - l))
  else Crash slice_bounds.

(** [s] after a write through [s[l:h]] that left that slice as [b]. *)
Definition through (s : slice) (l : nat) (b : slice) : slice :=
  mkSlice (firstn l (array s) ++ array b) (len s).

(** ** encoding/binary, big endian *)

(** [byte(v)] *)
Definition byte_of (v : Z) : byte :=
  match Byte.of_N (Z.to_N (v mod 256)) with
  | Some b => b
  | None => x00
  end.

(** [uint32(b)] of a byte *)
Definition byte_val (b : byte) : Z := Z.of_N (Byte.to_N b).

(** [uint32(n)] of an int *)
Definition uint32 (n : Z) : Z := n mod 2 ^ 32.

(** [uint32(b[3]) | uint32(b[2])<<8 | uint32(b[1])<<16 | uint32(b[0])<<24] *)
Definition word (b0 b1 b2 b3 : byte) : Z :=
  Z.lor (Z.lor (Z.lor (byte_val b3) (Z.shiftl (byte_val b2) 8))
               (Z.shiftl (byte_val b1) 16))
        (Z.shiftl (byte_val b0) 24).

(** [Uint32(b)]: the word of the first four bytes, after the bounds check
    [_ = b[3]]. *)
Definition Uint32 (b : slice) : test Z :=
  match elems b with
  | b0 :: b1 :: b2 :: b3 :: _ => Pass (word b0 b1 b2 b3)
  | _ => Crash index_range
  end.

(** [byte(v >> 24)], [byte(v >> 16)], [byte(v >> 8)], [byte(v)] *)
Definition bytes32 (v : Z) : list byte :=
  [byte_of (Z.shiftr v 24); byte_of (Z.shiftr v 16);
   byte_of (Z.shiftr v 8); byte_of v].

(** [PutUint32(b, v)]: [b[0] = byte(v >> 24); b[1] = byte(v >> 16);
    b[2] = byte(v >> 8); b[3] = byte(v)], after the bounds check
    [_ = b[3]]; the slice as the writes leave it. *)
Definition PutUint32 (b : slice) (v : Z) : test slice :=
  if (4 <=? len b)%nat then
    Pass (mkSlice (bytes32 v ++ skipn 4 (array b)) (len b))
  else Crash index_range.

(** ** crypto/rand and io.ReadFull *)

(** The random reader: the error it fails with, if it does, and else the
    bytes it yields, by position. *)
Record reader : Type := mkReader {
  read_err : option string;
  read_byte : nat -> byte
}.

(** [io.ReadFull(r, buf)]: the error, or [buf] filled.  Nothing is read,
    and nothing fails, for an empty [buf]. *)
Definition ReadFull (r : reader) (buf : slice) : string + slice :=
  match len buf, read_err r with
  | S _, Some err => inl err
  | _, _ =>
      inr (mkSlice (map (read_byte r) (seq 0 (len buf))
                    ++ skipn (len buf) (array buf)) (len buf))
  end.

(** ** The helpers *)

Section Helpers.

(** [crc := crc32.NewIEEE(); crc.Write(p); crc.Sum32()] *)
Variable crc32 : list byte -> Z.

(** The largest length [make([]byte, n)] allocates. *)
Variable maxAlloc : Z.

(** [make([]byte, n)] *)
Definition make (n : Z) : test slice :=
  if ((n <? 0) || (maxAlloc <? n))%bool then Crash makeslice_len
  else Pass (mkSlice (repeat x00 (Z.to_nat n)) (Z.to_nat n)).

(** Pulls out the CRC and verifies the remaining content against the CRC *)
Definition assertMessageCrc32 (msg : slice) (assert : string) : test unit :=
  hd <- slice_to msg 4 ;;
  size <- Uint32 hd ;;
  body <- slice_from msg 8 ;;
  let sum := crc32 (elems body) in
  field <- slice_range msg 4 8 ;;
  stored <- Uint32 field ;;
  if negb (stored =? sum) then
    Fatal ("Message does not match CRC: " ++ assert)%string
  else if negb (size =? GoInt.sub (Z.of_nat (len msg)) 8) then
    Fatal ("Message does not match size, should=" ++ dec size ++ ", is="
           ++ dec (GoInt.sub (Z.of_nat (len msg)) 8) ++ ": " ++ assert)%string
  else Pass tt.

(** Creates a random body size with a leading 32-bit CRC in network byte
    order that verifies the remaining slice *)
Definition generateCrc32Random (r : reader) (size : Z) : test slice :=
  msg <- make (GoInt.add size 8) ;;
  match ReadFull r msg with
  | inl err => Fatal ("could not get random data: " ++ err)%string
  | inr msg =>
      body <- slice_from msg 8 ;;
      let sum := crc32 (elems body) in
      b <- slice_range msg 0 4 ;;
      b <- PutUint32 b (uint32 size) ;;
      let msg := through msg 0 b in
      b <- slice_range msg 4 8 ;;
      b <- PutUint32 b sum ;;
      Pass (through msg 4 b)
  end.

End Helpers.

(** ** hash/crc32 *)

(** The IEEE checksum as hash/crc32 computes it a byte at a time: the
    polynomial, an entry of its table, and the update. *)
Definition IEEE : Z := 0xedb88320.

Definition entry (i : Z) : Z :=
  Nat.iter 8 (fun crc => if Z.testbit crc 0
                         then Z.lxor (Z.shiftr crc 1) IEEE
                         else Z.shiftr crc 1) i.

Definition ChecksumIEEE (p : list byte) : Z :=
  let crc := Z.lxor 0 0xffffffff in
  let crc := fold_left (fun crc v =>
               Z.lxor (entry (Z.lxor (crc mod 256) (byte_val v)))
                      (Z.shiftr crc 8)) p crc in
  Z.lxor crc 0xffffffff.

(** A reader that yields 0, 1, 2, ... *)
Definition counting : reader := mkReader None (fun i => byte_of (Z.of_nat i)).

End Crc.

(** * Proofs *)

(** ** Go's int *)

Lemma int_bounds : GoInt.min_int = - 9223372036854775808 /\ GoInt.max_int = 9223372036854775807.
Proof. split; reflexivity. Qed.

Lemma wrap_small z : GoInt.in_int z -> GoInt.wrap z = z.
Proof.
  unfold GoInt.in_int, GoInt.wrap. destruct int_bounds as [-> ->].
  change (2 ^ (GoInt.size - 1)) with 9223372036854775808.
  change (2 ^ GoInt.size) with 18446744073709551616.
  intros H. rewrite Z.mod_small; lia.
Qed.

Lemma wrap_in_int z : GoInt.in_int (GoInt.wrap z).
Proof.
  unfold GoInt.in_int, GoInt.wrap. destruct int_bounds as [-> ->].
  change (2 ^ (GoInt.size - 1)) with 9223372036854775808.
  change (2 ^ GoInt.size) with 18446744073709551616.
  pose proof (Z.mod_pos_bound (z + 9223372036854775808) 18446744073709551616).
  lia.
Qed.

(** Subtracting a fixed int is injective on ints. *)
Lemma sub_inj x y l :
  GoInt.in_int x -> GoInt.in_int y -> GoInt.in_int l ->
  GoInt.sub x l = GoInt.sub y l -> x = y.
Proof.
  unfold GoInt.in_int, GoInt.sub, GoInt.wrap. destruct int_bounds as [-> ->].
  change (2 ^ (GoInt.size - 1)) with 9223372036854775808.
  change (2 ^ GoInt.size) with 18446744073709551616.
  intros Hx Hy Hl H.
  pose proof (Z.div_mod (x - l + 9223372036854775808) 18446744073709551616).
  pose proof (Z.div_mod (y - l + 9223372036854775808) 18446744073709551616).
  pose proof (Z.mod_pos_bound (x - l + 9223372036854775808) 18446744073709551616).
  pose proof (Z.mod_pos_bound (y - l + 9223372036854775808) 18446744073709551616).
  lia.
Qed.

Lemma wrap_under z : GoInt.in_int (z + 2 ^ GoInt.size) -> GoInt.wrap z = z + 2 ^ GoInt.size.
Proof.
  unfold GoInt.in_int, GoInt.wrap. destruct int_bounds as [-> ->].
  change (2 ^ (GoInt.size - 1)) with 9223372036854775808.
  change (2 ^ GoInt.size) with 18446744073709551616.
  intros H.
  replace (z + 9223372036854775808)
    with (z + 18446744073709551616 + 9223372036854775808
          + (-1) * 18446744073709551616) by lia.
  rewrite Z_mod_plus_full, Z.mod_small; lia.
Qed.

Lemma add_small x y : GoInt.in_int (x + y) -> GoInt.add x y = x + y.
Proof. apply wrap_small. Qed.

Lemma sub_small x y : GoInt.in_int (x - y) -> GoInt.sub x y = x - y.
Proof. apply wrap_small. Qed.

(** ** Outcomes *)

Lemma bind_ret {A B : Type} (m : outcome A) (k : A -> outcome B) (b : B) :
  bind m k = Ret b -> exists a, m = Ret a /\ k a = Ret b.
Proof. destruct m; simpl; intros H; try discriminate. eauto. Qed.

Ltac inv_bind H :=
  let x := fresh "x" in
  let E := fresh "E" in
  apply bind_ret in H; destruct H as (x & E & H).

(** ** reserved, reserve, release *)

Lemma reserved_ret a n b :
  reserved a n = Ret b <-> 0 <= idx a n /\ Z.testbit (pool a) (idx a n) = b.
Proof.
  unfold reserved, big.Bit, idx.
  destruct (Z.ltb_spec (GoInt.sub n (low a)) 0); simpl.
  - split; [discriminate | lia].
  - destruct (Z.testbit (pool a) (GoInt.sub n (low a))); simpl;
      (split; [intros [= <-]; auto | intros [_ <-]; reflexivity]).
Qed.

Lemma reserved_panic a n :
  idx a n < 0 -> reserved a n = Panic "negative bit index".
Proof.
  unfold reserved, big.Bit, idx. intros H.
  destruct (Z.ltb_spec (GoInt.sub n (low a)) 0); [reflexivity | lia].
Qed.

Lemma reserved_total a n :
  0 <= idx a n -> reserved a n = Ret (Z.testbit (pool a) (idx a n)).
Proof. intros H. apply reserved_ret. auto. Qed.

Lemma reserve_taken a n :
  reserved a n = Ret true -> reserve a n = Ret (false, a).
Proof. unfold reserve. intros ->. reflexivity. Qed.

(** ** math/big *)

Lemma max_bits_eq : big.max_bits = 2251799813684992.
Proof. reflexivity. Qed.

Lemma grow_small len i :
  0 <= i < big.max_bits -> big.grow len (i / 64) = Ret tt.
Proof.
  intros Hi. rewrite max_bits_eq in Hi. unfold big.grow, big.maxAlloc.
  change (2 ^ 48) with 281474976710656.
  assert (Hj : 0 <= i / 64 <= 35184372088827).
  { split; [apply Z.div_pos; lia|].
    apply Z.lt_succ_r, Z.div_lt_upper_bound; lia. }
  destruct (i / 64 <? len); [reflexivity|].
  destruct (i / 64 =? 0); [reflexivity|].
  destruct (Z.ltb_spec 281474976710656 ((i / 64 + 1) * 8)); [lia|].
  destruct (Z.ltb_spec 281474976710656 ((i / 64 + 1 + 4) * 8)); [lia|].
  reflexivity.
Qed.

Lemma SetBit_set x i :
  0 <= i < big.max_bits -> big.SetBit x i 1 = Ret (Z.setbit x i).
Proof.
  intros Hi. unfold big.SetBit.
  destruct (Z.ltb_spec i 0); [lia|]. cbn [Z.eqb Pos.eqb].
  destruct (x <? 0); [reflexivity|].
  rewrite grow_small by exact Hi. reflexivity.
Qed.

Lemma SetBit_clear x i :
  0 <= i -> 0 <= x \/ i < big.max_bits ->
  big.SetBit x i 0 = Ret (Z.clearbit x i).
Proof.
  intros Hi Hx. unfold big.SetBit.
  destruct (Z.ltb_spec i 0); [lia|]. cbn [Z.eqb].
  destruct (Z.ltb_spec x 0); [| reflexivity].
  rewrite grow_small by lia. reflexivity.
Qed.

(** Whenever [SetBit] returns, it returns x with the bit set or cleared. *)
Lemma SetBit_ret x i b y :
  big.SetBit x i b = Ret y ->
  0 <= i /\ ((b = 0 /\ y = Z.clearbit x i) \/ (b = 1 /\ y = Z.setbit x i)).
Proof.
  unfold big.SetBit. destruct (Z.ltb_spec i 0); [discriminate|].
  destruct (Z.eqb_spec b 0) as [-> | _].
  - destruct (x <? 0).
    + destruct (big.grow _ _); simpl; intros [= <-] || discriminate. auto.
    + intros [= <-]. auto.
  - destruct (Z.eqb_spec b 1) as [-> | _]; [| discriminate].
    destruct (x <? 0).
    + intros [= <-]. auto.
    + destruct (big.grow _ _); simpl; intros [= <-] || discriminate. auto.
Qed.

(** Far enough out the bit of a small pool cannot be set. *)
Lemma SetBit_beyond x i :
  0 <= x < 2 ^ 64 -> big.maxAlloc * 8 <= i ->
  big.SetBit x i 1 = Panic "makeslice: len out of range".
Proof.
  intros Hx Hi. unfold big.maxAlloc in *.
  change (2 ^ 48 * 8) with 2251799813685248 in Hi.
  change (2 ^ 64) with 18446744073709551616 in Hx.
  unfold big.SetBit. destruct (Z.ltb_spec i 0); [lia|]. cbn [Z.eqb Pos.eqb].
  destruct (Z.ltb_spec x 0); [lia|].
  assert (Hj : 35184372088832 <= i / 64) by (apply Z.div_le_lower_bound; lia).
  assert (Hw : big.words x <= 1).
  { unfold big.words. destruct (Z.eqb_spec x 0); [lia|].
    assert (Z.log2 x < 64) by (apply Z.log2_lt_pow2; lia).
    pose proof (Z.log2_nonneg x).
    rewrite Z.div_small by lia. lia. }
  unfold big.grow, big.maxAlloc. change (2 ^ 48) with 281474976710656.
  destruct (Z.ltb_spec (i / 64) (big.words x)); [lia|].
  destruct (Z.eqb_spec (i / 64) 0); [lia|].
  destruct (Z.ltb_spec 281474976710656 ((i / 64 + 1) * 8)); [reflexivity | lia].
Qed.

(** ** reserve and release *)

Lemma reserve_claims a n :
  reserved a n = Ret false -> idx a n < big.max_bits ->
  reserve a n = Ret (true, set_pool a (Z.setbit (pool a) (idx a n))).
Proof.
  unfold reserve. intros H Hi. rewrite H. simpl.
  apply reserved_ret in H. destruct H as [H _].
  fold (idx a n). unfold allocated. rewrite SetBit_set by lia. reflexivity.
Qed.

Lemma reserve_ret a n ok a' :
  reserve a n = Ret (ok, a') ->
  (ok = false /\ a' = a /\ reserved a n = Ret true) \/
  (ok = true /\ a' = set_pool a (Z.setbit (pool a) (idx a n)) /\
   reserved a n = Ret false).
Proof.
  intros H. destruct (reserved a n) as [[|]| |] eqn:E.
  - rewrite (reserve_taken _ _ E) in H. injection H as <- <-. auto.
  - unfold reserve in H. rewrite E in H. cbn [bind] in H.
    fold (idx a n) in H. inv_bind H. injection H as <- <-.
    apply SetBit_ret in E0. destruct E0 as [_ [[B _] | [_ ->]]].
    + discriminate B.
    + auto.
  - unfold reserve in H. rewrite E in H. discriminate.
  - unfold reserve in H. rewrite E in H. discriminate.
Qed.

Lemma reserve_total_cases a n :
  0 <= idx a n < big.max_bits ->
  reserve a n =
  if Z.testbit (pool a) (idx a n) then Ret (false, a)
  else Ret (true, set_pool a (Z.setbit (pool a) (idx a n))).
Proof.
  intros H. destruct (Z.testbit (pool a) (idx a n)) eqn:E.
  - apply reserve_taken, reserved_ret. split; [lia | exact E].
  - apply reserve_claims; [apply reserved_ret; split; [lia | exact E] | lia].
Qed.

Lemma release_total a n :
  0 <= pool a -> 0 <= idx a n ->
  release a n = Ret (set_pool a (Z.clearbit (pool a) (idx a n))).
Proof.
  unfold release. fold (idx a n). intros Hp H. unfold free.
  rewrite SetBit_clear by auto. reflexivity.
Qed.

Lemma release_panic a n :
  idx a n < 0 -> release a n = Panic "negative bit index".
Proof.
  unfold release, big.SetBit. fold (idx a n). intros H.
  destruct (Z.ltb_spec (idx a n) 0); [reflexivity | lia].
Qed.

Lemma release_ret a n a' :
  release a n = Ret a' ->
  0 <= idx a n /\ a' = set_pool a (Z.clearbit (pool a) (idx a n)).
Proof.
  unfold release. fold (idx a n). intros H. inv_bind H. injection H as <-.
  apply SetBit_ret in E. destruct E as [H0 [[_ ->] | [B _]]].
  - auto.
  - discriminate B.
Qed.

(** Clearing a bit that is not set changes nothing. *)
Lemma clearbit_unset x i : Z.testbit x i = false -> Z.clearbit x i = x.
Proof.
  intros H. apply Z.bits_inj'. intros m Hm.
  rewrite Z.clearbit_eqb. destruct (Z.eqb_spec i m) as [-> | _].
  - rewrite H. reflexivity.
  - apply andb_true_r.
Qed.

(** ** The loops of next *)

(** What a loop leaves of the pool, whatever its condition. *)
Lemma scan_frame fuel cond : forall a r a' probed,
  scan fuel cond a = Ret (r, a', probed) ->
  low a' = low a /\ high a' = high a /\
  match r with
  | Some n =>
      reserved a n = Ret false /\ pool a' = Z.setbit (pool a) (idx a n) /\
      follow a' = n /\ (GoInt.in_int (follow a) -> GoInt.in_int n)
  | None => pool a' = pool a
  end.
Proof.
  induction fuel as [|fuel IH]; intros a r a' probed H; simpl in H; [discriminate|].
  destruct (cond a).
  - inv_bind H. destruct x as [ok a1].
    apply reserve_ret in E. destruct E as [(-> & -> & E) | (-> & -> & E)].
    + inv_bind H. destruct x as [[r2 a2] probed2]. injection H as <- <- <-.
      apply IH in E0. simpl in E0.
      destruct E0 as (L & Hh & R). split; [exact L | split; [exact Hh |]].
      destruct r2 as [n|]; [| exact R].
      destruct R as (R1 & R2 & R3 & R4).
      split; [exact R1 | split; [exact R2 | split; [exact R3 |]]].
      intros _. apply R4, wrap_in_int.
    + injection H as <- <- <-. simpl. auto 6.
  - injection H as <- <- <-. auto.
Qed.

Lemma span_nil from to : to < from -> span from to = [].
Proof.
  intros H. unfold span. replace (Z.to_nat (to - from + 1)) with O by lia.
  reflexivity.
Qed.

Lemma span_cons from to : from <= to -> span from to = from :: span (from + 1) to.
Proof.
  intros H. unfold span.
  replace (Z.to_nat (to - from + 1)) with (S (Z.to_nat (to - (from + 1) + 1))) by lia.
  reflexivity.
Qed.

Lemma span_one n : span n n = [n].
Proof. rewrite span_cons, span_nil; [reflexivity | lia | lia]. Qed.

Lemma in_upto m len : forall from,
  In m (upto from len) <-> from <= m < from + Z.of_nat len.
Proof.
  induction len as [|len IH]; intros from; simpl.
  - lia.
  - rewrite IH. lia.
Qed.

Lemma in_span m from to : In m (span from to) <-> from <= m <= to.
Proof. unfold span. rewrite in_upto. lia. Qed.

Lemma span_last from to d : from <= to -> last (span from to) d = to.
Proof.
  intros H. remember (Z.to_nat (to - from)) as k eqn:Ek.
  revert from H Ek. induction k as [|k IH]; intros from H Ek.
  - replace to with from by lia. rewrite span_one. reflexivity.
  - rewrite span_cons by lia.
    rewrite (span_cons (from + 1)) by lia.
    rewrite <- (span_cons (from + 1)) by lia.
    specialize (IH (from + 1) ltac:(lia) ltac:(lia)).
    rewrite (span_cons (from + 1)) in * by lia. exact IH.
Qed.

Section Scan.

(** The loop's condition compares the cursor with a bound [b], for the
    first loop the field [high], which no step changes. *)
Variables (cond : allocator -> bool) (hi b : Z).
Hypothesis cond_le : forall x, high x = hi -> cond x = (follow x <=? b).
Hypothesis b_fits : b < GoInt.max_int.

(** Where a loop that runs the cursor up to [b] stops. *)
Lemma scan_span fuel : forall a r a' probed,
  high a = hi ->
  GoInt.min_int <= follow a -> follow a <= b + 1 ->
  scan fuel cond a = Ret (r, a', probed) ->
  match r with
  | Some n =>
      follow a <= n <= b /\
      (forall m, follow a <= m < n -> reserved a m = Ret true) /\
      probed = span (follow a) n
  | None =>
      follow a' = b + 1 /\
      (forall m, follow a <= m <= b -> reserved a m = Ret true) /\
      probed = span (follow a) b
  end.
Proof.
  induction fuel as [|fuel IH]; intros a r a' probed Hh Hlo Hhi H; simpl in H;
    [discriminate|].
  rewrite cond_le in H by exact Hh. destruct (Z.leb_spec (follow a) b) as [Hc | Hc].
  - inv_bind H. destruct x as [ok a1].
    apply reserve_ret in E. destruct E as [(-> & -> & E) | (-> & -> & E)].
    + inv_bind H. destruct x as [[r2 a2] probed2]. injection H as <- <- <-.
      assert (Hadd : GoInt.add (follow a) 1 = follow a + 1)
        by (apply add_small; unfold GoInt.in_int; lia).
      rewrite Hadd in E0.
      apply IH in E0; simpl; try lia. simpl in E0.
      destruct r2 as [n|].
      * destruct E0 as (Hn & Hm & ->). split; [lia|]. split.
        -- intros m Hm'. destruct (Z.eq_dec m (follow a)) as [-> | Hne].
           ++ exact E.
           ++ apply (Hm m). lia.
        -- rewrite (span_cons (follow a)) by lia. reflexivity.
      * destruct E0 as (Hf & Hm & ->). split; [exact Hf|]. split.
        -- intros m Hm'. destruct (Z.eq_dec m (follow a)) as [-> | Hne].
           ++ exact E.
           ++ apply (Hm m). lia.
        -- rewrite (span_cons (follow a)) by lia. reflexivity.
    + injection H as <- <- <-. simpl. split; [lia|]. split.
      * intros m Hm. lia.
      * rewrite span_one. reflexivity.
  - injection H as <- <- <-. split; [lia|]. split.
    + intros m Hm. lia.
    + rewrite span_nil by lia. reflexivity.
Qed.

(** With a bit position that can be set for every integer on the way and
    fuel for every step, the loop returns. *)
Lemma scan_returns fuel : forall a,
  high a = hi ->
  GoInt.min_int <= follow a -> follow a <= b + 1 ->
  (forall m, follow a <= m <= b -> 0 <= idx a m < big.max_bits) ->
  b - follow a + 2 <= Z.of_nat fuel ->
  returns (scan fuel cond a).
Proof.
  induction fuel as [|fuel IH]; intros a Hh Hlo Hhi Hidx Hfuel; [lia|].
  simpl. rewrite cond_le by exact Hh. destruct (Z.leb_spec (follow a) b) as [Hc | Hc].
  - rewrite (reserve_total_cases a (follow a)) by (apply Hidx; lia).
    destruct (Z.testbit (pool a) (idx a (follow a))); simpl.
    + assert (Hadd : GoInt.add (follow a) 1 = follow a + 1)
        by (apply add_small; unfold GoInt.in_int; lia).
      rewrite Hadd.
      destruct (IH (set_follow a (follow a + 1))) as [[[r2 a2] p2] E]; simpl; try lia.
      * intros m Hm. apply (Hidx m). lia.
      * rewrite E. simpl. eexists. reflexivity.
    + eexists. reflexivity.
  - eexists. reflexivity.
Qed.

End Scan.

(** ** next on a well-formed allocator *)

Lemma allocator_eq a a' :
  pool a = pool a' -> follow a = follow a' -> low a = low a' -> high a = high a' ->
  a = a'.
Proof. destruct a, a'; simpl; intros; subst; reflexivity. Qed.

Lemma reserved_ext a a' n :
  pool a = pool a' -> low a = low a' -> reserved a n = reserved a' n.
Proof. unfold reserved. intros -> ->. reflexivity. Qed.

Lemma idx_in_range a n :
  range_ok (low a) (high a) -> low a <= n <= high a -> idx a n = n - low a.
Proof.
  unfold range_ok. intros (H1 & H2 & H3 & H4) Hn. unfold idx.
  apply sub_small. unfold GoInt.in_int.
  destruct int_bounds as [E1 E2]. rewrite E1, E2, max_bits_eq in *. lia.
Qed.

Lemma ltb_as_leb w : forall x, (follow x <? w) = (follow x <=? w - 1).
Proof.
  intros x. destruct (Z.ltb_spec (follow x) w), (Z.leb_spec (follow x) (w - 1));
    auto; lia.
Qed.

Lemma wf_cursor_ok a : wf a -> cursor_ok a.
Proof. intros [(R1 & R2 & R3 & R4) Hf]. unfold cursor_ok. auto. Qed.

(** Whenever [next] returns, it has done what [next_spec] says. *)
Lemma next_probed_sound fuel a n ok a' probed :
  cursor_ok a ->
  next_probed fuel a = Ret (n, ok, a', probed) ->
  next_spec a n ok a' probed.
Proof.
  intros (R1 & Hf & R3) H.
  assert (C1 : forall x, high x = high a -> (follow x <=? high x) = (follow x <=? high a))
    by (intros x ->; reflexivity).
  pose proof (fun x (_ : high x = high a) => ltb_as_leb (follow a) x) as C2.
  unfold next_probed in H.
  (* Find trailing bit *)
  inv_bind H. destruct x as [[r1 a1] p1]. rename E into E1.
  pose proof (scan_frame _ _ _ _ _ _ E1) as (L1 & H1 & F1).
  pose proof (scan_span _ _ _ C1 R3 _ _ _ _ _ eq_refl ltac:(lia) ltac:(lia) E1) as S1.
  destruct r1 as [n1|].
  - injection H as <- <- <- <-.
    destruct F1 as (Fr & Fp & Ff & _). destruct S1 as (Sn & Sm & ->).
    replace (advance a1) with (claim a n1); [apply next_trailing; auto|].
    unfold advance, claim, succ_wrap.
    rewrite Ff, H1. destruct (Z.eqb_spec n1 (high a)).
    + apply allocator_eq; simpl; congruence.
    + apply allocator_eq; simpl; try congruence.
      symmetry. apply add_small. unfold GoInt.in_int. lia.
  - destruct S1 as (Sf & Sm & ->).
    (* Find preceding free'd pool *)
    inv_bind H. destruct x as [[r2 a3] p2]. rename E into E2.
    pose proof (scan_frame _ _ _ _ _ _ E2) as (L2 & H2 & F2).
    assert (S2 := scan_span _ (high a) _ C2 ltac:(lia) fuel
                    (set_follow a1 (low a1)) r2 a3 p2 H1).
    simpl in S2. specialize (S2 ltac:(lia) ltac:(lia) E2).
    simpl in L2, H2, F2, S2. rewrite L1 in S2.
    assert (X : forall m, reserved (set_follow a1 (low a1)) m = reserved a m)
      by (intros m; apply reserved_ext; simpl; congruence).
    destruct r2 as [n2|].
    + injection H as <- <- <- <-.
      destruct F2 as (Fr & Fp & Ff & _). destruct S2 as (Sn & Sm2 & ->).
      replace (advance a3) with (claim a n2).
      * apply next_preceding; auto; try lia.
        -- rewrite <- X. exact Fr.
        -- intros m Hm. rewrite <- X. apply Sm2. lia.
      * unfold advance, claim, succ_wrap.
        rewrite Ff, H2, H1. destruct (Z.eqb_spec n2 (high a)); [lia|].
        apply allocator_eq; simpl; try congruence.
        -- rewrite Fp, F1. unfold idx. simpl. congruence.
        -- symmetry. apply add_small. unfold GoInt.in_int. lia.
    + injection H as <- <- <- <-.
      destruct S2 as (Sf2 & Sm2 & ->).
      replace (advance a3) with (set_follow a (succ_wrap a (follow a))).
      * apply next_exhausted. intros m Hm.
        destruct (Z.lt_ge_cases m (follow a)).
        -- rewrite <- X. apply Sm2. lia.
        -- apply Sm. lia.
      * unfold advance, succ_wrap.
        rewrite Sf2, H2, H1. replace (follow a - 1 + 1) with (follow a) by lia.
        destruct (Z.eqb_spec (follow a) (high a)).
        -- apply allocator_eq; simpl; congruence.
        -- apply allocator_eq; simpl; try congruence.
           symmetry. apply add_small. unfold GoInt.in_int. lia.
Qed.

(** On a range that fits, with fuel for the range, [next] returns. *)
Lemma next_probed_returns fuel a :
  wf a -> enough fuel a -> returns (next_probed fuel a).
Proof.
  intros [Hr Hf] Hfuel. unfold enough in Hfuel.
  pose proof Hr as (R1 & R2 & R3 & R4).
  assert (Hidx : forall m, low a <= m <= high a -> 0 <= idx a m < big.max_bits).
  { intros m Hm. rewrite idx_in_range by auto. lia. }
  assert (C1 : forall x, high x = high a -> (follow x <=? high x) = (follow x <=? high a))
    by (intros x ->; reflexivity).
  pose proof (fun x (_ : high x = high a) => ltb_as_leb (follow a) x) as C2.
  unfold next_probed.
  destruct (scan_returns _ _ _ C1 R3 fuel a) as [[[r1 a1] p1] E1]; try lia.
  { intros m Hm. apply Hidx. lia. }
  rewrite E1. simpl.
  pose proof (scan_frame _ _ _ _ _ _ E1) as (L1 & H1 & F1).
  destruct r1 as [n|]; [eexists; reflexivity|].
  set (a2 := set_follow a1 (low a1)).
  destruct (scan_returns _ (high a) (follow a - 1) C2 ltac:(lia) fuel a2)
    as [[[r2 a3] p2] E2]; subst a2; simpl; try lia.
  { intros m Hm. unfold idx; simpl. rewrite L1. apply Hidx. lia. }
  rewrite E2. simpl. destruct r2; eexists; reflexivity.
Qed.

Lemma next_as_probed fuel a n ok a' :
  next fuel a = Ret (n, ok, a') <->
  exists probed, next_probed fuel a = Ret (n, ok, a', probed).
Proof.
  unfold next. split.
  - intros H. inv_bind H. destruct x as [[[n0 ok0] a0] p0].
    injection H as <- <- <-. eauto.
  - intros [p ->]. reflexivity.
Qed.

Lemma next_sound fuel a n ok a' :
  cursor_ok a -> next fuel a = Ret (n, ok, a') ->
  exists probed, next_spec a n ok a' probed.
Proof.
  intros Hc H. apply next_as_probed in H. destruct H as [p H].
  exists p. eapply next_probed_sound; eauto.
Qed.

Lemma next_returns fuel a :
  wf a -> enough fuel a ->
  exists n ok a' probed,
    next fuel a = Ret (n, ok, a') /\ next_spec a n ok a' probed.
Proof.
  intros Hw Hfuel.
  destruct (next_probed_returns fuel a Hw Hfuel) as [[[[n ok] a'] p] E].
  exists n, ok, a', p. split.
  - apply next_as_probed. eauto.
  - eapply next_probed_sound; eauto using wf_cursor_ok.
Qed.

(** ** The invariant along the states of an allocator *)

Lemma next_spec_fields a n ok a' probed :
  cursor_ok a -> next_spec a n ok a' probed ->
  low a' = low a /\ high a' = high a /\ low a <= follow a' <= high a /\
  (ok = true -> low a <= n <= high a).
Proof.
  intros (R1 & Hf & R3) H. destruct H; simpl; unfold succ_wrap;
    repeat split; try reflexivity; try lia;
    match goal with |- context [?x =? ?y] => destruct (Z.eqb_spec x y); lia end.
Qed.

Lemma release_fields a n a' :
  release a n = Ret a' ->
  low a' = low a /\ high a' = high a /\ follow a' = follow a.
Proof. intros H. apply release_ret in H. destruct H as [_ ->]. auto. Qed.

Lemma reachable_cursor_ok lo hi a :
  GoInt.min_int <= lo -> lo <= hi -> hi < GoInt.max_int ->
  reachable lo hi a -> low a = lo /\ high a = hi /\ cursor_ok a.
Proof.
  intros H1 H2 H3 R. induction R as [| a fuel n ok a' R IH N | a n a' R IH Hn N].
  - unfold cursor_ok. simpl. repeat split; auto; lia.
  - destruct IH as (L & H & C). pose proof C as (C1 & C2 & C3).
    destruct (next_sound _ _ _ _ _ C N) as [p S].
    destruct (next_spec_fields _ _ _ _ _ C S) as (L' & H' & F' & _).
    unfold cursor_ok. rewrite L', H'. repeat split; auto; lia.
  - destruct IH as (L & H & C). pose proof C as (C1 & C2 & C3).
    destruct (release_fields _ _ _ N) as (L' & H' & F').
    unfold cursor_ok. rewrite L', H', F'. repeat split; auto; lia.
Qed.

Lemma reachable_wf lo hi a :
  range_ok lo hi -> reachable lo hi a -> low a = lo /\ high a = hi /\ wf a.
Proof.
  intros Hr R. pose proof Hr as (R1 & R2 & R3 & R4).
  destruct (reachable_cursor_ok lo hi a R1 R2 R3 R) as (L & H & (C1 & C2 & C3)).
  repeat split; auto; try lia; rewrite ?L, ?H; auto.
Qed.

Lemma advance_fields a :
  pool (advance a) = pool a /\ low (advance a) = low a /\ high (advance a) = high a /\
  (GoInt.in_int (low a) -> GoInt.in_int (follow (advance a))).
Proof.
  unfold advance. destruct (follow a =? high a); simpl;
    (split; [reflexivity | split; [reflexivity | split; [reflexivity |]]]).
  - auto.
  - intros _. apply wrap_in_int.
Qed.

(** What a call of [next] leaves of the pool, on any range. *)
Lemma next_frame fuel a n ok a' :
  next fuel a = Ret (n, ok, a') ->
  low a' = low a /\ high a' = high a /\
  (GoInt.in_int (low a) -> GoInt.in_int (follow a')) /\
  (ok = false -> n = 0 /\ pool a' = pool a) /\
  (ok = true ->
   reserved a n = Ret false /\ pool a' = Z.setbit (pool a) (idx a n) /\
   (GoInt.in_int (low a) -> GoInt.in_int (follow a) -> GoInt.in_int n)).
Proof.
  intros H. apply next_as_probed in H. destruct H as [probed H].
  unfold next_probed in H.
  inv_bind H. destruct x as [[r1 a1] p1]. rename E into E1.
  pose proof (scan_frame _ _ _ _ _ _ E1) as (L1 & H1 & F1).
  destruct r1 as [n1|].
  - injection H as <- <- <- <-. destruct F1 as (Fr & Fp & Ff & Fi).
    destruct (advance_fields a1) as (Ap & Al & Ah & Ai).
    rewrite Ap, Al, Ah, L1 in *.
    split; [congruence|]. split; [congruence|]. split; [exact Ai|].
    split; [discriminate|]. intros _. auto.
  - inv_bind H. destruct x as [[r2 a3] p2]. rename E into E2.
    pose proof (scan_frame _ _ _ _ _ _ E2) as (L2 & H2 & F2).
    simpl in L2, H2, F2.
    destruct (advance_fields a3) as (Ap & Al & Ah & Ai).
    assert (X : forall m, reserved (set_follow a1 (low a1)) m = reserved a m)
      by (intros m; apply reserved_ext; simpl; congruence).
    destruct r2 as [n2|]; injection H as <- <- <- <-;
      rewrite Ap, Al, Ah, L2, L1 in *.
    + destruct F2 as (Fr & Fp & Ff & Fi).
      split; [congruence|]. split; [congruence|]. split; [exact Ai|].
      split; [discriminate|]. intros _.
      split; [rewrite <- X; exact Fr|].
      split; [rewrite Fp, F1; unfold idx; simpl; congruence|].
      intros Hl _. apply Fi. simpl. exact Hl.
    + split; [congruence|]. split; [congruence|]. split; [exact Ai|].
      split; [intros _; split; congruence | discriminate].
Qed.

Lemma reserved_claim a n :
  reserved a n = Ret false -> reserved (claim a n) n = Ret true.
Proof.
  intros H. apply reserved_ret in H. destruct H as [H _].
  apply reserved_ret. unfold idx in *. simpl. split; [exact H|].
  apply Z.setbit_eq. exact H.
Qed.

(** Concrete ranges. *)
Ltac int_facts :=
  unfold range_ok, cursor_ok, enough, GoInt.in_int in *; simpl;
  pose proof int_bounds as [? ?]; pose proof max_bits_eq; lia.

(** ** A call with the cursor on a free id *)

Lemma scan_at_cursor fuel cond a :
  cond a = true -> reserved a (follow a) = Ret false ->
  idx a (follow a) < big.max_bits ->
  scan (S fuel) cond a =
  Ret (Some (follow a), set_pool a (Z.setbit (pool a) (idx a (follow a))),
       [follow a]).
Proof.
  intros Hc Hfree Hi. cbn [scan]. rewrite Hc, (reserve_claims _ _ Hfree Hi).
  reflexivity.
Qed.

(** With the cursor on a free id whose bit can be set, [next] hands out
    that id. *)
Lemma next_at_cursor fuel a :
  follow a <= high a -> reserved a (follow a) = Ret false ->
  idx a (follow a) < big.max_bits ->
  next (S fuel) a =
  Ret (follow a, true,
       advance (set_pool a (Z.setbit (pool a) (idx a (follow a))))).
Proof.
  intros Hle Hfree Hi. unfold next, next_probed.
  rewrite scan_at_cursor; [reflexivity | apply Z.leb_le, Hle | exact Hfree | exact Hi].
Qed.

(** With the cursor on a free id, [next] returns nothing else. *)
Lemma next_at_cursor_ret fuel a n ok a' :
  follow a <= high a -> reserved a (follow a) = Ret false ->
  next fuel a = Ret (n, ok, a') ->
  n = follow a /\ ok = true /\
  a' = advance (set_pool a (Z.setbit (pool a) (idx a (follow a)))).
Proof.
  intros Hle Hfree N. destruct fuel as [|fuel]; [discriminate|].
  unfold next, next_probed in N. cbn [scan] in N.
  apply Z.leb_le in Hle. rewrite Hle in N.
  destruct (reserve a (follow a)) as [[ok1 a1]| |] eqn:E; try discriminate.
  apply reserve_ret in E. destruct E as [(_ & _ & E) | (-> & -> & _)].
  - congruence.
  - cbn in N. injection N as <- <- <-. auto.
Qed.

(** With the cursor on an id whose bit position is negative, [next]
    panics. *)
Lemma next_panics_at_cursor fuel a :
  follow a <= high a -> idx a (follow a) < 0 ->
  next (S fuel) a = Panic "negative bit index".
Proof.
  intros Hle Hneg. unfold next, next_probed. cbn [scan].
  apply Z.leb_le in Hle. rewrite Hle. unfold reserve.
  rewrite (reserved_panic _ _ Hneg). reflexivity.
Qed.

Lemma setbit_ones k : 0 <= k -> Z.setbit (Z.ones k) k = Z.ones (k + 1).
Proof.
  intros Hk. apply Z.bits_inj'. intros m Hm.
  rewrite Z.setbit_eqb, !Z.testbit_ones_nonneg by lia.
  destruct (Z.eqb_spec k m), (Z.ltb_spec m k), (Z.ltb_spec m (k + 1));
    simpl; auto; lia.
Qed.

(** ** The pool is a natural number *)

Lemma setbit_nonneg x i : 0 <= x -> 0 <= Z.setbit x i.
Proof.
  intros Hx. unfold Z.setbit. apply Z.lor_nonneg. split; [exact Hx|].
  apply Z.shiftl_nonneg. lia.
Qed.

Lemma clearbit_nonneg x i : 0 <= x -> 0 <= Z.clearbit x i.
Proof.
  intros Hx. unfold Z.clearbit. apply Z.ldiff_nonneg. left. exact Hx.
Qed.

Lemma reachable_pool_nonneg lo hi a : reachable lo hi a -> 0 <= pool a.
Proof.
  induction 1 as [| a fuel n ok a' R IH N | a n a' R IH Hn N].
  - simpl. unfold big.NewInt. lia.
  - apply next_frame in N. destruct N as (_ & _ & _ & Hf & Ht).
    destruct ok.
    + destruct (Ht eq_refl) as (_ & -> & _). apply setbit_nonneg, IH.
    + destruct (Hf eq_refl) as [_ ->]. exact IH.
  - apply release_ret in N. destruct N as [_ ->]. simpl.
    apply clearbit_nonneg, IH.
Qed.

(** * The claims *)

(** ** C1 *)

(** C1, at an input on which the code does not do what the claim and the
    comment of [next] say: over [max_int, max_int] the first [next] hands
    out max_int, the one id of the range; the second, with every id of
    the range reserved, steps the cursor past max_int, which wraps to
    min_int, finds that below high, and returns min_int as a success
    instead of reporting exhaustion. *)
Theorem next_full_range_not_exhausted_at_max_int :
  exists a a',
    next 3 (newAllocator GoInt.max_int GoInt.max_int)
    = Ret (GoInt.max_int, true, a) /\
    (forall m, GoInt.max_int <= m <= GoInt.max_int -> reserved a m = Ret true) /\
    next 3 a = Ret (GoInt.min_int, true, a') /\
    ~ GoInt.max_int <= GoInt.min_int <= GoInt.max_int.
Proof.
  eexists. eexists. split; [| split; [| split]].
  - vm_compute. reflexivity.
  - intros m Hm. assert (m = GoInt.max_int) as -> by lia.
    vm_compute. reflexivity.
  - vm_compute. reflexivity.
  - vm_compute. intros [H _]. apply H. reflexivity.
Qed.

(** ** C9 *)

(** C9: when [next] reports exhaustion the id returned is 0 and the pool is
    the pool before the call, so that every query [reserved] answers as
    before; the bounds are untouched and only the cursor may have moved. *)
Theorem next_exhausted_keeps_pool fuel a n a' :
  next fuel a = Ret (n, false, a') ->
  n = 0 /\ pool a' = pool a /\ low a' = low a /\ high a' = high a /\
  forall m, reserved a' m = reserved a m.
Proof.
  intros H. apply next_frame in H. destruct H as (L & Hh & _ & F & _).
  destruct (F eq_refl) as [-> P]. repeat split; auto.
  intros m. apply reserved_ext; auto.
Qed.

Lemma next_exhausted_keeps_pool_witness :
  0 = 0 /\ pool (mkAllocator 3 2 1 2) = pool (mkAllocator 3 1 1 2) /\
  low (mkAllocator 3 2 1 2) = low (mkAllocator 3 1 1 2) /\
  high (mkAllocator 3 2 1 2) = high (mkAllocator 3 1 1 2) /\
  forall m, reserved (mkAllocator 3 2 1 2) m = reserved (mkAllocator 3 1 1 2) m.
Proof.
  apply (next_exhausted_keeps_pool 3 (mkAllocator 3 1 1 2) 0 (mkAllocator 3 2 1 2)).
  vm_compute. reflexivity.
Defined.

(** ** C10 *)

(** C10, at an input on which the code does not do what the claim and the
    comment of [next] say: over [max_int, max_int] the first [next] leaves
    the cursor at max_int; the second steps it past max_int, which wraps
    to min_int, returns min_int and leaves the cursor at min_int + 1, both
    outside the range. *)
Theorem cursor_leaves_range_at_max_int :
  exists a n a',
    next 3 (newAllocator GoInt.max_int GoInt.max_int)
    = Ret (GoInt.max_int, true, a) /\
    follow a = GoInt.max_int /\
    next 3 a = Ret (n, true, a') /\
    n = GoInt.min_int /\ follow a' = GoInt.min_int + 1 /\
    ~ GoInt.max_int <= n <= GoInt.max_int /\
    ~ GoInt.max_int <= follow a' <= GoInt.max_int.
Proof.
  eexists. eexists. eexists.
  split; [vm_compute; reflexivity|].
  split; [reflexivity|].
  split; [vm_compute; reflexivity|].
  split; [reflexivity|]. split; [reflexivity|].
  split; vm_compute; intros [H _]; apply H; reflexivity.
Qed.

(** ** C5 *)

(** C5: over the range [1, 1] the first [next] returns 1; from then on,
    in every state where 1 is still reserved, [next] reports exhaustion and
    leaves the state as it is; and in every state, after [release 1], the
    following [next] returns 1 again. *)
Theorem single_id_range :
  (exists a1, forall fuel, enough fuel (newAllocator 1 1) ->
     next fuel (newAllocator 1 1) = Ret (1, true, a1) /\
     next fuel a1 = Ret (0, false, a1)) /\
  (forall fuel a, enough fuel a -> reachable 1 1 a -> reserved a 1 = Ret true ->
     next fuel a = Ret (0, false, a)) /\
  (forall fuel a, enough fuel a -> reachable 1 1 a ->
     exists a2 a3, release a 1 = Ret a2 /\ next fuel a2 = Ret (1, true, a3)).
Proof.
  assert (R11 : range_ok 1 1) by int_facts.
  assert (full : forall fuel a, enough fuel a -> reachable 1 1 a ->
            reserved a 1 = Ret true -> next fuel a = Ret (0, false, a)).
  { intros fuel a Hfuel R Hres.
    destruct (reachable_wf _ _ _ R11 R) as (L & H & W).
    destruct (next_returns fuel a W Hfuel) as (n & ok & a' & p & E & S).
    destruct W as [_ Hf].
    destruct S as [n Hn Hfree _ | n Hn _ _ _ | _].
    - assert (n = 1) as -> by lia. congruence.
    - lia.
    - rewrite E. do 2 f_equal. apply allocator_eq; simpl; auto.
      unfold succ_wrap. destruct (Z.eqb_spec (follow a) (high a)); lia. }
  split; [| split].
  - exists (mkAllocator 1 1 1 1). intros fuel Hfuel.
    assert (N : next fuel (newAllocator 1 1) = Ret (1, true, mkAllocator 1 1 1 1)).
    { unfold enough in Hfuel. simpl in Hfuel.
      destruct fuel as [|fuel]; [lia|]. reflexivity. }
    split; [exact N|]. apply full.
    + exact Hfuel.
    + eapply reach_next; [apply reach_new | exact N].
    + reflexivity.
  - exact full.
  - intros fuel a Hfuel R.
    destruct (reachable_wf _ _ _ R11 R) as (L & H & W).
    assert (I : idx a 1 = 0) by (rewrite idx_in_range; destruct W; auto; lia).
    exists (set_pool a (Z.clearbit (pool a) (idx a 1))).
    assert (Rel : release a 1 = Ret (set_pool a (Z.clearbit (pool a) (idx a 1))))
      by (apply release_total; [exact (reachable_pool_nonneg _ _ _ R) | lia]).
    set (a2 := set_pool a (Z.clearbit (pool a) (idx a 1))) in *.
    assert (R2 : reachable 1 1 a2)
      by (apply (reach_release 1 1 a 1 a2 R); [int_facts | exact Rel]).
    destruct (reachable_wf _ _ _ R11 R2) as (L2 & H2 & W2).
    destruct (next_returns fuel a2 W2 Hfuel) as (n & ok & a' & p & E & S).
    assert (F : reserved a2 1 = Ret false).
    { apply reserved_ret. unfold idx in *. simpl. rewrite I. split; [lia|].
      rewrite Z.clearbit_eq; auto. }
    destruct W2 as [_ Hf].
    destruct S as [n Hn _ _ | n Hn _ _ _ | Hall].
    + assert (n = 1) as -> by lia. eauto.
    + lia.
    + specialize (Hall 1 ltac:(lia)). congruence.
Qed.

(** ** C6 *)

(** C6, the claim as stated fails below low: the bit position n - low is
    negative there and [SetBit] panics on a negative bit index.  The id 0
    is one below the range [1, 10]. *)
Lemma release_below_low_panics :
  release (newAllocator 1 10) 0 = Panic "negative bit index".
Proof. reflexivity. Qed.

(** C6 (amended to the integers whose bit position is not negative): in
    every state of an allocator, its pool a natural number, [release n]
    returns exactly when the bit position [n - low], computed in Go's int,
    is at least 0, and panics on the negative bit index otherwise.  So it
    returns for every n >= low whose difference from low fits an int, and
    panics for every n < low at most 2^63 below low (further below, the
    difference wraps to a position that is not negative).  Releasing an id
    that is not reserved leaves the allocator as it is. *)
Theorem release_total_from_low a n :
  0 <= pool a -> GoInt.in_int (low a) -> GoInt.in_int n ->
  (0 <= idx a n <-> returns (release a n)) /\
  (idx a n < 0 <-> release a n = Panic "negative bit index") /\
  (low a <= n -> n - low a <= GoInt.max_int -> returns (release a n)) /\
  (n < low a -> low a - n <= GoInt.max_int + 1 ->
   release a n = Panic "negative bit index") /\
  (reserved a n = Ret false -> release a n = Ret a).
Proof.
  intros Hp Hl Hn. pose proof int_bounds as [Emin Emax].
  unfold GoInt.in_int in Hl, Hn.
  split; [| split; [| split; [| split]]].
  - split.
    + intros H. rewrite (release_total _ _ Hp H). eexists. reflexivity.
    + intros [a' H]. apply release_ret in H. tauto.
  - split.
    + apply release_panic.
    + intros H. destruct (Z.lt_ge_cases (idx a n) 0) as [L | L]; [exact L|].
      rewrite (release_total _ _ Hp L) in H. discriminate.
  - intros H1 H2. rewrite release_total; [eexists; reflexivity | exact Hp |].
    unfold idx. rewrite sub_small; [lia|]. unfold GoInt.in_int. lia.
  - intros H1 H2. apply release_panic.
    unfold idx. rewrite sub_small; [lia|]. unfold GoInt.in_int. lia.
  - intros H. apply reserved_ret in H. destruct H as [H0 Hb].
    rewrite (release_total _ _ Hp H0). f_equal.
    apply allocator_eq; simpl; auto. apply clearbit_unset, Hb.
Qed.

Lemma release_total_from_low_witness :
  (0 <= idx (mkAllocator 5 3 1 16) 2 <-> returns (release (mkAllocator 5 3 1 16) 2)) /\
  (idx (mkAllocator 5 3 1 16) 2 < 0 <->
   release (mkAllocator 5 3 1 16) 2 = Panic "negative bit index") /\
  (low (mkAllocator 5 3 1 16) <= 2 ->
   2 - low (mkAllocator 5 3 1 16) <= GoInt.max_int ->
   returns (release (mkAllocator 5 3 1 16) 2)) /\
  (2 < low (mkAllocator 5 3 1 16) ->
   low (mkAllocator 5 3 1 16) - 2 <= GoInt.max_int + 1 ->
   release (mkAllocator 5 3 1 16) 2 = Panic "negative bit index") /\
  (reserved (mkAllocator 5 3 1 16) 2 = Ret false ->
   release (mkAllocator 5 3 1 16) 2 = Ret (mkAllocator 5 3 1 16)).
Proof.
  apply (release_total_from_low (mkAllocator 5 3 1 16) 2).
  - simpl. lia.
  - int_facts.
  - int_facts.
Defined.

(** ** C3 *)

Lemma next_spec_wf a n ok a' probed :
  wf a -> next_spec a n ok a' probed -> wf a'.
Proof.
  intros W S.
  destruct (next_spec_fields _ _ _ _ _ (wf_cursor_ok _ W) S) as (L & H & F & _).
  destruct W as [Hr Hf]. split; rewrite L, H; auto.
Qed.

Lemma reserved_claim_other a m n :
  range_ok (low a) (high a) -> low a <= m <= high a -> low a <= n <= high a ->
  m <> n -> reserved (claim a m) n = reserved a n.
Proof.
  intros Hr Hm Hn Hne.
  pose proof (idx_in_range a m Hr Hm) as Im.
  pose proof (idx_in_range a n Hr Hn) as In.
  rewrite (reserved_total a n) by lia.
  assert (Ic : idx (claim a m) n = idx a n) by reflexivity.
  rewrite reserved_total by (rewrite Ic; lia).
  rewrite Ic. f_equal.
  change (pool (claim a m)) with (Z.setbit (pool a) (idx a m)).
  apply Z.setbit_neq; lia.
Qed.

(** A free id of the range comes up again, after at most as many calls as
    it lies ahead of the cursor. *)
Lemma reissue fuel n : forall k a,
  wf a -> enough fuel a -> low a <= n <= high a ->
  reserved a n = Ret false -> ahead a n < Z.of_nat k ->
  reissued fuel n a.
Proof.
  induction k as [|k IH]; intros a W Hfuel Hn Hfree Hk.
  - pose proof W as [(R1 & R2 & R3 & R4) Hf].
    unfold ahead in Hk. destruct (Z.leb_spec (follow a) n); lia.
  - destruct (next_returns fuel a W Hfuel) as (m & ok & a' & p & E & S).
    pose proof (next_spec_wf _ _ _ _ _ W S) as W'.
    pose proof W as [Hr Hf]. pose proof Hr as (R1 & R2 & R3 & R4).
    assert (Step : forall m, low a <= m <= high a -> m <> n ->
              ahead (claim a m) n < ahead a n ->
              next fuel a = Ret (m, true, claim a m) -> wf (claim a m) ->
              reissued fuel n a).
    { intros m0 Hm0 Hne Hlt E0 W0.
      apply (reissued_later fuel n a m0 (claim a m0) E0 Hne).
      apply IH;
        [exact W0 | exact Hfuel | exact Hn
        | rewrite reserved_claim_other; auto | lia]. }
    destruct S as [m Hm Hmfree Hbefore | m Hm Hmfree Hafter Hbefore | Hall].
    + destruct (Z.eq_dec m n) as [-> | Hne]; [eapply reissued_now; eauto|].
      apply (Step m); auto; [lia|].
      assert (~ follow a <= n < m)
        by (intros Hin; specialize (Hbefore n Hin); congruence).
      unfold ahead, claim, succ_wrap. simpl.
      destruct (Z.eqb_spec m (high a));
        destruct (Z.leb_spec (follow a) n);
        match goal with |- context [?x <=? ?y] => destruct (Z.leb_spec x y) end;
        lia.
    + destruct (Z.eq_dec m n) as [-> | Hne]; [eapply reissued_now; eauto|].
      apply (Step m); auto; [lia|].
      assert (~ follow a <= n <= high a)
        by (intros Hin; specialize (Hafter n Hin); congruence).
      assert (~ low a <= n < m)
        by (intros Hin; specialize (Hbefore n Hin); congruence).
      unfold ahead, claim, succ_wrap. simpl.
      destruct (Z.eqb_spec m (high a));
        destruct (Z.leb_spec (follow a) n);
        match goal with |- context [?x <=? ?y] => destruct (Z.leb_spec x y) end;
        lia.
    + specialize (Hall n Hn). congruence.
Qed.

Lemma idx_astray a p :
  low a = GoInt.max_int - 1 -> GoInt.min_int <= p <= -3 ->
  idx a p = p + 9223372036854775810.
Proof.
  intros L Hp. unfold idx, GoInt.sub. rewrite L.
  pose proof int_bounds as [Emin Emax]. rewrite wrap_under.
  - change (2 ^ GoInt.size) with 18446744073709551616. lia.
  - change (2 ^ GoInt.size) with 18446744073709551616.
    unfold GoInt.in_int. lia.
Qed.

(** From there [next] hands out negative ints one after the other, as
    long as it returns. *)
Lemma astray_next fuel a n ok a' :
  astray a -> next fuel a = Ret (n, ok, a') -> n <= -3 /\ astray a'.
Proof.
  intros (L & H & Hf & Hclear) N. pose proof int_bounds as [Emin Emax].
  destruct fuel as [|fuel]; [discriminate|].
  destruct (Z.eq_dec (follow a) (-2)) as [e | ne].
  - rewrite next_panics_at_cursor in N; [discriminate | lia |].
    rewrite e. unfold idx. rewrite L.
    replace (GoInt.sub (-2) (GoInt.max_int - 1)) with GoInt.min_int by reflexivity.
    lia.
  - pose proof (idx_astray a (follow a) L ltac:(lia)) as I.
    assert (F : reserved a (follow a) = Ret false).
    { apply reserved_ret. rewrite I. split; [lia | apply Hclear; lia]. }
    apply (next_at_cursor_ret _ a _ _ _ ltac:(lia) F) in N.
    destruct N as (-> & -> & ->). split; [lia|].
    unfold advance. cbn [follow high set_pool]. rewrite H.
    destruct (Z.eqb_spec (follow a) GoInt.max_int) as [e | _]; [lia|].
    unfold astray, set_follow. cbn [pool follow low high].
    rewrite add_small by (unfold GoInt.in_int; lia).
    split; [exact L|]. split; [exact H|]. split; [lia|].
    intros i Hi. unfold set_pool. cbn [pool].
    rewrite I, Z.setbit_neq by lia. apply Hclear. lia.
Qed.

Lemma astray_never_reissues fuel a :
  reissued fuel (GoInt.max_int - 1) a -> astray a -> False.
Proof.
  pose proof int_bounds as [Emin Emax].
  induction 1 as [a a' N | a m a' N Hne R IH]; intros A.
  - apply (astray_next _ _ _ _ _ A) in N. lia.
  - apply (astray_next _ _ _ _ _ A) in N. tauto.
Qed.

(** C3, at inputs on which the code does not do what the claim and the
    comment of [release] say.  Where n - low overflows: over [min_int, 0]
    the bit position of 0 is 2^63, which wraps to min_int, and [release 0]
    on the fresh allocator panics on the negative bit index.  Where high
    is the largest int: over [max_int - 1, max_int] with max_int reserved
    and the cursor on it, [release (max_int - 1)] frees the id, but [next]
    then steps from max_int to min_int and hands out negative ints for as
    long as it returns, never max_int - 1 again. *)
Theorem release_in_range_panics_on_wide_range :
  (reachable GoInt.min_int 0 (newAllocator GoInt.min_int 0) /\
   GoInt.min_int <= 0 <= 0 /\
   release (newAllocator GoInt.min_int 0) 0 = Panic "negative bit index") /\
  (exists a,
     reachable (GoInt.max_int - 1) GoInt.max_int a /\
     release a (GoInt.max_int - 1) = Ret top_taken /\
     reserved top_taken (GoInt.max_int - 1) = Ret false /\
     ~ exists fuel, reissued fuel (GoInt.max_int - 1) top_taken).
Proof.
  split.
  - split; [apply reach_new | split; [int_facts | reflexivity]].
  - eexists. split; [| split; [| split]].
    + eapply reach_next with (fuel := 4%nat);
        [ eapply reach_release with (n := GoInt.max_int - 1);
          [ eapply reach_next with (fuel := 4%nat);
            [ eapply reach_next with (fuel := 4%nat);
              [ apply reach_new | vm_compute; reflexivity ]
            | vm_compute; reflexivity ]
          | int_facts | vm_compute; reflexivity ]
        | vm_compute; reflexivity ].
    + vm_compute. reflexivity.
    + vm_compute. reflexivity.
    + intros [fuel R].
      assert (A : forall m a', next fuel top_taken = Ret (m, true, a') ->
                    m <> GoInt.max_int - 1 /\ astray a').
      { intros m a' N. destruct fuel as [|[|fuel]]; [discriminate | discriminate |].
        assert (E : next (S (S fuel)) top_taken
                    = Ret (GoInt.min_int, true,
                           mkAllocator 6 (GoInt.min_int + 1)
                             (GoInt.max_int - 1) GoInt.max_int))
          by (vm_compute; reflexivity).
        rewrite E in N. injection N as <- <-.
        split; [vm_compute; discriminate|].
        unfold astray. cbn [pool follow low high].
        pose proof int_bounds as [Emin Emax].
        split; [reflexivity|]. split; [reflexivity|]. split; [lia|].
        intros i Hi. apply Z.bits_above_log2; [lia|].
        change (Z.log2 6) with 2. lia. }
      inversion R as [a0 a' N | a0 m a' N Hne R']; subst.
      * apply A in N. tauto.
      * apply A in N. destruct N as [_ N].
        exact (astray_never_reissues _ _ R' N).
Qed.

(** ** C4 *)

Lemma span_app from mid to :
  from <= mid + 1 -> mid <= to ->
  span from mid ++ span (mid + 1) to = span from to.
Proof.
  intros H1 H2. remember (Z.to_nat (mid + 1 - from)) as k eqn:Ek.
  revert from H1 Ek. induction k as [|k IH]; intros from H1 Ek.
  - replace from with (mid + 1) by lia. rewrite span_nil by lia. reflexivity.
  - rewrite (span_cons from mid) by lia. rewrite (span_cons from to) by lia.
    simpl. f_equal. apply IH; lia.
Qed.

Lemma last_app {A : Type} (l l' : list A) d :
  l' <> [] -> last (l ++ l') d = last l' d.
Proof.
  intros H. induction l as [|x l IH]; [reflexivity|].
  simpl. rewrite IH. destruct (l ++ l') eqn:E; [|reflexivity].
  apply app_eq_nil in E. destruct E as [_ E]. contradiction.
Qed.

(** C4, the claim as stated fails in what it says of the cursor after a
    call that finds nothing: over [1, 2] with both ids reserved and the
    cursor at 1, [next] examines 1, then 2, reports exhaustion and leaves
    the cursor at 2, on the position examined last and not past it (past
    it, wrapping, is 1).  The deferred step moves the cursor one on from
    where the second loop left it, which is where the call started. *)
Lemma cursor_not_past_last_examined :
  exists a a' probed,
    reachable 1 2 a /\
    next_probed 4 a = Ret (0, false, a', probed) /\
    probed = [1; 2] /\ last probed 0 = 2 /\ follow a' = 2 /\ succ_wrap a 2 = 1.
Proof.
  exists (mkAllocator 3 1 1 2), (mkAllocator 3 2 1 2), [1; 2].
  split; [| split; [| split; [| split; [| split]]]]; try reflexivity.
  apply (reach_next 1 2 (mkAllocator 1 2 1 2) 4 2 true); [| reflexivity].
  apply (reach_next 1 2 (newAllocator 1 2) 4 1 true); [| reflexivity].
  apply reach_new.
Qed.

(** C4 (amended in what it says of the cursor; ranges that reach the
    largest int or that a pool cannot hold are left out): over a range
    [lo, hi] with min_int <= lo <= hi < max_int and hi - lo below
    [big.max_bits], in every reachable state and given fuel for the range,
    [next] returns, having examined the positions from the cursor up to hi
    and then from lo up to the cursor, stopping at the first free one.  It
    returns the smallest free n with follow <= n <= hi when there is one,
    and otherwise the smallest free n with lo <= n < follow when there is
    one.  After a call that returns an id, the id is the position examined
    last and the cursor is the position after it, lo after hi; after a call
    that reports exhaustion the cursor is the position after the one it
    started from, lo after hi. *)
Theorem next_scans_from_cursor lo hi a fuel :
  range_ok lo hi -> reachable lo hi a -> enough fuel a ->
  exists n ok a' probed,
    next fuel a = Ret (n, ok, a') /\
    next_probed fuel a = Ret (n, ok, a', probed) /\
    (exists rest, probed ++ rest = span (follow a) hi ++ span lo (follow a - 1)) /\
    ((exists m, follow a <= m <= hi /\ reserved a m = Ret false) ->
     ok = true /\ follow a <= n <= hi /\ reserved a n = Ret false /\
     forall m, follow a <= m < n -> reserved a m = Ret true) /\
    ((forall m, follow a <= m <= hi -> reserved a m = Ret true) ->
     (exists m, lo <= m < follow a /\ reserved a m = Ret false) ->
     ok = true /\ lo <= n < follow a /\ reserved a n = Ret false /\
     forall m, lo <= m < n -> reserved a m = Ret true) /\
    (ok = true -> last probed 0 = n /\ follow a' = succ_wrap a n) /\
    (ok = false -> follow a' = succ_wrap a (follow a)).
Proof.
  intros Hr R Hfuel.
  destruct (reachable_wf _ _ _ Hr R) as (<- & <- & W).
  destruct (next_probed_returns fuel a W Hfuel) as [[[[n ok] a'] p] E].
  pose proof (next_probed_sound _ _ _ _ _ _ (wf_cursor_ok _ W) E) as S.
  exists n, ok, a', p.
  split; [apply next_as_probed; eauto|]. split; [exact E|].
  destruct W as [_ Hf].
  destruct S as [n Hn Hfree Hbefore | n Hn Hfree Hafter Hbefore | Hall].
  - split; [| split; [| split; [| split]]].
    + exists (span (n + 1) (high a) ++ span (low a) (follow a - 1)).
      rewrite app_assoc, span_app by lia. reflexivity.
    + intros _. auto.
    + intros Hall _. specialize (Hall n Hn). congruence.
    + intros _. split; [apply span_last; lia | reflexivity].
    + discriminate.
  - split; [| split; [| split; [| split]]].
    + exists (span (n + 1) (follow a - 1)).
      rewrite <- app_assoc, span_app by lia. reflexivity.
    + intros (m & Hm & Hmfree). specialize (Hafter m Hm). congruence.
    + intros _ _. auto.
    + intros _. split; [| reflexivity].
      rewrite last_app; [apply span_last; lia|].
      rewrite span_cons by lia. discriminate.
    + discriminate.
  - split; [| split; [| split; [| split]]].
    + exists []. apply app_nil_r.
    + intros (m & Hm & Hmfree). specialize (Hall m ltac:(lia)). congruence.
    + intros _ (m & Hm & Hmfree). specialize (Hall m ltac:(lia)). congruence.
    + discriminate.
    + reflexivity.
Qed.

Lemma next_scans_from_cursor_witness :
  exists n ok a' probed,
    next 4 (mkAllocator 5 3 1 3) = Ret (n, ok, a') /\
    next_probed 4 (mkAllocator 5 3 1 3) = Ret (n, ok, a', probed) /\
    (exists rest,
       probed ++ rest = span (follow (mkAllocator 5 3 1 3)) 3 ++
                        span 1 (follow (mkAllocator 5 3 1 3) - 1)) /\
    ((exists m, follow (mkAllocator 5 3 1 3) <= m <= 3 /\
                reserved (mkAllocator 5 3 1 3) m = Ret false) ->
     ok = true /\ follow (mkAllocator 5 3 1 3) <= n <= 3 /\
     reserved (mkAllocator 5 3 1 3) n = Ret false /\
     forall m, follow (mkAllocator 5 3 1 3) <= m < n ->
               reserved (mkAllocator 5 3 1 3) m = Ret true) /\
    ((forall m, follow (mkAllocator 5 3 1 3) <= m <= 3 ->
                reserved (mkAllocator 5 3 1 3) m = Ret true) ->
     (exists m, 1 <= m < follow (mkAllocator 5 3 1 3) /\
                reserved (mkAllocator 5 3 1 3) m = Ret false) ->
     ok = true /\ 1 <= n < follow (mkAllocator 5 3 1 3) /\
     reserved (mkAllocator 5 3 1 3) n = Ret false /\
     forall m, 1 <= m < n -> reserved (mkAllocator 5 3 1 3) m = Ret true) /\
    (ok = true ->
     last probed 0 = n /\ follow a' = succ_wrap (mkAllocator 5 3 1 3) n) /\
    (ok = false ->
     follow a' = succ_wrap (mkAllocator 5 3 1 3) (follow (mkAllocator 5 3 1 3))).
Proof.
  apply (next_scans_from_cursor 1 3 (mkAllocator 5 3 1 3) 4).
  - int_facts.
  - (* next, next, next, release 2, next, release 2 *)
    apply (reach_release 1 3 (mkAllocator 7 3 1 3) 2); [| int_facts | reflexivity].
    apply (reach_next 1 3 (mkAllocator 5 1 1 3) 4 2 true); [| reflexivity].
    apply (reach_release 1 3 (mkAllocator 7 1 1 3) 2); [| int_facts | reflexivity].
    apply (reach_next 1 3 (mkAllocator 3 3 1 3) 4 3 true); [| reflexivity].
    apply (reach_next 1 3 (mkAllocator 1 2 1 3) 4 2 true); [| reflexivity].
    apply (reach_next 1 3 (newAllocator 1 3) 4 1 true); [| reflexivity].
    apply reach_new.
  - int_facts.
Defined.

(** ** C2 *)

Lemma NoDup_remove_elt (x : Z) l : NoDup l -> NoDup (remove Z.eq_dec x l).
Proof.
  induction 1 as [|y l Hy Hl IH]; simpl; [constructor|].
  destruct (Z.eq_dec x y); [exact IH|].
  constructor; [|exact IH]. intros Hin. apply in_remove in Hin. tauto.
Qed.

Lemma in_remove_iff (x y : Z) l :
  In x (remove Z.eq_dec y l) <-> In x l /\ x <> y.
Proof.
  split; [apply in_remove|]. intros [H1 H2]. apply in_in_remove; auto.
Qed.

Lemma next_keeps_live fuel a live n ok a' :
  live_inv a live -> next fuel a = Ret (n, ok, a') ->
  live_inv a' (if ok then n :: live else live) /\
  (ok = true -> reserved a n = Ret false /\ ~ In n live).
Proof.
  intros (Il & If & Nd & Iff) N.
  apply next_frame in N. destruct N as (L & H & F' & Ffalse & Ftrue).
  destruct ok.
  - destruct (Ftrue eq_refl) as (Hfree & P & Hn). specialize (Hn Il If).
    assert (Hnot : ~ In n live).
    { intros Hin. apply Iff in Hin; [congruence | exact Hn]. }
    split; [| auto].
    unfold live_inv. rewrite L.
    split; [exact Il|]. split; [auto|]. split; [constructor; auto|].
    intros m Hm. rewrite reserved_ret. unfold idx at 1 2. rewrite L, P.
    fold (idx a m). apply reserved_ret in Hfree. destruct Hfree as [H0 _].
    rewrite Z.setbit_eqb by exact H0. simpl. rewrite (Iff m Hm), reserved_ret.
    destruct (Z.eqb_spec (idx a n) (idx a m)) as [e | ne]; simpl.
    + apply sub_inj in e; auto. subst m. split; [intros _; split; auto | auto].
    + split.
      * intros [-> | ?]; [contradiction | assumption].
      * auto.
  - destruct (Ffalse eq_refl) as [_ P]. split; [| discriminate].
    unfold live_inv. rewrite L.
    split; [exact Il|]. split; [auto|]. split; [exact Nd|].
    intros m Hm. rewrite (Iff m Hm). rewrite (reserved_ext a' a); auto. tauto.
Qed.

Lemma release_keeps_live a live n a' :
  live_inv a live -> GoInt.in_int n -> release a n = Ret a' ->
  live_inv a' (remove Z.eq_dec n live).
Proof.
  intros (Il & If & Nd & Iff) Hn R.
  apply release_ret in R. destruct R as [H0 ->].
  unfold live_inv. simpl.
  split; [exact Il|]. split; [exact If|]. split; [apply NoDup_remove_elt, Nd|].
  intros m Hm. rewrite in_remove_iff, (Iff m Hm), !reserved_ret.
  change (idx (set_pool a (Z.clearbit (pool a) (idx a n))) m) with (idx a m).
  simpl. rewrite Z.clearbit_eqb.
  destruct (Z.eqb_spec (idx a n) (idx a m)) as [e | ne]; simpl.
  - apply sub_inj in e; auto. subst m. rewrite andb_false_r.
    split; [tauto | intros [_ ?]; discriminate].
  - rewrite andb_true_r. split; [tauto|]. intros H. split; [exact H|].
    intros ->. contradiction.
Qed.

Lemma run_keeps_live fuel ops : forall a live a' live',
  Forall op_int ops -> live_inv a live ->
  run fuel ops a live = Ret (a', live') -> live_inv a' live'.
Proof.
  induction ops as [|o ops IH]; intros a live a' live' Hops I R; simpl in R.
  - injection R as <- <-. exact I.
  - inversion Hops as [|? ? Ho Hops']; subst. destruct o as [|n].
    + inv_bind R. destruct x as [[n ok] a1].
      apply (IH _ _ _ _ Hops') in R; [exact R|].
      apply (next_keeps_live _ _ _ _ _ _ I E).
    + inv_bind R. apply (IH _ _ _ _ Hops') in R; [exact R|].
      apply (release_keeps_live _ _ _ _ I Ho E).
Qed.

(** C2: after any sequence of [next] and [release] calls on a fresh
    allocator -- on any range, the arguments being Go ints -- the ids
    returned by successful calls of [next] and not released since are
    pairwise distinct, the bit of an int is set if and only if the int is
    one of them, and [next] only returns an int whose bit was not set and
    which is not one of them. *)
Theorem live_ids_distinct lo hi fuel ops a live :
  GoInt.in_int lo -> Forall op_int ops ->
  run fuel ops (newAllocator lo hi) [] = Ret (a, live) ->
  NoDup live /\
  (forall n, GoInt.in_int n -> (In n live <-> reserved a n = Ret true)) /\
  (forall fuel' n a', next fuel' a = Ret (n, true, a') ->
     reserved a n = Ret false /\ ~ In n live).
Proof.
  intros Hlo Hops R.
  assert (I0 : live_inv (newAllocator lo hi) []).
  { unfold live_inv. simpl. split; [exact Hlo|]. split; [exact Hlo|].
    split; [constructor|]. intros n Hn. rewrite reserved_ret. simpl.
    rewrite Z.testbit_0_l. split; [contradiction | intros [_ ?]; discriminate]. }
  pose proof (run_keeps_live _ _ _ _ _ _ Hops I0 R) as I.
  pose proof I as (_ & _ & Nd & Iff).
  split; [exact Nd|]. split; [exact Iff|].
  intros fuel' n a' N.
  apply (next_keeps_live _ _ _ _ _ _ I N). reflexivity.
Qed.

Lemma live_ids_distinct_witness :
  NoDup [5; 4; 3] /\
  (forall n, GoInt.in_int n ->
     (In n [5; 4; 3] <-> reserved (mkAllocator 28 1 1 5) n = Ret true)) /\
  (forall fuel' n a', next fuel' (mkAllocator 28 1 1 5) = Ret (n, true, a') ->
     reserved (mkAllocator 28 1 1 5) n = Ret false /\ ~ In n [5; 4; 3]).
Proof.
  apply (live_ids_distinct 1 5 6
           [Next; Next; Next; Release 1; Release 2; Release 9; Next; Next]).
  - int_facts.
  - repeat constructor; int_facts.
  - vm_compute. reflexivity.
Defined.

(** ** C7 *)

Lemma append_assoc (s1 s2 s3 : string) :
  ((s1 ++ s2) ++ s3 = s1 ++ (s2 ++ s3))%string.
Proof. induction s1 as [|c s1 IH]; simpl; [reflexivity | rewrite IH; reflexivity]. Qed.

Lemma append_empty (s : string) : (s ++ "")%string = s.
Proof. induction s as [|c s IH]; simpl; [reflexivity | rewrite IH; reflexivity]. Qed.

(** The inner loop stops at the first position that is free or past
    [high]. *)
Lemma run_end_spec a : string_ok a -> forall fuel p,
  low a <= p <= high a + 1 -> high a - p + 2 <= Z.of_nat fuel ->
  exists q,
    run_end fuel a p = Ret q /\ p <= q <= high a + 1 /\
    (forall m, p <= m < q -> reserved a m = Ret true) /\
    (q <= high a -> reserved a q = Ret false).
Proof.
  intros (S1 & S2 & S3). induction fuel as [|fuel IH]; intros p Hp Hfuel; [lia|].
  simpl.
  assert (I : idx a p = p - low a) by (apply sub_small; int_facts).
  rewrite (reserved_total a p) by lia.
  destruct (Z.testbit (pool a) (idx a p)) eqn:B; simpl.
  - destruct (Z.leb_spec p (high a)) as [Hle | Hgt].
    + assert (Hadd : GoInt.add p 1 = p + 1) by (apply add_small; int_facts).
      rewrite Hadd.
      destruct (IH (p + 1) ltac:(lia) ltac:(lia)) as (q & E & Hq & Hall & Hstop).
      exists q. split; [exact E|]. split; [lia|]. split; [| exact Hstop].
      intros m Hm. destruct (Z.eq_dec m p) as [-> | Hne].
      * apply reserved_ret. split; [lia | exact B].
      * apply Hall. lia.
    + exists p. split; [reflexivity|]. split; [lia|]. split; intros; lia.
  - exists p. split; [reflexivity|]. split; [lia|]. split; [intros; lia|].
    intros _. apply reserved_ret. split; [lia | exact B].
Qed.

Lemma String_loop_S fuel a p b :
  String_loop (S fuel) a p b =
  if p <=? high a then
    hi <- run_end (S fuel) a p ;;
    String_loop fuel a (GoInt.add hi 1)
      (if hi >? GoInt.add p 1
       then (b ++ " " ++ dec p ++ ".." ++ dec (GoInt.sub hi 1))%string
       else if hi >? p
       then (b ++ " " ++ dec (GoInt.sub hi 1))%string
       else b)
  else Ret b.
Proof. reflexivity. Qed.

(** The run p..q-1 found by the inner loop is maximal, and no other
    maximal run begins at or after p and before q + 1. *)
Lemma runs_cons a p q runs :
  low a <= p -> p < q <= high a + 1 ->
  (p = low a \/ reserved a (p - 1) = Ret false) ->
  (forall m, p <= m < q -> reserved a m = Ret true) ->
  (q <= high a -> reserved a q = Ret false) ->
  increasing runs ->
  (forall r, In r runs <-> maximal_run a r /\ q + 1 <= fst r) ->
  increasing ((p, q - 1) :: runs) /\
  forall r, In r ((p, q - 1) :: runs) <-> maximal_run a r /\ p <= fst r.
Proof.
  intros Hp Hq Hleft Hall Hstop Hinc Hiff.
  assert (M : maximal_run a (p, q - 1)).
  { unfold maximal_run. simpl. repeat split; try lia.
    - intros m Hm. apply Hall. lia.
    - exact Hleft.
    - destruct (Z.eq_dec (q - 1) (high a)) as [e | ne]; [left; exact e|].
      right. replace (q - 1 + 1) with q by lia. apply Hstop. lia. }
  split.
  - constructor; [exact Hinc|]. destruct runs as [|r' rest]; constructor.
    simpl. assert (Hin : In r' (r' :: rest)) by (left; reflexivity).
    apply Hiff in Hin. lia.
  - intros [x y]. simpl. split.
    + intros [e | Hin].
      * injection e as <- <-. split; [exact M | simpl; lia].
      * apply Hiff in Hin. simpl in Hin. split; [tauto | lia].
    + intros [Mr Hx]. destruct (Z.le_gt_cases (q + 1) x) as [Hfar | Hnear].
      * right. apply Hiff. simpl. auto.
      * left. destruct Mr as (M1 & M2 & M3 & M4 & M5 & M6). simpl in *.
        assert (x <> q).
        { intros ->. specialize (M4 q ltac:(lia)).
          specialize (Hstop ltac:(lia)). congruence. }
        assert (x = p).
        { destruct (Z.eq_dec x p) as [e | ne]; [exact e|].
          destruct M5 as [M5 | M5]; [lia|].
          specialize (Hall (x - 1) ltac:(lia)). congruence. }
        subst x.
        assert (y < q).
        { destruct (Z.lt_ge_cases y q) as [l | g]; [exact l|].
          specialize (M4 q ltac:(lia)). specialize (Hstop ltac:(lia)).
          congruence. }
        assert (y = q - 1).
        { destruct (Z.eq_dec y (q - 1)) as [e | ne]; [exact e|].
          destruct M6 as [M6 | M6]; [lia|].
          specialize (Hall (y + 1) ltac:(lia)). congruence. }
        subst y. reflexivity.
Qed.

(** No maximal run begins at a free position. *)
Lemma runs_skip a p runs :
  reserved a p = Ret false ->
  (forall r, In r runs <-> maximal_run a r /\ p + 1 <= fst r) ->
  forall r, In r runs <-> maximal_run a r /\ p <= fst r.
Proof.
  intros Hfree Hiff r. rewrite Hiff. split; intros [M Hx]; (split; [exact M|]).
  - lia.
  - destruct (Z.eq_dec (fst r) p) as [e | ne]; [| lia].
    destruct M as (_ & M2 & _ & M4 & _). specialize (M4 p ltac:(lia)).
    congruence.
Qed.

(** The outer loop, from position p on: it appends the maximal runs that
    begin at p or later, in increasing order. *)
Lemma String_loop_spec a : string_ok a -> forall fuel p b,
  low a <= p <= high a + 2 -> high a - p + 3 <= Z.of_nat fuel ->
  (p <= high a -> p = low a \/ reserved a (p - 1) = Ret false) ->
  exists runs,
    String_loop fuel a p b = Ret (b ++ render runs)%string /\
    increasing runs /\
    forall r, In r runs <-> maximal_run a r /\ p <= fst r.
Proof.
  intros Hs. pose proof Hs as (S1 & S2 & S3).
  induction fuel as [|fuel IH]; intros p b Hp Hfuel Hleft; [lia|].
  rewrite String_loop_S. destruct (Z.leb_spec p (high a)) as [Hle | Hgt].
  - destruct (run_end_spec a Hs (S fuel) p ltac:(lia) ltac:(lia))
      as (q & E & Hq & Hall & Hstop).
    rewrite E. simpl bind.
    assert (A1 : GoInt.add q 1 = q + 1) by (apply add_small; int_facts).
    assert (A2 : GoInt.add p 1 = p + 1) by (apply add_small; int_facts).
    assert (A3 : p < q -> GoInt.sub q 1 = q - 1)
      by (intros; apply sub_small; int_facts).
    rewrite A1, A2, !Z.gtb_ltb.
    assert (Hleft' : q + 1 <= high a ->
              q + 1 = low a \/ reserved a (q + 1 - 1) = Ret false).
    { intros Hq1. right. replace (q + 1 - 1) with q by lia. apply Hstop. lia. }
    destruct (Z.ltb_spec (p + 1) q) as [Hlong | Hshort]; cbv iota.
    + rewrite A3 by lia.
      destruct (IH (q + 1)
                  (b ++ " " ++ dec p ++ ".." ++ dec (q - 1))%string
                  ltac:(lia) ltac:(lia) Hleft') as (runs & R & Hinc & Hiff).
      exists ((p, q - 1) :: runs). split.
      * eapply eq_trans; [exact R|]. f_equal. simpl. unfold render_run at 1. simpl.
        destruct (Z.ltb_spec p (q - 1)); [| lia].
        rewrite <- !append_assoc. reflexivity.
      * apply runs_cons; auto; lia.
    + destruct (Z.ltb_spec p q) as [Hone | Hnone]; cbv iota.
      * rewrite A3 by lia.
        destruct (IH (q + 1) (b ++ " " ++ dec (q - 1))%string
                    ltac:(lia) ltac:(lia) Hleft') as (runs & R & Hinc & Hiff).
        exists ((p, q - 1) :: runs). split.
        -- eapply eq_trans; [exact R|]. f_equal. simpl. unfold render_run at 1. simpl.
           destruct (Z.ltb_spec p (q - 1)); [lia|].
           replace (q - 1) with p by lia.
           rewrite <- !append_assoc. reflexivity.
        -- apply runs_cons; auto; lia.
      * assert (q = p) by lia. subst q.
        destruct (IH (p + 1) b ltac:(lia) ltac:(lia) Hleft')
          as (runs & R & Hinc & Hiff).
        exists runs. split; [exact R|]. split; [exact Hinc|].
        apply runs_skip; auto.
  - exists []. split; [rewrite append_empty; reflexivity|].
    split; [constructor|]. intros r. simpl. split; [contradiction|].
    intros [(M1 & M2 & M3 & _) Hx]. lia.
Qed.

Lemma run_end_free fuel a p :
  reserved a p = Ret false -> run_end (S fuel) a p = Ret p.
Proof. simpl. intros ->. reflexivity. Qed.

Lemma run_end_panic fuel a p msg :
  reserved a p = Panic msg -> run_end (S fuel) a p = Panic msg.
Proof. simpl. intros ->. reflexivity. Qed.

Lemma outer_step fuel a p b q :
  (p <=? high a) = true -> run_end (S fuel) a p = Ret q ->
  exists b', String_loop (S fuel) a p b = String_loop fuel a (GoInt.add q 1) b'.
Proof.
  intros H E. rewrite String_loop_S, H, E. simpl bind. eexists. reflexivity.
Qed.

(** Once the outer loop of [String] has wrapped to the negative ints it
    walks up to -2, whose bit position is negative. *)
Lemma String_loop_near_max fuel : forall p b s,
  GoInt.min_int <= p <= -2 -> String_loop fuel near_max p b <> Ret s.
Proof.
  induction fuel as [|fuel IH]; intros p b s Hp; [discriminate|].
  assert (Hle : (p <=? high near_max) = true).
  { apply Z.leb_le. change (high near_max) with 9223372036854775806. lia. }
  destruct (Z.eq_dec p (-2)) as [-> | Hne].
  - rewrite String_loop_S, Hle.
    rewrite (run_end_panic fuel near_max (-2) "negative bit index");
      [discriminate | reflexivity].
  - assert (I : idx near_max p = p + 9223372036854775810).
    { unfold idx, GoInt.sub. rewrite wrap_under.
      - change (low near_max) with 9223372036854775806.
        change (2 ^ GoInt.size) with 18446744073709551616. lia.
      - change (low near_max) with 9223372036854775806.
        change (2 ^ GoInt.size) with 18446744073709551616. int_facts. }
    assert (F : reserved near_max p = Ret false).
    { apply reserved_ret. rewrite I. split; [int_facts|].
      change (pool near_max) with 1.
      apply Z.bits_above_log2; [lia|]. change (Z.log2 1) with 0. int_facts. }
    destruct (outer_step fuel near_max p b p Hle (run_end_free _ _ _ F)) as [b' ->].
    rewrite add_small by int_facts. apply IH. lia.
Qed.

(** C7, at an input on which the code does not do what the claim and the
    comment of [String] say: over [max_int - 1, max_int - 1] with its one
    id handed out, [String] renders the run, steps its loop variable from
    max_int to min_int, finds that still below high, and walks on through
    the negative ints until it panics at -2, whose bit position is
    negative.  It returns no string, whatever the fuel. *)
Theorem String_does_not_return_near_max_int :
  next 2 (newAllocator (GoInt.max_int - 1) (GoInt.max_int - 1))
  = Ret (GoInt.max_int - 1, true, near_max) /\
  reachable (GoInt.max_int - 1) (GoInt.max_int - 1) near_max /\
  reserved near_max (GoInt.max_int - 1) = Ret true /\
  ~ exists fuel s, String fuel near_max = Ret s.
Proof.
  split; [reflexivity|]. split; [| split].
  - apply (reach_next _ _ (newAllocator (GoInt.max_int - 1) (GoInt.max_int - 1))
             2 (GoInt.max_int - 1) true); [apply reach_new | reflexivity].
  - reflexivity.
  - intros (fuel & s & H). unfold String in H.
    destruct fuel as [|[|fuel]]; [discriminate | discriminate |].
    assert (E : run_end (S (S fuel)) near_max (low near_max) = Ret GoInt.max_int)
      by (vm_compute; reflexivity).
    destruct (outer_step (S fuel) near_max (low near_max)
                ("allocator[" ++ dec (low near_max) ++ ".." ++
                 dec (high near_max) ++ "]")%string
                GoInt.max_int eq_refl E) as [b' E'].
    rewrite E' in H.
    change (GoInt.add GoInt.max_int 1) with GoInt.min_int in H.
    revert H. apply String_loop_near_max. int_facts.
Qed.

(** ** The codec: bytes and integers *)

Section CodecBytes.

Import Codec.

Lemma byte_val_of z : byte_val (byte_of z) = z mod 256.
Proof.
  unfold byte_val, byte_of.
  pose proof (Z.mod_pos_bound z 256 ltac:(lia)) as Hm.
  destruct (Byte.of_N (Z.to_N (z mod 256))) as [b|] eqn:E.
  - apply Byte.to_of_N in E. rewrite E. lia.
  - apply Byte.of_N_None_iff in E. lia.
Qed.

Lemma unbe_snoc l b : unbe (l ++ [b]) = unbe l * 256 + byte_val b.
Proof. unfold unbe. rewrite fold_left_app. reflexivity. Qed.

Lemma length_be n : forall x, List.length (be n x) = n.
Proof.
  induction n as [|n IH]; intros x; simpl; [reflexivity|].
  rewrite length_app, IH. simpl. lia.
Qed.

Lemma unbe_be n : forall x, 0 <= x < 256 ^ Z.of_nat n -> unbe (be n x) = x.
Proof.
  induction n as [|n IH]; intros x Hx.
  - simpl in *. unfold unbe. simpl. lia.
  - simpl be. rewrite unbe_snoc, byte_val_of, IH.
    + pose proof (Z.div_mod x 256 ltac:(lia)). lia.
    + rewrite Nat2Z.inj_succ, Z.pow_succ_r in Hx by lia.
      split; [apply Z.div_pos; lia | apply Z.div_lt_upper_bound; lia].
Qed.

Lemma get_bytes_app n s rest :
  List.length s = n -> get_bytes n (s ++ rest) = Done (s, rest).
Proof.
  intros <-. unfold get_bytes.
  destruct (Nat.ltb_spec (List.length (s ++ rest)) (List.length s)) as [H | _].
  - rewrite length_app in H. lia.
  - rewrite firstn_app, skipn_app, firstn_all, skipn_all, Nat.sub_diag.
    simpl. rewrite app_nil_r. reflexivity.
Qed.

Lemma get_uint_be n x rest :
  0 <= x < 256 ^ Z.of_nat n -> get_uint n (be n x ++ rest) = Done (x, rest).
Proof.
  intros Hx. unfold get_uint. rewrite get_bytes_app by apply length_be.
  simpl. rewrite unbe_be by exact Hx. reflexivity.
Qed.

Lemma unsigned_ok_spec n x :
  unsigned_ok n x = true <-> 0 <= x < 256 ^ Z.of_nat n.
Proof. unfold unsigned_ok. rewrite andb_true_iff, Z.leb_le, Z.ltb_lt. tauto. Qed.

Lemma signed_ok_spec n z :
  signed_ok n z = true <->
  - (256 ^ Z.of_nat n / 2) <= z < 256 ^ Z.of_nat n / 2.
Proof. unfold signed_ok. rewrite andb_true_iff, Z.leb_le, Z.ltb_lt. tauto. Qed.

Lemma pow256_half n :
  (0 < n)%nat -> 256 ^ Z.of_nat n = 2 * (256 ^ Z.of_nat n / 2) /\ 0 < 256 ^ Z.of_nat n / 2.
Proof.
  intros Hn. destruct n as [|n]; [lia|].
  rewrite Nat2Z.inj_succ, Z.pow_succ_r by lia.
  pose proof (Z.pow_pos_nonneg 256 (Z.of_nat n) ltac:(lia) ltac:(lia)).
  replace (256 * 256 ^ Z.of_nat n) with (128 * 256 ^ Z.of_nat n * 2) by lia.
  rewrite Z.div_mul by lia. lia.
Qed.

Lemma get_int_be n z rest :
  (0 < n)%nat -> signed_ok n z = true ->
  get_int n (be_signed n z ++ rest) = Done (z, rest).
Proof.
  intros Hn Hz. apply signed_ok_spec in Hz.
  destruct (pow256_half n Hn) as [Hm Hh].
  unfold get_int, be_signed.
  pose proof (Z.mod_pos_bound z (256 ^ Z.of_nat n) ltac:(lia)) as Hb.
  rewrite get_uint_be by exact Hb. simpl. f_equal. f_equal.
  unfold to_signed.
  destruct (Z.lt_ge_cases z 0) as [Hneg | Hpos].
  - assert (E : z mod 256 ^ Z.of_nat n = z + 256 ^ Z.of_nat n).
    { symmetry. apply (Z.mod_unique _ _ (-1)); lia. }
    rewrite E. destruct (Z.ltb_spec (z + 256 ^ Z.of_nat n) (256 ^ Z.of_nat n / 2)); lia.
  - rewrite Z.mod_small by lia.
    destruct (Z.ltb_spec z (256 ^ Z.of_nat n / 2)); lia.
Qed.

Lemma byte_eqb_refl b : Byte.eqb b b = true.
Proof. apply Byte.byte_dec_lb. reflexivity. Qed.

Lemma find_by_code {A : Type} (code : A -> byte) (l : list A) (x : A) :
  (forall a b, code a = code b -> a = b) -> In x l ->
  find (fun a => Byte.eqb (code a) (code x)) l = Some x.
Proof.
  intros Hinj. induction l as [|a l IH]; intros Hin; [contradiction|].
  simpl. destruct (Byte.eqb (code a) (code x)) eqn:E.
  - apply Byte.byte_dec_bl in E. apply Hinj in E. congruence.
  - destruct Hin as [-> | Hin]; [rewrite byte_eqb_refl in E; discriminate|].
    apply IH, Hin.
Qed.

Lemma len_app (a b : list byte) : len (a ++ b) = len a + len b.
Proof. unfold len. rewrite length_app. lia. Qed.

Lemma len_cons (x : byte) l : len (x :: l) = 1 + len l.
Proof. unfold len. simpl List.length. lia. Qed.

Lemma len_be n x : len (be n x) = Z.of_nat n.
Proof. unfold len. rewrite length_be. reflexivity. Qed.

(** Induction on values, through the lists of arrays and tables. *)
Lemma value_nested_ind (P : value -> Prop) :
  (forall v, scalar v -> P v) ->
  (forall vs, Forall P vs -> P (VArray vs)) ->
  (forall t, Forall (fun kv => P (snd kv)) t -> P (VTable t)) ->
  forall v, P v.
Proof.
  intros Hs Ha Ht. fix IH 1. intros v.
  destruct v as [b|z|z|z|z|z|z|z|sc z|s|s|vs|t|z|]; try (apply Hs; exact I).
  - apply Ha. induction vs as [|v vs IHvs]; constructor; [apply IH | exact IHvs].
  - apply Ht. induction t as [|[k v] t IHt]; constructor; [apply IH | exact IHt].
Qed.

End CodecBytes.

(** ** The codec: round trips *)

Section CodecRoundTrip.

Import Codec.

Variable type_code : frame_type -> byte.
Variable frame_end : byte.
Variable tag : kind -> byte.
Hypothesis type_code_inj : forall a b, type_code a = type_code b -> a = b.
Hypothesis tag_inj : forall a b, tag a = tag b -> a = b.

Lemma get_bytes_one b bs : get_bytes 1 (b :: bs) = Done ([b], bs).
Proof. reflexivity. Qed.

Lemma type_of_code_type t : type_of_code type_code (type_code t) = Some t.
Proof.
  apply find_by_code; [exact type_code_inj|]. destruct t; simpl; tauto.
Qed.

Lemma kind_of_tag_tag k : kind_of_tag tag (tag k) = Some k.
Proof.
  apply find_by_code; [exact tag_inj|]. destruct k; simpl; tauto.
Qed.

Lemma len_range (bs : list byte) : 0 <= len bs.
Proof. unfold len. lia. Qed.

Lemma to_nat_len (bs : list byte) : List.length bs = Z.to_nat (len bs).
Proof. unfold len. lia. Qed.

Lemma frame_roundtrip f rest :
  valid_frame f ->
  decode_frame type_code frame_end (encode_frame type_code frame_end f ++ rest)
  = Done (f, rest).
Proof.
  intros [Hc Hl]. pose proof (len_range (payload f)).
  unfold decode_frame, encode_frame.
  rewrite <- app_comm_cons, <- !app_assoc.
  rewrite get_bytes_one. cbn [dbind].
  rewrite get_uint_be by (change (256 ^ Z.of_nat 2) with (2 ^ 16); lia).
  cbn [dbind].
  rewrite get_uint_be by (change (256 ^ Z.of_nat 4) with (2 ^ 32); lia).
  cbn [dbind].
  rewrite get_bytes_app by apply to_nat_len. cbn [dbind].
  rewrite <- app_comm_cons, get_bytes_one. cbn [dbind app].
  rewrite byte_eqb_refl, type_of_code_type. destruct f; reflexivity.
Qed.

Lemma method_roundtrip m :
  valid_method m -> decode_method (encode_method m) = Done m.
Proof.
  intros [Hc Hm]. unfold decode_method, encode_method.
  rewrite get_uint_be by (change (256 ^ Z.of_nat 2) with (2 ^ 16); lia).
  cbn [dbind].
  rewrite get_uint_be by (change (256 ^ Z.of_nat 2) with (2 ^ 16); lia).
  cbn [dbind]. destruct m; reflexivity.
Qed.

Lemma decode_value_scalar fuel k bs :
  k <> KArray -> k <> KTable ->
  decode_value tag (S fuel) (tag k :: bs) = decode_scalar k bs.
Proof.
  intros H1 H2. cbn [decode_value]. rewrite kind_of_tag_tag.
  destruct k; try reflexivity; contradiction.
Qed.

Lemma decode_value_array fuel bs :
  decode_value tag (S fuel) (tag KArray :: bs) =
  dbind (get_uint 4 bs) (fun x => let '(n, bs2) := x in
  dbind (get_bytes (Z.to_nat n) bs2) (fun y => let '(body, rest) := y in
  dbind (decode_values tag fuel body) (fun vs => Done (VArray vs, rest)))).
Proof. cbn [decode_value]. rewrite kind_of_tag_tag. reflexivity. Qed.

Lemma decode_value_table fuel bs :
  decode_value tag (S fuel) (tag KTable :: bs) =
  dbind (get_uint 4 bs) (fun x => let '(n, bs2) := x in
  dbind (get_bytes (Z.to_nat n) bs2) (fun y => let '(body, rest) := y in
  dbind (decode_fields tag fuel body) (fun t => Done (VTable t, rest)))).
Proof. cbn [decode_value]. rewrite kind_of_tag_tag. reflexivity. Qed.

Lemma decode_values_nil fuel : decode_values tag (S fuel) [] = Done [].
Proof. reflexivity. Qed.

Lemma decode_values_more fuel bs :
  bs <> [] ->
  decode_values tag (S fuel) bs =
  dbind (decode_value tag fuel bs) (fun x => let '(v, rest) := x in
  dbind (decode_values tag fuel rest) (fun vs => Done (v :: vs))).
Proof. destruct bs; [contradiction | reflexivity]. Qed.

Lemma decode_fields_nil fuel : decode_fields tag (S fuel) [] = Done [].
Proof. reflexivity. Qed.

Lemma decode_fields_more fuel bs :
  bs <> [] ->
  decode_fields tag (S fuel) bs =
  dbind (get_uint 1 bs) (fun x => let '(n, bs1) := x in
  dbind (get_bytes (Z.to_nat n) bs1) (fun y => let '(k, bs2) := y in
  dbind (decode_value tag fuel bs2) (fun z => let '(v, rest) := z in
  dbind (decode_fields tag fuel rest) (fun t => Done ((k, v) :: t))))).
Proof. destruct bs; [contradiction | reflexivity]. Qed.

Lemma len_encode_key k : len (encode_key k) = 1 + len k.
Proof. unfold encode_key. rewrite len_app, len_be. lia. Qed.

Lemma len_encode_value : forall v, len (encode_value tag v) = wire_size v.
Proof.
  apply value_nested_ind.
  - intros v Hv. destruct v; try contradiction;
      cbn [encode_value wire_size]; unfold be_signed;
      rewrite ?len_cons, ?len_app, ?len_be, ?len_cons;
      unfold len; cbn [List.length]; lia.
  - intros vs Hvs. cbn [encode_value wire_size].
    rewrite len_cons, len_app, len_be.
    assert (len (flat_map (encode_value tag) vs)
            = fold_right (fun v acc => wire_size v + acc) 0 vs) as ->; [|lia].
    induction Hvs as [|v vs Hv Hvs IH]; cbn [flat_map fold_right]; [reflexivity|].
    rewrite len_app, Hv, IH. reflexivity.
  - intros t Ht. cbn [encode_value wire_size].
    rewrite len_cons, len_app, len_be.
    match goal with
    | |- 1 + (_ + len ?X) = 5 + ?Y => assert (len X = Y) as ->; [|lia]
    end.
    induction Ht as [|kv t Hv Ht IH]; cbn [flat_map fold_right]; [reflexivity|].
    rewrite !len_app, len_encode_key, Hv, IH. lia.
Qed.

Lemma len_encode_values vs : len (encode_values tag vs) = values_size vs.
Proof.
  unfold encode_values, values_size.
  induction vs as [|v vs IH]; cbn [flat_map fold_right]; [reflexivity|].
  rewrite len_app, len_encode_value, IH. reflexivity.
Qed.

Lemma len_encode_fields t : len (encode_fields tag t) = fields_size t.
Proof.
  unfold encode_fields, fields_size.
  induction t as [|kv t IH]; cbn [flat_map fold_right]; [reflexivity|].
  rewrite !len_app, len_encode_key, len_encode_value, IH. lia.
Qed.

Lemma wire_size_pos v : 1 <= wire_size v.
Proof.
  rewrite <- len_encode_value. destruct v; simpl encode_value;
    rewrite len_cons; pose proof (len_range) as H;
    match goal with |- 1 <= 1 + len ?l => specialize (H l); lia end.
Qed.

Lemma encode_value_nonempty v rest : encode_value tag v ++ rest <> [].
Proof. destruct v; discriminate. Qed.

Lemma encode_key_nonempty k rest : encode_key k ++ rest <> [].
Proof. unfold encode_key. cbn [be app]. discriminate. Qed.

Ltac width :=
  match goal with
  | |- 0 <= _ < 256 ^ Z.of_nat _ => apply unsigned_ok_spec; assumption
  | |- 0 <= len ?s < 256 ^ Z.of_nat 1 =>
      pose proof (len_range s); change (256 ^ Z.of_nat 1) with (2 ^ 8); lia
  | |- 0 <= len ?s < 256 ^ Z.of_nat 4 =>
      pose proof (len_range s); change (256 ^ Z.of_nat 4) with (2 ^ 32); lia
  | |- (0 < _)%nat => lia
  | |- signed_ok _ _ = true => assumption
  end.

(** A value that holds no other value decodes to itself. *)
Lemma scalar_roundtrip v rest fuel :
  scalar v -> valid_value v = true ->
  decode_value tag (S fuel) (encode_value tag v ++ rest) = Done (v, rest).
Proof.
  intros Hs Hv.
  destruct v as [b|z|z|z|z|z|z|z|sc z|s|s|vs|t|z|]; try contradiction;
    cbn [encode_value]; cbn [valid_value] in Hv;
    rewrite <- app_comm_cons, decode_value_scalar by discriminate;
    unfold decode_scalar.
  - destruct b; [change [x01] with (be 1 1) | change [x00] with (be 1 0)];
      rewrite get_uint_be by (change (256 ^ Z.of_nat 1) with 256; lia);
      reflexivity.
  - rewrite get_int_be by width. reflexivity.
  - rewrite get_int_be by width. reflexivity.
  - rewrite get_int_be by width. reflexivity.
  - rewrite get_int_be by width. reflexivity.
  - rewrite get_uint_be by width. reflexivity.
  - rewrite get_uint_be by width. reflexivity.
  - rewrite get_uint_be by width. reflexivity.
  - apply andb_true_iff in Hv. destruct Hv as [Hsc Hz].
    rewrite <- app_assoc, get_uint_be by width. cbn [dbind].
    rewrite get_int_be by width. reflexivity.
  - apply Z.ltb_lt in Hv.
    rewrite <- app_assoc, get_uint_be by width. cbn [dbind].
    rewrite get_bytes_app by apply to_nat_len. reflexivity.
  - apply Z.ltb_lt in Hv.
    rewrite <- app_assoc, get_uint_be by width. cbn [dbind].
    rewrite get_bytes_app by apply to_nat_len. reflexivity.
  - rewrite get_uint_be by width. reflexivity.
  - reflexivity.
Qed.

Lemma values_size_nonneg vs : 0 <= values_size vs.
Proof. rewrite <- len_encode_values. apply len_range. Qed.

Lemma fields_size_nonneg t : 0 <= fields_size t.
Proof. rewrite <- len_encode_fields. apply len_range. Qed.

Lemma values_roundtrip vs :
  Forall (decodes_back tag) vs -> valid_values vs = true ->
  forall fuel, values_size vs < Z.of_nat fuel ->
    decode_values tag fuel (encode_values tag vs) = Done vs.
Proof.
  unfold valid_values, encode_values, values_size.
  induction 1 as [|v vs Hv Hvs IH]; intros Hvalid fuel Hfuel;
    cbn [flat_map fold_right forallb] in *.
  - destruct fuel; [lia | reflexivity].
  - apply andb_true_iff in Hvalid. destruct Hvalid as [V1 V2].
    pose proof (wire_size_pos v). pose proof (values_size_nonneg vs) as Hn.
    unfold values_size in Hn.
    destruct fuel as [|fuel]; [lia|].
    rewrite decode_values_more by apply encode_value_nonempty.
    rewrite (Hv V1) by lia. cbn [dbind].
    rewrite (IH V2) by lia. reflexivity.
Qed.

Lemma fields_roundtrip t :
  Forall (fun kv => decodes_back tag (snd kv)) t -> valid_fields t = true ->
  forall fuel, fields_size t < Z.of_nat fuel ->
    decode_fields tag fuel (encode_fields tag t) = Done t.
Proof.
  unfold valid_fields, encode_fields, fields_size.
  induction 1 as [|[k v] t Hv Ht IH]; intros Hvalid fuel Hfuel;
    cbn [flat_map fold_right forallb fst snd] in *.
  - destruct fuel; [lia | reflexivity].
  - apply andb_true_iff in Hvalid. destruct Hvalid as [V1 V2].
    apply andb_true_iff in V1. destruct V1 as [Vk Vv]. apply Z.ltb_lt in Vk.
    pose proof (wire_size_pos v). pose proof (fields_size_nonneg t) as Hn.
    pose proof (len_range k).
    unfold fields_size in Hn.
    destruct fuel as [|fuel]; [lia|].
    rewrite <- app_assoc.
    rewrite decode_fields_more by apply encode_key_nonempty.
    unfold encode_key at 1. rewrite <- app_assoc.
    rewrite get_uint_be by (change (256 ^ Z.of_nat 1) with (2 ^ 8); lia).
    cbn [dbind]. rewrite get_bytes_app by apply to_nat_len. cbn [dbind].
    rewrite (Hv Vv) by lia. cbn [dbind].
    rewrite (IH V2) by lia. reflexivity.
Qed.

Lemma value_roundtrip : forall v, decodes_back tag v.
Proof.
  apply value_nested_ind.
  - intros v Hs Hv fuel rest Hfuel. pose proof (wire_size_pos v).
    destruct fuel as [|fuel]; [lia|]. apply scalar_roundtrip; assumption.
  - intros vs Hvs Hv fuel rest Hfuel.
    cbn [valid_value wire_size] in Hv, Hfuel.
    apply andb_true_iff in Hv. destruct Hv as [V1 V2]. apply Z.ltb_lt in V2.
    fold (values_size vs) in V2, Hfuel.
    pose proof (values_size_nonneg vs).
    destruct fuel as [|fuel]; [lia|].
    cbn [encode_value]. fold (encode_values tag vs).
    rewrite <- app_comm_cons, decode_value_array, <- app_assoc.
    rewrite get_uint_be by (rewrite len_encode_values;
                            change (256 ^ Z.of_nat 4) with (2 ^ 32); lia).
    cbn [dbind]. rewrite get_bytes_app by apply to_nat_len. cbn [dbind].
    rewrite values_roundtrip by (auto; lia). reflexivity.
  - intros t Ht Hv fuel rest Hfuel.
    cbn [valid_value wire_size] in Hv, Hfuel.
    apply andb_true_iff in Hv. destruct Hv as [V1 V2]. apply Z.ltb_lt in V2.
    fold (fields_size t) in V2, Hfuel.
    pose proof (fields_size_nonneg t).
    destruct fuel as [|fuel]; [lia|].
    cbn [encode_value]. fold (encode_fields tag t).
    rewrite <- app_comm_cons, decode_value_table, <- app_assoc.
    rewrite get_uint_be by (rewrite len_encode_fields;
                            change (256 ^ Z.of_nat 4) with (2 ^ 32); lia).
    cbn [dbind]. rewrite get_bytes_app by apply to_nat_len. cbn [dbind].
    rewrite fields_roundtrip by (auto; lia). reflexivity.
Qed.

Lemma table_roundtrip t rest :
  valid_table t = true ->
  decode_table tag (encode_table tag t ++ rest) = Done (t, rest).
Proof.
  unfold valid_table. intros Hv.
  apply andb_true_iff in Hv. destruct Hv as [V1 V2]. apply Z.ltb_lt in V2.
  pose proof (fields_size_nonneg t).
  unfold decode_table, encode_table. rewrite <- app_assoc.
  rewrite get_uint_be by (rewrite len_encode_fields;
                          change (256 ^ Z.of_nat 4) with (2 ^ 32); lia).
  cbn [dbind]. rewrite get_bytes_app by apply to_nat_len. cbn [dbind].
  rewrite fields_roundtrip; [reflexivity | | exact V1 |].
  - apply Forall_forall. intros kv _. apply value_roundtrip.
  - rewrite <- len_encode_fields. unfold len. lia.
Qed.

End CodecRoundTrip.

(** ** C8 *)

(** C8, on the codec as the specification describes it: whatever the
    (pairwise distinct) type codes and discriminants, every valid frame
    decodes from its encoding, followed by anything, to itself and what
    follows; so does every method payload, every field table on its own
    and every valid field value -- nested tables, arrays and each scalar
    case included -- given fuel for its bytes. *)
Theorem decode_encode_roundtrip
  (type_code : Codec.frame_type -> byte) (frame_end : byte)
  (tag : Codec.kind -> byte) :
  (forall a b, type_code a = type_code b -> a = b) ->
  (forall a b, tag a = tag b -> a = b) ->
  (forall f rest, Codec.valid_frame f ->
     Codec.decode_frame type_code frame_end
       (Codec.encode_frame type_code frame_end f ++ rest) = Codec.Done (f, rest)) /\
  (forall m, Codec.valid_method m ->
     Codec.decode_method (Codec.encode_method m) = Codec.Done m) /\
  (forall t rest, Codec.valid_table t = true ->
     Codec.decode_table tag (Codec.encode_table tag t ++ rest) = Codec.Done (t, rest)) /\
  (forall v fuel rest, Codec.valid_value v = true ->
     Codec.wire_size v <= Z.of_nat fuel ->
     Codec.decode_value tag fuel (Codec.encode_value tag v ++ rest)
     = Codec.Done (v, rest)).
Proof.
  intros Hty Htag. split; [| split; [| split]].
  - intros f rest. apply frame_roundtrip, Hty.
  - apply method_roundtrip.
  - intros t rest. apply table_roundtrip, Htag.
  - intros v fuel rest Hv Hfuel. apply (value_roundtrip tag Htag); assumption.
Qed.

Lemma decode_encode_roundtrip_witness :
  (forall f rest, Codec.valid_frame f ->
     Codec.decode_frame Codec.sample_type_code Codec.sample_frame_end
       (Codec.encode_frame Codec.sample_type_code Codec.sample_frame_end f ++ rest)
     = Codec.Done (f, rest)) /\
  (forall m, Codec.valid_method m ->
     Codec.decode_method (Codec.encode_method m) = Codec.Done m) /\
  (forall t rest, Codec.valid_table t = true ->
     Codec.decode_table Codec.sample_tag (Codec.encode_table Codec.sample_tag t ++ rest)
     = Codec.Done (t, rest)) /\
  (forall v fuel rest, Codec.valid_value v = true ->
     Codec.wire_size v <= Z.of_nat fuel ->
     Codec.decode_value Codec.sample_tag fuel (Codec.encode_value Codec.sample_tag v ++ rest)
     = Codec.Done (v, rest)).
Proof.
  apply (decode_encode_roundtrip Codec.sample_type_code Codec.sample_frame_end
           Codec.sample_tag).
  - intros [] []; simpl; intros H; try reflexivity; discriminate H.
  - intros [] []; simpl; intros H; try reflexivity; discriminate H.
Defined.

Example sample_table_roundtrip :
  Codec.valid_table Codec.sample_table = true /\
  Codec.decode_frame Codec.sample_type_code Codec.sample_frame_end
    (Codec.encode_frame Codec.sample_type_code Codec.sample_frame_end
       (Codec.mkFrame Codec.ContentHeader 7
          (Codec.encode_table Codec.sample_tag Codec.sample_table)))
  = Codec.Done
      (Codec.mkFrame Codec.ContentHeader 7
         (Codec.encode_table Codec.sample_tag Codec.sample_table), []) /\
  Codec.decode_table Codec.sample_tag
    (Codec.encode_table Codec.sample_tag Codec.sample_table)
  = Codec.Done (Codec.sample_table, []).
Proof. repeat split; vm_compute; reflexivity. Qed.

(** * Further properties of the allocator *)

(** ** A fresh allocator *)

Lemma String_loop_clear a : string_ok a -> forall fuel p b,
  low a <= p <= high a + 2 -> high a - p + 3 <= Z.of_nat fuel ->
  (forall m, low a <= m <= high a -> reserved a m = Ret false) ->
  String_loop fuel a p b = Ret b.
Proof.
  intros Hs fuel p b Hp Hfuel Hfree.
  destruct (String_loop_spec a Hs fuel p b Hp Hfuel) as (runs & R & _ & Hiff).
  { intros Hle. destruct (Z.eq_dec p (low a)) as [e | ne]; [left; exact e|].
    right. apply Hfree. lia. }
  destruct runs as [|r runs].
  - rewrite R. simpl. rewrite append_empty. reflexivity.
  - assert (M : maximal_run a r /\ p <= fst r) by (apply Hiff; left; reflexivity).
    destruct M as [(M1 & M2 & M3 & M4 & _) _].
    specialize (M4 (fst r) ltac:(lia)). specialize (Hfree (fst r) ltac:(lia)).
    congruence.
Qed.

(** X1.  A fresh allocator holds no id: over a range [lo, hi] with
    min_int <= lo <= hi <= max_int - 2 and hi - lo < max_int, and given
    fuel for the range, every id of the range is free, the rendering is
    the bare header, and the first [next] hands out lo and moves the
    cursor one on (or keeps it, on a range of one id). *)
Theorem fresh_allocator_is_empty lo hi fuel :
  lo <= hi -> string_ok (newAllocator lo hi) -> hi - lo + 3 <= Z.of_nat fuel ->
  (forall n, lo <= n <= hi -> reserved (newAllocator lo hi) n = Ret false) /\
  String fuel (newAllocator lo hi)
  = Ret ("allocator[" ++ dec lo ++ ".." ++ dec hi ++ "]")%string /\
  next fuel (newAllocator lo hi)
  = Ret (lo, true, mkAllocator 1 (if lo =? hi then lo else lo + 1) lo hi).
Proof.
  intros Hle Hs Hfuel. pose proof Hs as (S1 & S2 & S3). simpl in S1, S2, S3.
  pose proof int_bounds as [Emin Emax].
  assert (Hfree : forall n, lo <= n <= hi -> reserved (newAllocator lo hi) n = Ret false).
  { intros n Hn. apply reserved_ret. unfold idx. simpl.
    rewrite sub_small by (unfold GoInt.in_int; lia).
    split; [lia | apply Z.testbit_0_l]. }
  split; [exact Hfree|]. split.
  - unfold String. apply String_loop_clear; simpl; auto; lia.
  - destruct fuel as [|fuel]; [lia|].
    rewrite next_at_cursor;
      [| simpl; lia | apply Hfree; simpl; lia
       | unfold idx; simpl; rewrite sub_small by (unfold GoInt.in_int; lia);
         rewrite max_bits_eq; lia].
    do 2 f_equal. unfold advance, idx. simpl.
    rewrite sub_small by (unfold GoInt.in_int; lia).
    replace (lo - lo) with 0 by lia.
    destruct (Z.eqb_spec lo hi); unfold set_follow; simpl; [reflexivity|].
    rewrite add_small by (unfold GoInt.in_int; lia). reflexivity.
Qed.

Lemma fresh_allocator_is_empty_witness :
  (forall n, 1 <= n <= 16 -> reserved (newAllocator 1 16) n = Ret false) /\
  String 18 (newAllocator 1 16)
  = Ret ("allocator[" ++ dec 1 ++ ".." ++ dec 16 ++ "]")%string /\
  next 18 (newAllocator 1 16)
  = Ret (1, true, mkAllocator 1 (if 1 =? 16 then 1 else 1 + 1) 1 16).
Proof.
  apply (fresh_allocator_is_empty 1 16 18).
  - lia.
  - unfold string_ok. int_facts.
  - simpl. lia.
Defined.

(** ** reserve, reserved, release *)

Lemma clearbit_setbit x i :
  0 <= i -> Z.testbit x i = false -> Z.clearbit (Z.setbit x i) i = x.
Proof.
  intros Hi H. apply Z.bits_inj'. intros m Hm.
  rewrite Z.clearbit_eqb, Z.setbit_eqb by exact Hi.
  destruct (Z.eqb_spec i m) as [-> | _]; simpl.
  - rewrite H. reflexivity.
  - apply andb_true_r.
Qed.

Lemma setbit_clearbit x i :
  0 <= i -> Z.testbit x i = true -> Z.setbit (Z.clearbit x i) i = x.
Proof.
  intros Hi H. apply Z.bits_inj'. intros m Hm.
  rewrite Z.setbit_eqb, Z.clearbit_eqb by exact Hi.
  destruct (Z.eqb_spec i m) as [-> | _]; simpl.
  - rewrite H. reflexivity.
  - apply andb_true_r.
Qed.

(** X2.  [reserve] and [release] undo each other, on a pool that is a
    natural number and at a bit position below [big.max_bits].  On a free
    id [reserve] succeeds, the id then reads as reserved, a second
    [reserve] is refused and changes nothing, and [release] gives back the
    allocator as it was; on a reserved id [release] frees it, a second
    [release] changes nothing, and [reserve] gives back the allocator as
    it was. *)
Theorem reserve_release_roundtrip a n :
  0 <= pool a -> idx a n < big.max_bits ->
  (reserved a n = Ret false ->
   exists a1,
     reserve a n = Ret (true, a1) /\ reserved a1 n = Ret true /\
     reserve a1 n = Ret (false, a1) /\ release a1 n = Ret a) /\
  (reserved a n = Ret true ->
   exists a1,
     release a n = Ret a1 /\ reserved a1 n = Ret false /\
     release a1 n = Ret a1 /\ reserve a1 n = Ret (true, a)).
Proof.
  intros Hp Hm.
  split; intros H; pose proof H as H'; apply reserved_ret in H';
    destruct H' as [Hi Hb].
  - exists (set_pool a (Z.setbit (pool a) (idx a n))).
    assert (R : reserved (set_pool a (Z.setbit (pool a) (idx a n))) n = Ret true).
    { apply reserved_ret. split; [exact Hi|]. apply Z.setbit_eq, Hi. }
    split; [apply reserve_claims; [exact H | exact Hm]|]. split; [exact R|].
    split; [apply reserve_taken, R|].
    rewrite release_total; [| apply setbit_nonneg, Hp | exact Hi]. f_equal.
    apply allocator_eq; try reflexivity.
    apply (clearbit_setbit (pool a) (idx a n) Hi Hb).
  - exists (set_pool a (Z.clearbit (pool a) (idx a n))).
    assert (R : reserved (set_pool a (Z.clearbit (pool a) (idx a n))) n = Ret false).
    { apply reserved_ret. split; [exact Hi|]. apply Z.clearbit_eq. }
    split; [apply release_total; [exact Hp | exact Hi]|]. split; [exact R|]. split.
    + rewrite release_total; [| apply clearbit_nonneg, Hp | exact Hi]. f_equal.
      apply allocator_eq; try reflexivity.
      apply clearbit_unset, Z.clearbit_eq.
    + rewrite (reserve_claims _ _ R Hm). do 2 f_equal.
      apply allocator_eq; try reflexivity.
      apply (setbit_clearbit (pool a) (idx a n) Hi Hb).
Qed.

Lemma reserve_release_roundtrip_witness :
  (reserved (mkAllocator 5 3 1 16) 2 = Ret false ->
   exists a1,
     reserve (mkAllocator 5 3 1 16) 2 = Ret (true, a1) /\
     reserved a1 2 = Ret true /\
     reserve a1 2 = Ret (false, a1) /\ release a1 2 = Ret (mkAllocator 5 3 1 16)) /\
  (reserved (mkAllocator 5 3 1 16) 2 = Ret true ->
   exists a1,
     release (mkAllocator 5 3 1 16) 2 = Ret a1 /\ reserved a1 2 = Ret false /\
     release a1 2 = Ret a1 /\ reserve a1 2 = Ret (true, mkAllocator 5 3 1 16)).
Proof.
  apply (reserve_release_roundtrip (mkAllocator 5 3 1 16) 2).
  - simpl. lia.
  - vm_compute. reflexivity.
Defined.

Lemma reserved_other a a' n m :
  GoInt.in_int (low a) -> GoInt.in_int n -> GoInt.in_int m -> n <> m ->
  low a' = low a -> 0 <= idx a n ->
  (pool a' = Z.setbit (pool a) (idx a n) \/ pool a' = Z.clearbit (pool a) (idx a n)) ->
  reserved a' m = reserved a m.
Proof.
  intros Hl Hn Hm Hne L Hi P.
  assert (I : idx a' m = idx a m) by (unfold idx; rewrite L; reflexivity).
  destruct (Z.lt_ge_cases (idx a m) 0) as [Hneg | Hpos].
  - rewrite !reserved_panic; auto. lia.
  - rewrite !reserved_total by lia. rewrite I. f_equal.
    assert (idx a n <> idx a m) by (intros e; apply sub_inj in e; auto).
    destruct P as [-> | ->]; [apply Z.setbit_neq | apply Z.clearbit_neq]; lia.
Qed.

(** X3.  [reserve], [release] and [next] change the state of no id but
    the one they are given or return: for every other int m, [reserved m]
    answers (or panics) after the call as it did before (bit positions
    are injective on Go's ints, on any range). *)
Theorem other_ids_untouched a n m :
  GoInt.in_int (low a) -> GoInt.in_int n -> GoInt.in_int m -> n <> m ->
  (forall a', release a n = Ret a' -> reserved a' m = reserved a m) /\
  (forall ok a', reserve a n = Ret (ok, a') -> reserved a' m = reserved a m) /\
  (forall fuel ok a', GoInt.in_int (follow a) ->
     next fuel a = Ret (n, ok, a') -> reserved a' m = reserved a m).
Proof.
  intros Hl Hn Hm Hne. split; [| split].
  - intros a' R. apply release_ret in R. destruct R as [Hi ->].
    apply (reserved_other a _ n m); auto.
  - intros ok a' R. apply reserve_ret in R.
    destruct R as [(_ & -> & _) | (_ & -> & R)]; [reflexivity|].
    apply reserved_ret in R. destruct R as [Hi _].
    apply (reserved_other a _ n m); auto.
  - intros fuel ok a' Hf N. apply next_frame in N.
    destruct N as (L & _ & _ & F & T). destruct ok.
    + destruct (T eq_refl) as (R & P & _).
      apply reserved_ret in R. destruct R as [Hi _].
      apply (reserved_other a _ n m); auto.
    + destruct (F eq_refl) as [_ P]. apply reserved_ext; auto.
Qed.

Lemma other_ids_untouched_witness :
  (forall a', release (mkAllocator 7 1 1 3) 2 = Ret a' ->
     reserved a' 3 = reserved (mkAllocator 7 1 1 3) 3) /\
  (forall ok a', reserve (mkAllocator 7 1 1 3) 2 = Ret (ok, a') ->
     reserved a' 3 = reserved (mkAllocator 7 1 1 3) 3) /\
  (forall fuel ok a', GoInt.in_int (follow (mkAllocator 7 1 1 3)) ->
     next fuel (mkAllocator 7 1 1 3) = Ret (2, ok, a') ->
     reserved a' 3 = reserved (mkAllocator 7 1 1 3) 3).
Proof.
  apply (other_ids_untouched (mkAllocator 7 1 1 3) 2 3).
  - int_facts.
  - int_facts.
  - int_facts.
  - lia.
Defined.

(** X4.  [reserved] and [reserve] are not range-checked below low: for
    an int n below an int low, by at most 2^63, the bit position n - low
    is negative and both panic on it, as [release] does. *)
Theorem queries_below_low_panic a n :
  GoInt.in_int (low a) -> GoInt.in_int n ->
  n < low a -> low a - n <= GoInt.max_int + 1 ->
  reserved a n = Panic "negative bit index" /\
  reserve a n = Panic "negative bit index".
Proof.
  intros Hl Hn Hlt Hw. pose proof int_bounds as [Emin Emax].
  assert (I : idx a n < 0).
  { unfold idx. rewrite sub_small; [lia|]. unfold GoInt.in_int in *. lia. }
  split; [apply reserved_panic, I|].
  unfold reserve. rewrite (reserved_panic _ _ I). reflexivity.
Qed.

Lemma queries_below_low_panic_witness :
  reserved (newAllocator 1 16) 0 = Panic "negative bit index" /\
  reserve (newAllocator 1 16) 0 = Panic "negative bit index".
Proof.
  apply (queries_below_low_panic (newAllocator 1 16) 0).
  - int_facts.
  - int_facts.
  - simpl. lia.
  - int_facts.
Defined.

(** X15.  Nor are [reserved] and [reserve] range-checked above high: for
    ints low <= n with n - low an int, [reserved] returns; [reserve]
    returns where n - low is below
    [big.max_bits], the id being one of the range or not; and on a pool of
    at most one word [reserve] panics in makeslice where n - low is
    8 * [big.maxAlloc] or more, the pool being asked to grow beyond what
    is allocated. *)
Theorem queries_from_low_up a n :
  GoInt.in_int (low a) -> GoInt.in_int n ->
  low a <= n -> n - low a <= GoInt.max_int ->
  returns (reserved a n) /\
  (n - low a < big.max_bits -> returns (reserve a n)) /\
  (0 <= pool a < 2 ^ 64 -> big.maxAlloc * 8 <= n - low a ->
   reserved a n = Ret false /\
   reserve a n = Panic "makeslice: len out of range").
Proof.
  intros Hl Hn Hle Hw. pose proof int_bounds as [Emin Emax].
  assert (I : idx a n = n - low a).
  { unfold idx. apply sub_small. unfold GoInt.in_int in *. lia. }
  split; [| split].
  - rewrite reserved_total by lia. eexists. reflexivity.
  - intros Hm. rewrite reserve_total_cases by lia.
    destruct (Z.testbit (pool a) (idx a n)); eexists; reflexivity.
  - intros Hp Hfar.
    assert (F : reserved a n = Ret false).
    { apply reserved_ret. split; [lia|].
      destruct (Z.eq_dec (pool a) 0) as [-> | Hne]; [apply Z.testbit_0_l|].
      apply Z.bits_above_log2; [lia|].
      assert (Z.log2 (pool a) < 64) by (apply Z.log2_lt_pow2; lia).
      unfold big.maxAlloc in Hfar.
      change (2 ^ 48 * 8) with 2251799813685248 in Hfar. lia. }
    split; [exact F|].
    unfold reserve. rewrite F. cbn [bind]. fold (idx a n). unfold allocated.
    rewrite SetBit_beyond; [reflexivity | exact Hp | lia].
Qed.

Lemma queries_from_low_up_witness :
  returns (reserved (newAllocator 1 16) (2 ^ 62)) /\
  (2 ^ 62 - low (newAllocator 1 16) < big.max_bits ->
   returns (reserve (newAllocator 1 16) (2 ^ 62))) /\
  (0 <= pool (newAllocator 1 16) < 2 ^ 64 ->
   big.maxAlloc * 8 <= 2 ^ 62 - low (newAllocator 1 16) ->
   reserved (newAllocator 1 16) (2 ^ 62) = Ret false /\
   reserve (newAllocator 1 16) (2 ^ 62) = Panic "makeslice: len out of range").
Proof.
  apply (queries_from_low_up (newAllocator 1 16) (2 ^ 62)).
  - int_facts.
  - unfold GoInt.in_int. pose proof int_bounds as [? ?].
    change (2 ^ 62) with 4611686018427387904. lia.
  - simpl. lia.
  - pose proof int_bounds as [? ?]. simpl low.
    change (2 ^ 62) with 4611686018427387904. lia.
Defined.

Example reserve_far_above :
  reserve (newAllocator 1 16) (2 ^ 62) = Panic "makeslice: len out of range" /\
  reserve (newAllocator 1 16) 20
  = Ret (true, mkAllocator (2 ^ 19) 1 1 16).
Proof. split; vm_compute; reflexivity. Qed.

(** ** Filling a fresh allocator *)

Lemma next_when_full fuel a :
  wf a -> enough fuel a ->
  (forall m, low a <= m <= high a -> reserved a m = Ret true) ->
  next fuel a = Ret (0, false, set_follow a (succ_wrap a (follow a))).
Proof.
  intros W Hfuel Hall. pose proof W as [_ Hf].
  destruct (next_returns fuel a W Hfuel) as (n & ok & a' & p & E & S).
  destruct S as [n Hn Hfree _ | n Hn Hfree _ _ | _].
  - specialize (Hall n ltac:(lia)). congruence.
  - specialize (Hall n ltac:(lia)). congruence.
  - exact E.
Qed.

Lemma filled_fresh lo hi : lo <= hi -> newAllocator lo hi = filled lo hi 0.
Proof.
  intros H. unfold newAllocator, filled, big.NewInt. rewrite Z.add_0_r.
  destruct (Z.leb_spec lo hi); [reflexivity | lia].
Qed.

Lemma filled_next lo hi j fuel :
  range_ok lo hi -> 0 <= j <= hi - lo ->
  next (S fuel) (filled lo hi j) = Ret (lo + j, true, filled lo hi (j + 1)).
Proof.
  intros (R1 & R2 & R3 & R4) Hj. pose proof int_bounds as [Emin Emax].
  pose proof max_bits_eq as Emb.
  assert (Ff : follow (filled lo hi j) = lo + j).
  { unfold filled. cbn [follow]. destruct (Z.leb_spec (lo + j) hi); [reflexivity | lia]. }
  assert (I : idx (filled lo hi j) (lo + j) = j).
  { unfold idx. cbn [low filled]. rewrite sub_small; [lia|].
    unfold GoInt.in_int. lia. }
  assert (F : reserved (filled lo hi j) (follow (filled lo hi j)) = Ret false).
  { rewrite Ff. apply reserved_ret. rewrite I. split; [lia|].
    cbn [pool filled]. apply Z.ones_spec_high. lia. }
  rewrite next_at_cursor;
    [| rewrite Ff; cbn [high filled]; lia | exact F | rewrite Ff, I; lia].
  rewrite Ff, I. do 2 f_equal. unfold advance.
  change (follow (set_pool (filled lo hi j) (Z.setbit (pool (filled lo hi j)) j)))
    with (follow (filled lo hi j)).
  rewrite Ff. cbn [high set_pool filled pool low]. unfold set_follow.
  cbn [pool low high follow]. rewrite setbit_ones by lia. unfold filled.
  destruct (Z.eqb_spec (lo + j) hi) as [e | ne];
    destruct (Z.leb_spec (lo + (j + 1)) hi); try lia; [reflexivity|].
  rewrite add_small by (unfold GoInt.in_int; lia). f_equal. lia.
Qed.

Lemma nexts_filled lo hi fuel :
  range_ok lo hi -> forall (k : nat) j,
  0 <= j -> j + Z.of_nat k <= hi - lo + 1 ->
  nexts (S fuel) k (filled lo hi j)
  = Ret (span (lo + j) (lo + j + Z.of_nat k - 1), filled lo hi (j + Z.of_nat k)).
Proof.
  intros Hr. induction k as [|k IH]; intros j Hj Hk.
  - cbn [nexts]. rewrite span_nil by lia. rewrite Z.add_0_r. reflexivity.
  - cbn [nexts]. rewrite filled_next by (auto; lia). cbn [bind].
    rewrite IH by lia. cbn [bind].
    rewrite (span_cons (lo + j)) by lia.
    replace (lo + (j + 1) + Z.of_nat k - 1) with (lo + j + Z.of_nat (S k) - 1) by lia.
    replace (lo + (j + 1)) with (lo + j + 1) by lia.
    replace (j + 1 + Z.of_nat k) with (j + Z.of_nat (S k)) by lia.
    reflexivity.
Qed.

(** X5.  A fresh allocator hands its ids out in increasing order: over a
    range [lo, hi] with min_int <= lo <= hi < max_int and hi - lo below
    [big.max_bits], k calls of [next], k at most the size of the range,
    return lo, lo + 1, ..., lo + k - 1 and leave exactly these reserved;
    once all are out, [next], given fuel for the range, reports exhaustion
    and reserves nothing more. *)
Theorem fresh_fills_in_order lo hi fuel (k : nat) :
  range_ok lo hi -> (1 <= fuel)%nat -> Z.of_nat k <= hi - lo + 1 ->
  nexts fuel k (newAllocator lo hi)
  = Ret (span lo (lo + Z.of_nat k - 1), filled lo hi (Z.of_nat k)) /\
  (enough fuel (newAllocator lo hi) ->
   exists a',
     next fuel (filled lo hi (hi - lo + 1)) = Ret (0, false, a') /\
     pool a' = Z.ones (hi - lo + 1)).
Proof.
  intros Hr Hfuel Hk. pose proof Hr as (R1 & R2 & R3 & R4).
  destruct fuel as [|fuel]; [lia|]. split.
  - rewrite filled_fresh by lia. rewrite nexts_filled by (auto; lia).
    rewrite Z.add_0_r, Z.add_0_l. reflexivity.
  - intros He.
    exists (set_follow (filled lo hi (hi - lo + 1))
              (succ_wrap (filled lo hi (hi - lo + 1))
                 (follow (filled lo hi (hi - lo + 1))))).
    split; [| reflexivity]. apply next_when_full.
    + split; cbn [low high follow filled]; [exact Hr|].
      destruct (Z.leb_spec (lo + (hi - lo + 1)) hi); lia.
    + exact He.
    + intros m Hm. cbn [low high filled] in Hm.
      rewrite reserved_total; rewrite idx_in_range;
        cbn [low high pool filled]; auto; try lia.
      f_equal. apply Z.ones_spec_low. lia.
Qed.

Lemma fresh_fills_in_order_witness :
  nexts 18 16 (newAllocator 1 16)
  = Ret (span 1 (1 + Z.of_nat 16 - 1), filled 1 16 (Z.of_nat 16)) /\
  (enough 18 (newAllocator 1 16) ->
   exists a',
     next 18 (filled 1 16 (16 - 1 + 1)) = Ret (0, false, a') /\
     pool a' = Z.ones (16 - 1 + 1)).
Proof.
  apply (fresh_fills_in_order 1 16 18 16).
  - int_facts.
  - lia.
  - lia.
Defined.

(** ** The size of the pool *)

Lemma reachable_bits lo hi a :
  range_ok lo hi -> reachable lo hi a ->
  forall i, Z.testbit (pool a) i = true -> 0 <= i <= hi - lo.
Proof.
  intros Hr R. induction R as [| a fuel n ok a' R IH N | a n a' R IH Hn N];
    intros i Hi.
  - simpl in Hi. rewrite Z.testbit_0_l in Hi. discriminate.
  - destruct (reachable_wf _ _ _ Hr R) as (L & H & W).
    destruct (next_sound _ _ _ _ _ (wf_cursor_ok _ W) N) as [p S].
    pose proof W as [Hr' Hf].
    assert (C : forall m, low a <= m <= high a ->
              Z.testbit (pool (claim a m)) i = true -> 0 <= i <= hi - lo).
    { intros m Hm Hb. unfold claim in Hb. cbn [pool] in Hb.
      rewrite idx_in_range in Hb by auto.
      rewrite Z.setbit_eqb in Hb by lia.
      destruct (Z.eqb_spec (m - low a) i) as [<- | _]; [lia|].
      apply IH. exact Hb. }
    destruct S as [m Hm _ _ | m Hm _ _ _ | _].
    + apply (C m); [lia | exact Hi].
    + apply (C m); [lia | exact Hi].
    + apply IH. exact Hi.
  - apply release_ret in N. destruct N as [H0 ->]. cbn [pool set_pool] in Hi.
    rewrite Z.clearbit_eqb in Hi. apply andb_true_iff in Hi.
    apply IH. tauto.
Qed.

Lemma above_high_clear lo hi a n :
  range_ok lo hi -> reachable lo hi a -> GoInt.in_int n -> hi < n ->
  0 <= idx a n -> Z.testbit (pool a) (idx a n) = false.
Proof.
  intros Hr R Hn Hgt Hi. pose proof Hr as (R1 & R2 & R3 & R4).
  pose proof int_bounds as [Emin Emax].
  destruct (reachable_wf _ _ _ Hr R) as (L & H & W).
  destruct (Z.testbit (pool a) (idx a n)) eqn:B; [| reflexivity].
  pose proof (reachable_bits lo hi a Hr R _ B) as Hb.
  assert (E : idx a (lo + idx a n) = idx a n).
  { rewrite idx_in_range; rewrite ?L, ?H; auto; lia. }
  apply sub_inj in E; unfold GoInt.in_int in *; rewrite ?L; lia.
Qed.

(** X6.  The pool never outgrows the range (the space bound of
    [newAllocator]'s comment): over a range [lo, hi] with
    min_int <= lo <= hi < max_int and hi - lo below [big.max_bits], in
    every reachable state the pool is a natural number below
    2^(hi - lo + 1), its bits being those of ids of the range.  So an int
    above hi never reads as reserved, and releasing one, where its bit
    position is not negative, changes nothing. *)
Theorem pool_within_range lo hi a :
  range_ok lo hi -> reachable lo hi a ->
  0 <= pool a < 2 ^ (hi - lo + 1) /\
  (forall n, GoInt.in_int n -> hi < n -> reserved a n <> Ret true) /\
  (forall n, GoInt.in_int n -> hi < n -> 0 <= idx a n -> release a n = Ret a).
Proof.
  intros Hr R. pose proof Hr as (R1 & R2 & R3 & R4).
  pose proof (reachable_bits lo hi a Hr R) as Hbits.
  assert (Hpos : 0 <= pool a).
  { destruct (Z.lt_ge_cases (pool a) 0) as [Hneg | Hge]; [| exact Hge].
    pose (n := Z.max (hi - lo + 1) (Z.log2 (Z.abs (pool a)) + 1)).
    assert (B : Z.testbit (pool a) n = true)
      by (apply Z.bits_iff_neg; [unfold n; lia | exact Hneg]).
    apply Hbits in B. unfold n in B. lia. }
  split; [split; [exact Hpos|] | split].
  - destruct (Z.eq_dec (pool a) 0) as [-> | Hne].
    + apply Z.pow_pos_nonneg; lia.
    + apply Z.log2_lt_pow2; [lia|].
      pose proof (Z.bit_log2 (pool a) ltac:(lia)) as B.
      apply Hbits in B. lia.
  - intros n Hn Hgt Hres. apply reserved_ret in Hres. destruct Hres as [Hi Hb].
    rewrite (above_high_clear lo hi a n) in Hb by auto. discriminate.
  - intros n Hn Hgt Hi. rewrite release_total by assumption. f_equal.
    apply allocator_eq; try reflexivity. cbn [pool set_pool].
    apply clearbit_unset. apply (above_high_clear lo hi a n); auto.
Qed.

Lemma pool_within_range_witness :
  0 <= pool (mkAllocator 5 3 1 3) < 2 ^ (3 - 1 + 1) /\
  (forall n, GoInt.in_int n -> 3 < n -> reserved (mkAllocator 5 3 1 3) n <> Ret true) /\
  (forall n, GoInt.in_int n -> 3 < n -> 0 <= idx (mkAllocator 5 3 1 3) n ->
     release (mkAllocator 5 3 1 3) n = Ret (mkAllocator 5 3 1 3)).
Proof.
  apply (pool_within_range 1 3 (mkAllocator 5 3 1 3)).
  - int_facts.
  - apply (reach_release 1 3 (mkAllocator 7 3 1 3) 2); [| int_facts | reflexivity].
    apply (reach_next 1 3 (mkAllocator 5 1 1 3) 4 2 true); [| reflexivity].
    apply (reach_release 1 3 (mkAllocator 7 1 1 3) 2); [| int_facts | reflexivity].
    apply (reach_next 1 3 (mkAllocator 3 3 1 3) 4 3 true); [| reflexivity].
    apply (reach_next 1 3 (mkAllocator 1 2 1 3) 4 2 true); [| reflexivity].
    apply (reach_next 1 3 (newAllocator 1 3) 4 1 true); [| reflexivity].
    apply reach_new.
Defined.

(** ** Reuse at capacity *)

(** X7.  Over a range [lo, hi] with min_int <= lo <= hi < max_int and
    hi - lo below [big.max_bits], in a reachable state with every id of
    the range reserved, releasing one of them makes exactly that id
    available: the call of [next] that follows, given fuel for the range,
    returns it, whatever the cursor, and the range is full again. *)
Theorem release_at_capacity lo hi a n fuel :
  range_ok lo hi -> reachable lo hi a ->
  (forall m, lo <= m <= hi -> reserved a m = Ret true) ->
  lo <= n <= hi -> enough fuel a ->
  exists a1 a2,
    release a n = Ret a1 /\ next fuel a1 = Ret (n, true, a2) /\
    forall m, lo <= m <= hi -> reserved a2 m = Ret true.
Proof.
  intros Hr R Hall Hn Hfuel. pose proof Hr as (R1 & R2 & R3 & R4).
  pose proof int_bounds as [Emin Emax]. pose proof max_bits_eq as Emb.
  pose proof (reachable_pool_nonneg _ _ _ R) as Hp.
  destruct (reachable_wf _ _ _ Hr R) as (L & H & W). subst lo hi.
  pose proof W as [_ Hf].
  pose proof (idx_in_range a n Hr Hn) as I.
  set (a1 := set_pool a (Z.clearbit (pool a) (idx a n))).
  assert (W1 : wf a1) by (split; cbn; auto).
  assert (Hfree : reserved a1 n = Ret false).
  { apply reserved_ret. split; [unfold idx in *; cbn; lia | apply Z.clearbit_eq]. }
  assert (Hother : forall m, low a <= m <= high a -> m <> n ->
            reserved a1 m = Ret true).
  { intros m Hm Hne. rewrite <- (Hall m Hm).
    apply (reserved_other a a1 n m); auto;
      unfold GoInt.in_int; try lia. }
  exists a1. destruct (next_returns fuel a1 W1 Hfuel) as (m & ok & a2 & p & E & S).
  exists a2. split; [apply release_total; [exact Hp | lia]|].
  assert (Hm : ok = true /\ m = n /\ a2 = claim a1 n).
  { destruct S as [m Hm Hmfree _ | m Hm Hmfree _ _ | Hfull].
    - destruct (Z.eq_dec m n) as [-> | Hne]; [auto|].
      rewrite Hother in Hmfree by (cbn in *; auto; lia). discriminate.
    - destruct (Z.eq_dec m n) as [-> | Hne]; [auto|].
      rewrite Hother in Hmfree by (cbn in *; auto; lia). discriminate.
    - specialize (Hfull n Hn). congruence. }
  destruct Hm as (-> & -> & ->). split; [exact E|].
  intros m Hm. destruct (Z.eq_dec m n) as [-> | Hne].
  - apply reserved_claim, Hfree.
  - rewrite reserved_claim_other; auto.
Qed.

Lemma release_at_capacity_witness :
  exists a1 a2,
    release (mkAllocator 7 2 1 3) 3 = Ret a1 /\ next 4 a1 = Ret (3, true, a2) /\
    forall m, 1 <= m <= 3 -> reserved a2 m = Ret true.
Proof.
  apply (release_at_capacity 1 3 (mkAllocator 7 2 1 3) 3 4).
  - int_facts.
  - apply (reach_next 1 3 (mkAllocator 7 1 1 3) 4 0 false); [| reflexivity].
    apply (reach_next 1 3 (mkAllocator 3 3 1 3) 4 3 true); [| reflexivity].
    apply (reach_next 1 3 (mkAllocator 1 2 1 3) 4 2 true); [| reflexivity].
    apply (reach_next 1 3 (newAllocator 1 3) 4 1 true); [| reflexivity].
    apply reach_new.
  - intros m Hm. assert (Hc : m = 1 \/ m = 2 \/ m = 3) by lia.
    destruct Hc as [-> | [-> | ->]]; reflexivity.
  - lia.
  - int_facts.
Defined.

(** ** An empty range *)

(** X8.  Nothing guards against high < low.  Over such an empty range,
    with low an int below the largest, the first [next] reports
    exhaustion, as it should, but steps the cursor to low + 1; the second
    loop of the following call then runs from low up to the cursor and
    hands out low, an id of no range. *)
Theorem empty_range_hands_out_low lo hi fuel :
  GoInt.in_int lo -> hi < lo -> lo < GoInt.max_int -> (1 <= fuel)%nat ->
  next fuel (newAllocator lo hi) = Ret (0, false, mkAllocator 0 (lo + 1) lo hi) /\
  next fuel (mkAllocator 0 (lo + 1) lo hi)
  = Ret (lo, true, mkAllocator 1 (lo + 1) lo hi).
Proof.
  intros Hlo Hlt Hmax Hfuel. pose proof int_bounds as [Emin Emax].
  destruct fuel as [|fuel]; [lia|].
  assert (A : GoInt.add lo 1 = lo + 1)
    by (apply add_small; unfold GoInt.in_int in *; lia).
  assert (C1 : (lo <=? hi) = false) by (apply Z.leb_gt; lia).
  assert (C2 : (lo + 1 <=? hi) = false) by (apply Z.leb_gt; lia).
  assert (C3 : (lo =? hi) = false) by (apply Z.eqb_neq; lia).
  split.
  - unfold next, next_probed, newAllocator, big.NewInt.
    cbn [scan follow high low set_follow pool]. rewrite C1.
    cbn [bind scan follow high low set_follow pool]. rewrite Z.ltb_irrefl.
    cbn [bind]. unfold advance.
    cbn [follow high low set_follow pool]. rewrite C3, A. reflexivity.
  - unfold next, next_probed. cbn [scan follow high low set_follow pool].
    rewrite C2. cbn [bind follow high low set_follow pool].
    assert (C4 : (lo <? lo + 1) = true) by (apply Z.ltb_lt; lia).
    rewrite C4.
    assert (F : reserved (mkAllocator 0 lo lo hi) lo = Ret false).
    { apply reserved_ret. unfold idx. cbn [low pool].
      rewrite sub_small by (unfold GoInt.in_int; lia).
      split; [lia | apply Z.testbit_0_l]. }
    change (set_follow (mkAllocator 0 (lo + 1) lo hi) lo)
      with (mkAllocator 0 lo lo hi).
    rewrite (reserve_claims _ _ F)
      by (unfold idx; cbn [low]; rewrite sub_small by (unfold GoInt.in_int; lia);
          rewrite max_bits_eq; lia).
    cbn [bind]. unfold advance, idx.
    cbn [follow high low set_follow set_pool pool].
    rewrite sub_small by (unfold GoInt.in_int; lia).
    rewrite C3, A, Z.sub_diag. reflexivity.
Qed.

Lemma empty_range_hands_out_low_witness :
  next 1 (newAllocator 1 0) = Ret (0, false, mkAllocator 0 (1 + 1) 1 0) /\
  next 1 (mkAllocator 0 (1 + 1) 1 0) = Ret (1, true, mkAllocator 1 (1 + 1) 1 0).
Proof.
  apply (empty_range_hands_out_low 1 0 1).
  - int_facts.
  - lia.
  - int_facts.
  - lia.
Defined.

(** ** The cost of a call *)

Lemma NoDup_upto len : forall from, NoDup (upto from len).
Proof.
  induction len as [|len IH]; intros from; simpl; constructor.
  - rewrite in_upto. lia.
  - apply IH.
Qed.

Lemma NoDup_span from to : NoDup (span from to).
Proof. apply NoDup_upto. Qed.

Lemma length_upto len : forall from, List.length (upto from len) = len.
Proof. induction len as [|len IH]; intros from; simpl; [| rewrite IH]; reflexivity. Qed.

Lemma NoDup_wrapped f hi lo n :
  n < f -> NoDup (span f hi ++ span lo n).
Proof.
  intros H. apply NoDup_app; try apply NoDup_span.
  intros m. rewrite !in_span. lia.
Qed.

(** X9.  Over a range [lo, hi] with min_int <= lo <= hi < max_int and
    hi - lo below [big.max_bits], in every reachable state and given fuel
    for the range, one call of [next] returns having examined no position
    twice and none outside [lo, hi]: at most hi - lo + 1 positions, the
    worst case of its comment.  Every position it examines and does not
    return was reserved; so with the id at the cursor free it examines
    that one position only, the usual case of the comment. *)
Theorem next_examines_once lo hi a fuel :
  range_ok lo hi -> reachable lo hi a -> enough fuel a ->
  exists n ok a' probed,
    next_probed fuel a = Ret (n, ok, a', probed) /\
    NoDup probed /\
    (forall m, In m probed -> lo <= m <= hi) /\
    (List.length probed <= Z.to_nat (hi - lo + 1))%nat /\
    (forall m, In m probed -> (ok = true /\ m = n) \/ reserved a m = Ret true) /\
    (reserved a (follow a) = Ret false -> probed = [follow a]).
Proof.
  intros Hr R Hfuel.
  destruct (reachable_wf _ _ _ Hr R) as (<- & <- & W).
  destruct (next_probed_returns fuel a W Hfuel) as [[[[n ok] a'] p] E].
  pose proof (next_probed_sound _ _ _ _ _ _ (wf_cursor_ok _ W) E) as S.
  exists n, ok, a', p. split; [exact E|].
  destruct W as [_ Hf].
  assert (Hlen : forall l : list Z, NoDup l ->
            (forall m, In m l -> low a <= m <= high a) ->
            (List.length l <= Z.to_nat (high a - low a + 1))%nat).
  { intros l Hnd Hin.
    rewrite <- (length_upto (Z.to_nat (high a - low a + 1)) (low a)).
    apply NoDup_incl_length; [exact Hnd|].
    intros m Hm. apply in_span. auto. }
  destruct S as [n Hn Hfree Hbefore | n Hn Hfree Hafter Hbefore | Hall].
  - assert (Hnd : NoDup (span (follow a) n)) by apply NoDup_span.
    assert (Hin : forall m, In m (span (follow a) n) -> low a <= m <= high a)
      by (intros m Hm; apply in_span in Hm; lia).
    split; [exact Hnd|]. split; [exact Hin|]. split; [auto|]. split.
    + intros m Hm. apply in_span in Hm.
      destruct (Z.eq_dec m n) as [-> | Hne]; [left; auto|].
      right. apply Hbefore. lia.
    + intros Hc. destruct (Z.eq_dec n (follow a)) as [-> | Hne];
        [apply span_one|].
      rewrite Hbefore in Hc by lia. discriminate.
  - assert (Hnd : NoDup (span (follow a) (high a) ++ span (low a) n))
      by (apply NoDup_wrapped; lia).
    assert (Hin : forall m, In m (span (follow a) (high a) ++ span (low a) n) ->
              low a <= m <= high a)
      by (intros m Hm; apply in_app_iff in Hm; rewrite !in_span in Hm; lia).
    split; [exact Hnd|]. split; [exact Hin|]. split; [auto|]. split.
    + intros m Hm. apply in_app_iff in Hm. rewrite !in_span in Hm.
      destruct Hm as [Hm | Hm]; [right; apply Hafter; lia|].
      destruct (Z.eq_dec m n) as [-> | Hne]; [left; auto|].
      right. apply Hbefore. lia.
    + intros Hc. rewrite Hafter in Hc by lia. discriminate.
  - assert (Hnd : NoDup (span (follow a) (high a) ++ span (low a) (follow a - 1)))
      by (apply NoDup_wrapped; lia).
    assert (Hin : forall m,
              In m (span (follow a) (high a) ++ span (low a) (follow a - 1)) ->
              low a <= m <= high a)
      by (intros m Hm; apply in_app_iff in Hm; rewrite !in_span in Hm; lia).
    split; [exact Hnd|]. split; [exact Hin|]. split; [auto|]. split.
    + intros m Hm. right. apply Hall. auto.
    + intros Hc. rewrite Hall in Hc by lia. discriminate.
Qed.

Lemma next_examines_once_witness :
  exists n ok a' probed,
    next_probed 4 (mkAllocator 5 3 1 3) = Ret (n, ok, a', probed) /\
    NoDup probed /\
    (forall m, In m probed -> 1 <= m <= 3) /\
    (List.length probed <= Z.to_nat (3 - 1 + 1))%nat /\
    (forall m, In m probed ->
       (ok = true /\ m = n) \/ reserved (mkAllocator 5 3 1 3) m = Ret true) /\
    (reserved (mkAllocator 5 3 1 3) (follow (mkAllocator 5 3 1 3)) = Ret false ->
     probed = [follow (mkAllocator 5 3 1 3)]).
Proof.
  apply (next_examines_once 1 3 (mkAllocator 5 3 1 3) 4).
  - int_facts.
  - apply (reach_release 1 3 (mkAllocator 7 3 1 3) 2); [| int_facts | reflexivity].
    apply (reach_next 1 3 (mkAllocator 5 1 1 3) 4 2 true); [| reflexivity].
    apply (reach_release 1 3 (mkAllocator 7 1 1 3) 2); [| int_facts | reflexivity].
    apply (reach_next 1 3 (mkAllocator 3 3 1 3) 4 3 true); [| reflexivity].
    apply (reach_next 1 3 (mkAllocator 1 2 1 3) 4 2 true); [| reflexivity].
    apply (reach_next 1 3 (newAllocator 1 3) 4 1 true); [| reflexivity].
    apply reach_new.
  - int_facts.
Defined.

(** ** Capacity *)

Lemma in_free_ids a m :
  wf a -> (In m (free_ids a) <-> low a <= m <= high a /\ reserved a m = Ret false).
Proof.
  intros [Hr _]. unfold free_ids. rewrite filter_In, in_span. split.
  - intros [Hm Hb]. split; [exact Hm|]. apply reserved_ret.
    rewrite idx_in_range by auto. split; [lia|].
    apply negb_true_iff. exact Hb.
  - intros [Hm Hres]. split; [exact Hm|]. apply reserved_ret in Hres.
    rewrite idx_in_range in Hres by auto. apply negb_true_iff. tauto.
Qed.

Lemma NoDup_free_ids a : NoDup (free_ids a).
Proof. apply NoDup_filter, NoDup_span. Qed.

Lemma length_one_more (l l' : list Z) n :
  NoDup l -> NoDup l' -> ~ In n l' ->
  (forall m, In m l <-> m = n \/ In m l') ->
  List.length l = S (List.length l').
Proof.
  intros Hl Hl' Hn Hiff. apply Nat.le_antisymm.
  - change (S (List.length l')) with (List.length (n :: l')).
    apply NoDup_incl_length; [exact Hl|]. intros m Hm.
    apply Hiff in Hm. destruct Hm as [-> | Hm]; [left | right]; auto.
  - change (S (List.length l')) with (List.length (n :: l')).
    apply NoDup_incl_length; [constructor; auto|]. intros m Hm.
    apply Hiff. destruct Hm as [<- | Hm]; auto.
Qed.

Lemma drain fuel : forall (c : nat) a (k : nat),
  wf a -> enough fuel a -> List.length (free_ids a) = c -> (c < k)%nat ->
  exists ids a',
    nexts fuel k a = Ret (ids, a') /\ NoDup ids /\
    (forall m, In m ids <-> In m (free_ids a)) /\
    List.length ids = c /\ free_ids a' = [] /\
    wf a' /\ low a' = low a /\ high a' = high a.
Proof.
  induction c as [|c IH]; intros a k W Hfuel Hc Hk;
    (destruct k as [|k]; [lia|]); cbn [nexts].
  - apply length_zero_iff_nil in Hc.
    assert (Hall : forall m, low a <= m <= high a -> reserved a m = Ret true).
    { intros m Hm. pose proof W as [Hr _].
      rewrite reserved_total by (rewrite idx_in_range by auto; lia).
      destruct (Z.testbit (pool a) (idx a m)) eqn:B; [reflexivity|].
      assert (Hin : In m (free_ids a)).
      { apply in_free_ids; auto. split; [exact Hm|]. apply reserved_ret.
        split; [rewrite idx_in_range by auto; lia | exact B]. }
      rewrite Hc in Hin. contradiction. }
    rewrite (next_when_full fuel a W Hfuel Hall). cbn [bind].
    exists [], (set_follow a (succ_wrap a (follow a))).
    split; [reflexivity|]. split; [constructor|]. split; [rewrite Hc; tauto|].
    split; [reflexivity|]. split; [exact Hc|].
    split; [| split; reflexivity].
    exact (next_spec_wf _ _ _ _ _ W (next_exhausted a Hall)).
  - destruct (next_returns fuel a W Hfuel) as (n & ok & a' & p & E & Sp).
    pose proof (next_spec_wf _ _ _ _ _ W Sp) as W'.
    pose proof W as [Hr Hf].
    assert (Hcase : ok = true /\ a' = claim a n /\ low a <= n <= high a /\
                    reserved a n = Ret false).
    { destruct Sp as [n Hn Hfree _ | n Hn Hfree _ _ | Hall].
      - repeat split; auto; lia.
      - repeat split; auto; lia.
      - destruct (free_ids a) as [|m l] eqn:El; [discriminate|].
        assert (Hin : In m (free_ids a)) by (rewrite El; left; reflexivity).
        apply in_free_ids in Hin; auto. destruct Hin as [Hm Hfree].
        rewrite Hall in Hfree by exact Hm. discriminate. }
    destruct Hcase as (-> & -> & Hn & Hfree).
    assert (Hin' : forall m, In m (free_ids (claim a n)) <->
                     m <> n /\ In m (free_ids a)).
    { intros m. rewrite !in_free_ids by auto. cbn [low high claim]. split.
      - intros [Hm Hres]. destruct (Z.eq_dec m n) as [-> | Hne].
        + rewrite reserved_claim in Hres by exact Hfree. discriminate.
        + rewrite reserved_claim_other in Hres by auto. auto.
      - intros [Hne [Hm Hres]]. split; [exact Hm|].
        rewrite reserved_claim_other by auto. exact Hres. }
    assert (Hlen : List.length (free_ids (claim a n)) = c).
    { assert (L : List.length (free_ids a)
                  = S (List.length (free_ids (claim a n)))).
      { apply (length_one_more _ _ n); try apply NoDup_free_ids.
        - rewrite Hin'. tauto.
        - intros m. rewrite Hin'. split.
          + intros Hm. destruct (Z.eq_dec m n); [left | right]; auto.
          + intros [-> | [_ Hm]]; [| exact Hm].
            apply in_free_ids; auto. }
      lia. }
    assert (Hk' : (c < k)%nat) by lia.
    destruct (IH (claim a n) k W' Hfuel Hlen Hk')
      as (ids & a2 & N & Hnd & Hiff & Hl & Hfull & W2 & L2 & H2).
    rewrite E. cbn [bind]. rewrite N. cbn [bind].
    exists (n :: ids), a2. split; [reflexivity|]. split.
    + constructor; [| exact Hnd]. rewrite Hiff, Hin'. tauto.
    + split; [| split; [simpl; lia | split; [exact Hfull | auto]]].
      intros m. simpl. rewrite Hiff, Hin'. split.
      * intros [<- | [_ Hm]]; [apply in_free_ids; auto | exact Hm].
      * intros Hm. destruct (Z.eq_dec n m); [left | right]; auto.
Qed.

(** X10.  The allocator's capacity is what is free: over a range
    [lo, hi] with min_int <= lo <= hi < max_int and hi - lo below
    [big.max_bits], from any reachable state and given fuel for the
    range, calling [next] more often than ids are free hands out each
    free id of the range exactly once, as many ids as are free, and then
    -- and only then -- reports exhaustion, the range being full. *)
Theorem nexts_drain_the_free_ids lo hi a fuel (k : nat) :
  range_ok lo hi -> reachable lo hi a -> enough fuel a ->
  (List.length (free_ids a) < k)%nat ->
  exists ids a',
    nexts fuel k a = Ret (ids, a') /\ NoDup ids /\
    (forall m, In m ids <-> lo <= m <= hi /\ reserved a m = Ret false) /\
    List.length ids = List.length (free_ids a) /\
    (forall m, lo <= m <= hi -> reserved a' m = Ret true).
Proof.
  intros Hr R Hfuel Hk.
  destruct (reachable_wf _ _ _ Hr R) as (<- & <- & W).
  destruct (drain fuel _ a k W Hfuel eq_refl Hk)
    as (ids & a' & N & Hnd & Hiff & Hl & Hfull & W' & L' & H').
  exists ids, a'. split; [exact N|]. split; [exact Hnd|].
  split; [| split; [exact Hl|]].
  - intros m. rewrite Hiff. apply in_free_ids, W.
  - intros m Hm. pose proof W' as [Hr' _].
    assert (Hi : idx a' m = m - low a')
      by (apply idx_in_range; [exact Hr' | lia]).
    rewrite reserved_total by lia.
    destruct (Z.testbit (pool a') (idx a' m)) eqn:B; [reflexivity|].
    assert (Hin : In m (free_ids a')).
    { apply in_free_ids; auto. split; [lia|]. apply reserved_ret.
      split; [lia | exact B]. }
    rewrite Hfull in Hin. contradiction.
Qed.

Lemma nexts_drain_the_free_ids_witness :
  exists ids a',
    nexts 4 3 (mkAllocator 5 3 1 3) = Ret (ids, a') /\ NoDup ids /\
    (forall m, In m ids <->
       1 <= m <= 3 /\ reserved (mkAllocator 5 3 1 3) m = Ret false) /\
    List.length ids = List.length (free_ids (mkAllocator 5 3 1 3)) /\
    (forall m, 1 <= m <= 3 -> reserved a' m = Ret true).
Proof.
  apply (nexts_drain_the_free_ids 1 3 (mkAllocator 5 3 1 3) 4 3).
  - int_facts.
  - apply (reach_release 1 3 (mkAllocator 7 3 1 3) 2); [| int_facts | reflexivity].
    apply (reach_next 1 3 (mkAllocator 5 1 1 3) 4 2 true); [| reflexivity].
    apply (reach_release 1 3 (mkAllocator 7 1 1 3) 2); [| int_facts | reflexivity].
    apply (reach_next 1 3 (mkAllocator 3 3 1 3) 4 3 true); [| reflexivity].
    apply (reach_next 1 3 (mkAllocator 1 2 1 3) 4 2 true); [| reflexivity].
    apply (reach_next 1 3 (newAllocator 1 3) 4 1 true); [| reflexivity].
    apply reach_new.
  - int_facts.
  - vm_compute. lia.
Defined.

(** ** The allocator away from the limits of int *)

(** X16.  Exhaustion, away from the limits: over a range [lo, hi] with
    min_int <= lo <= hi < max_int and hi - lo below [big.max_bits], in
    every reachable state and given fuel for the range, [next] returns; it
    reports exhaustion exactly when every integer of [lo, hi] is reserved,
    and otherwise returns an integer of [lo, hi] that was free before the
    call and is reserved after it. *)
Theorem next_exhausted_iff_full lo hi a fuel :
  range_ok lo hi -> reachable lo hi a -> enough fuel a ->
  exists n ok a',
    next fuel a = Ret (n, ok, a') /\
    (ok = false <-> forall m, lo <= m <= hi -> reserved a m = Ret true) /\
    (ok = true ->
     lo <= n <= hi /\ reserved a n = Ret false /\ reserved a' n = Ret true).
Proof.
  intros Hr R Hfuel.
  destruct (reachable_wf _ _ _ Hr R) as (<- & <- & W).
  destruct (next_returns fuel a W Hfuel) as (n & ok & a' & p & E & S).
  exists n, ok, a'. split; [exact E|].
  destruct W as [_ Hf].
  destruct S as [n Hn Hfree Hbefore | n Hn Hfree Hafter Hbefore | Hall].
  - split; [split; [discriminate|] | intros _].
    + intros Hall. specialize (Hall n ltac:(lia)). congruence.
    + split; [lia|]. split; [exact Hfree | apply reserved_claim, Hfree].
  - split; [split; [discriminate|] | intros _].
    + intros Hall. specialize (Hall n ltac:(lia)). congruence.
    + split; [lia|]. split; [exact Hfree | apply reserved_claim, Hfree].
  - split; [split; auto | discriminate].
Qed.

Lemma next_exhausted_iff_full_witness :
  exists n ok a',
    next 4 (newAllocator 1 3) = Ret (n, ok, a') /\
    (ok = false <-> forall m, 1 <= m <= 3 -> reserved (newAllocator 1 3) m = Ret true) /\
    (ok = true ->
     1 <= n <= 3 /\ reserved (newAllocator 1 3) n = Ret false /\
     reserved a' n = Ret true).
Proof.
  apply (next_exhausted_iff_full 1 3 (newAllocator 1 3) 4).
  - int_facts.
  - apply reach_new.
  - int_facts.
Defined.

(** X17.  Reuse, away from the limits: over a range [lo, hi] with
    min_int <= lo <= hi < max_int and hi - lo below [big.max_bits], in
    every reachable state, for every n of [lo, hi] and given fuel for the
    range, [release n] returns a state in which [reserved n] is false and
    from which calls of [next] hand n out again, no call before that one
    returning n. *)
Theorem release_then_reusable lo hi a n fuel :
  range_ok lo hi -> reachable lo hi a -> lo <= n <= hi -> enough fuel a ->
  exists a1,
    release a n = Ret a1 /\ reserved a1 n = Ret false /\ reissued fuel n a1.
Proof.
  intros Hr R Hn Hfuel.
  destruct (reachable_wf _ _ _ Hr R) as (<- & <- & W).
  pose proof W as [_ Hf]. pose proof Hr as (R1 & R2 & R3 & R4).
  pose proof (idx_in_range a n Hr Hn) as I.
  exists (set_pool a (Z.clearbit (pool a) (idx a n))).
  assert (F : reserved (set_pool a (Z.clearbit (pool a) (idx a n))) n = Ret false).
  { apply reserved_ret. unfold idx in *. simpl. split; [lia|].
    apply Z.clearbit_eq. }
  split; [apply release_total; [exact (reachable_pool_nonneg _ _ _ R) | lia]|].
  split; [exact F|].
  apply (reissue fuel n (Z.to_nat (high a - low a + 1))); auto.
  - split; simpl; auto.
  - unfold ahead. simpl. destruct (Z.leb_spec (follow a) n); lia.
Qed.

Lemma release_then_reusable_witness :
  exists a1,
    release (mkAllocator 3 3 1 3) 2 = Ret a1 /\ reserved a1 2 = Ret false /\
    reissued 4 2 a1.
Proof.
  apply (release_then_reusable 1 3 (mkAllocator 3 3 1 3) 2 4).
  - int_facts.
  - apply (reach_next 1 3 (mkAllocator 1 2 1 3) 4 2 true); [| reflexivity].
    apply (reach_next 1 3 (newAllocator 1 3) 4 1 true); [| reflexivity].
    apply reach_new.
  - lia.
  - int_facts.
Defined.

(** X18.  The rendering, away from the limits: in every state, reachable
    or not, of an allocator with min_int <= low <= high <= max_int - 2 and
    high - low < max_int, and given fuel for the range, [String] returns
    the header "allocator[low..high]" followed by the renderings of exactly
    the maximal runs of reserved integers, in increasing order: " x..y"
    for a run of two or more, " x" for a single integer, nothing for free
    integers. *)
Theorem String_renders_maximal_runs fuel a :
  string_ok a -> low a <= high a -> high a - low a + 3 <= Z.of_nat fuel ->
  exists runs,
    increasing runs /\
    (forall r, In r runs <-> maximal_run a r) /\
    String fuel a =
    Ret ("allocator[" ++ dec (low a) ++ ".." ++ dec (high a) ++ "]"
         ++ render runs)%string.
Proof.
  intros Hs Hle Hfuel. unfold String.
  destruct (String_loop_spec a Hs fuel (low a)
              ("allocator[" ++ dec (low a) ++ ".." ++ dec (high a) ++ "]")%string)
    as (runs & R & Hinc & Hiff); [lia | lia | auto |].
  exists runs. split; [exact Hinc|]. split.
  - intros r. rewrite Hiff. split; [tauto|]. intros M. split; [exact M|].
    destruct M as (M1 & _). exact M1.
  - rewrite R. f_equal. rewrite !append_assoc. reflexivity.
Qed.

Lemma String_renders_maximal_runs_witness :
  exists runs,
    increasing runs /\
    (forall r, In r runs <-> maximal_run (mkAllocator 27 (-1) (-3) 5) r) /\
    String 11 (mkAllocator 27 (-1) (-3) 5) =
    Ret ("allocator[" ++ dec (low (mkAllocator 27 (-1) (-3) 5)) ++ ".." ++
         dec (high (mkAllocator 27 (-1) (-3) 5)) ++ "]" ++ render runs)%string.
Proof.
  apply (String_renders_maximal_runs 11 (mkAllocator 27 (-1) (-3) 5)).
  - unfold string_ok. int_facts.
  - simpl. lia.
  - simpl. lia.
Defined.

Example String_sample :
  String 11 (mkAllocator 27 (-1) (-3) 5) = Ret "allocator[-3..5] -3..-2 0..1"%string.
Proof. reflexivity. Qed.

(** X19.  The cursor, away from the limits: for an allocator made by
    [newAllocator lo hi] with min_int <= lo <= hi < max_int, the cursor
    is within [lo, hi] initially and in every state reached by calls of
    [next] and of [release]; and whenever a call of [next] returns an id,
    the id lies in [lo, hi] and the cursor is left on the position after
    it, lo after hi. *)
Theorem cursor_in_range lo hi a :
  GoInt.min_int <= lo -> lo <= hi -> hi < GoInt.max_int ->
  reachable lo hi a ->
  lo <= follow (newAllocator lo hi) <= hi /\
  lo <= follow a <= hi /\
  forall fuel n a', next fuel a = Ret (n, true, a') ->
    lo <= n <= hi /\ follow a' = succ_wrap a n /\ lo <= follow a' <= hi.
Proof.
  intros H1 H2 H3 R.
  destruct (reachable_cursor_ok lo hi a H1 H2 H3 R) as (<- & <- & C).
  pose proof C as (C1 & C2 & C3).
  split; [simpl; lia|]. split; [exact C2|].
  intros fuel n a' N.
  destruct (next_sound _ _ _ _ _ C N) as [p S].
  destruct (next_spec_fields _ _ _ _ _ C S) as (_ & _ & F & I).
  split; [auto|]. split; [|exact F].
  inversion S; reflexivity.
Qed.

Lemma cursor_in_range_witness :
  1 <= follow (newAllocator 1 3) <= 3 /\
  1 <= follow (newAllocator 1 3) <= 3 /\
  forall fuel n a', next fuel (newAllocator 1 3) = Ret (n, true, a') ->
    1 <= n <= 3 /\ follow a' = succ_wrap (newAllocator 1 3) n /\
    1 <= follow a' <= 3.
Proof.
  apply (cursor_in_range 1 3 (newAllocator 1 3)).
  - int_facts.
  - lia.
  - int_facts.
  - apply reach_new.
Defined.

(** * The integration tests' checksummed message bodies: proofs *)

(** ** Bytes and 32-bit words *)

Lemma byte_val_byte_of z : Crc.byte_val (Crc.byte_of z) = z mod 256.
Proof.
  unfold Crc.byte_val, Crc.byte_of.
  pose proof (Z.mod_pos_bound z 256 ltac:(lia)) as Hm.
  destruct (Byte.of_N (Z.to_N (z mod 256))) as [b|] eqn:E.
  - apply Byte.to_of_N in E. rewrite E. lia.
  - apply Byte.of_N_None_iff in E. lia.
Qed.

Lemma byte_val_range b : 0 <= Crc.byte_val b < 256.
Proof.
  unfold Crc.byte_val. pose proof (Byte.to_N_bounded b). lia.
Qed.

Lemma byte_of_byte_val b : Crc.byte_of (Crc.byte_val b) = b.
Proof.
  unfold Crc.byte_of. rewrite Z.mod_small by apply byte_val_range.
  unfold Crc.byte_val. rewrite N2Z.id, Byte.of_to_N. reflexivity.
Qed.

Lemma lor_shiftl a b n :
  0 <= n -> 0 <= a < 2 ^ n -> Z.lor a (Z.shiftl b n) = a + b * 2 ^ n.
Proof.
  intros Hn Ha.
  assert (D : Z.land a (Z.shiftl b n) = 0).
  { apply Z.bits_inj'. intros m Hm. rewrite Z.land_spec, Z.bits_0.
    destruct (Z.lt_ge_cases m n) as [Hlt | Hge].
    - rewrite Z.shiftl_spec_low by auto. apply andb_false_r.
    - destruct (Z.eq_dec a 0) as [-> | Hne]; [rewrite Z.bits_0; reflexivity|].
      rewrite (Z.bits_above_log2 a m); [reflexivity | lia |].
      apply Z.log2_lt_pow2; [lia|].
      apply Z.lt_le_trans with (2 ^ n); [lia|].
      apply Z.pow_le_mono_r; lia. }
  rewrite <- Z.lxor_lor, <- Z.add_nocarry_lxor by exact D.
  rewrite Z.shiftl_mul_pow2 by exact Hn. reflexivity.
Qed.

(** The word of four bytes, most significant first. *)
Lemma word_value b0 b1 b2 b3 :
  Crc.word b0 b1 b2 b3
  = Crc.byte_val b3 + 256 * Crc.byte_val b2
    + 65536 * Crc.byte_val b1 + 16777216 * Crc.byte_val b0.
Proof.
  unfold Crc.word.
  pose proof (byte_val_range b0). pose proof (byte_val_range b1).
  pose proof (byte_val_range b2). pose proof (byte_val_range b3).
  rewrite (lor_shiftl _ _ 8) by lia.
  rewrite (lor_shiftl _ _ 16) by lia.
  rewrite (lor_shiftl _ _ 24) by lia.
  change (2 ^ 8) with 256. change (2 ^ 16) with 65536.
  change (2 ^ 24) with 16777216. lia.
Qed.

Lemma word_range b0 b1 b2 b3 : 0 <= Crc.word b0 b1 b2 b3 < 2 ^ 32.
Proof.
  rewrite word_value.
  pose proof (byte_val_range b0). pose proof (byte_val_range b1).
  pose proof (byte_val_range b2). pose proof (byte_val_range b3).
  change (2 ^ 32) with 4294967296. lia.
Qed.

(** Two words of four bytes are equal only if the bytes are. *)
Lemma word_inj a0 a1 a2 a3 b0 b1 b2 b3 :
  Crc.word a0 a1 a2 a3 = Crc.word b0 b1 b2 b3 ->
  a0 = b0 /\ a1 = b1 /\ a2 = b2 /\ a3 = b3.
Proof.
  rewrite !word_value. intros H.
  pose proof (byte_val_range a0). pose proof (byte_val_range a1).
  pose proof (byte_val_range a2). pose proof (byte_val_range a3).
  pose proof (byte_val_range b0). pose proof (byte_val_range b1).
  pose proof (byte_val_range b2). pose proof (byte_val_range b3).
  assert (E0 : Crc.byte_val a0 = Crc.byte_val b0) by lia.
  assert (E1 : Crc.byte_val a1 = Crc.byte_val b1) by lia.
  assert (E2 : Crc.byte_val a2 = Crc.byte_val b2) by lia.
  assert (E3 : Crc.byte_val a3 = Crc.byte_val b3) by lia.
  rewrite <- (byte_of_byte_val a0), <- (byte_of_byte_val a1),
    <- (byte_of_byte_val a2), <- (byte_of_byte_val a3), E0, E1, E2, E3,
    !byte_of_byte_val.
  auto.
Qed.

(** Four bytes are read back as the word they were written from. *)
Lemma word_bytes32 v :
  0 <= v < 2 ^ 32 ->
  Crc.word (Crc.byte_of (Z.shiftr v 24)) (Crc.byte_of (Z.shiftr v 16))
           (Crc.byte_of (Z.shiftr v 8)) (Crc.byte_of v) = v.
Proof.
  intros Hv. rewrite word_value.
  rewrite !byte_val_byte_of, !Z.shiftr_div_pow2 by lia.
  change (2 ^ 8) with 256. change (2 ^ 16) with (256 * 256).
  change (2 ^ 24) with (256 * 256 * 256).
  rewrite <- !Z.div_div by lia.
  change (2 ^ 32) with 4294967296 in Hv.
  pose proof (Z.div_mod v 256 ltac:(lia)).
  pose proof (Z.div_mod (v / 256) 256 ltac:(lia)).
  pose proof (Z.div_mod (v / 256 / 256) 256 ltac:(lia)).
  assert (0 <= v / 256 / 256 / 256 < 256).
  { split; [repeat apply Z.div_pos; lia|].
    repeat apply Z.div_lt_upper_bound; lia. }
  rewrite (Z.mod_small (v / 256 / 256 / 256)) by lia. lia.
Qed.

(** And a word is written as the four bytes it was read from. *)
Lemma bytes32_word b0 b1 b2 b3 :
  Crc.bytes32 (Crc.word b0 b1 b2 b3) = [b0; b1; b2; b3].
Proof.
  pose proof (word_bytes32 _ (word_range b0 b1 b2 b3)) as H.
  apply word_inj in H. destruct H as (E0 & E1 & E2 & E3).
  unfold Crc.bytes32. rewrite E0, E1, E2, E3. reflexivity.
Qed.

Lemma bytes32_inj v w :
  0 <= v < 2 ^ 32 -> 0 <= w < 2 ^ 32 -> Crc.bytes32 v = Crc.bytes32 w -> v = w.
Proof.
  intros Hv Hw E. rewrite <- (word_bytes32 v Hv), <- (word_bytes32 w Hw).
  unfold Crc.bytes32 in E. injection E as -> -> -> ->. reflexivity.
Qed.

(** ** Slices *)

Lemma elems_array s :
  Crc.array s = Crc.elems s ++ skipn (Crc.len s) (Crc.array s).
Proof. unfold Crc.elems. symmetry. apply firstn_skipn. Qed.

Lemma length_elems s :
  (Crc.len s <= Crc.cap s)%nat -> List.length (Crc.elems s) = Crc.len s.
Proof. unfold Crc.elems, Crc.cap. intros H. apply firstn_length_le, H. Qed.

(** ** assertMessageCrc32 *)

Lemma assert_short (crc32 : list byte -> Z) msg label :
  (Crc.len msg < 8)%nat ->
  Crc.assertMessageCrc32 crc32 msg label = Crc.Crash Crc.slice_bounds.
Proof.
  intros Hlen. unfold Crc.assertMessageCrc32, Crc.slice_to.
  destruct (Nat.leb_spec 4 (Crc.cap msg)) as [Hc | Hc]; [| reflexivity].
  cbn [Crc.tbind].
  assert (U : exists w, Crc.Uint32 (Crc.mkSlice (Crc.array msg) 4) = Crc.Pass w).
  { unfold Crc.Uint32, Crc.elems, Crc.cap in *. cbn [Crc.array Crc.len].
    destruct (Crc.array msg) as [|b0 [|b1 [|b2 [|b3 l]]]]; simpl in Hc; try lia.
    eexists. reflexivity. }
  destruct U as [w ->]. cbn [Crc.tbind]. unfold Crc.slice_from.
  destruct (Nat.leb_spec 8 (Crc.len msg)) as [H | H]; [lia | reflexivity].
Qed.

(** What the two checks compare, on a message of eight bytes or more. *)
Lemma assert_long (crc32 : list byte -> Z) msg label h0 h1 h2 h3 c0 c1 c2 c3 body :
  Crc.slice_ok msg ->
  Crc.elems msg = h0 :: h1 :: h2 :: h3 :: c0 :: c1 :: c2 :: c3 :: body ->
  Crc.assertMessageCrc32 crc32 msg label
  = if negb (Crc.word c0 c1 c2 c3 =? crc32 body) then
      Crc.Fatal ("Message does not match CRC: " ++ label)%string
    else if negb (Crc.word h0 h1 h2 h3 =? Z.of_nat (List.length body)) then
      Crc.Fatal ("Message does not match size, should="
                 ++ dec (Crc.word h0 h1 h2 h3) ++ ", is="
                 ++ dec (Z.of_nat (List.length body)) ++ ": " ++ label)%string
    else Crc.Pass tt.
Proof.
  intros [Hlc Hcap] E.
  pose proof (length_elems msg Hlc) as L. rewrite E in L. simpl in L.
  pose proof (elems_array msg) as A. rewrite E in A.
  destruct msg as [arr n]. cbn [Crc.array Crc.len Crc.cap] in *.
  subst n. set (rest := skipn _ arr) in A. clearbody rest. subst arr.
  assert (S8 : GoInt.sub (Z.of_nat (S (S (S (S (S (S (S (S (List.length body))))))))))
                 8 = Z.of_nat (List.length body)).
  { rewrite sub_small; [lia|].
    unfold Crc.cap in Hcap. cbn [Crc.array] in Hcap.
    simpl List.length in Hcap. rewrite length_app in Hcap.
    pose proof int_bounds as [? ?]. unfold GoInt.in_int. lia. }
  unfold Crc.assertMessageCrc32.
  unfold Crc.slice_to, Crc.slice_from, Crc.slice_range, Crc.Uint32, Crc.elems,
    Crc.cap.
  cbn [Crc.array Crc.len Crc.tbind List.length Nat.leb andb firstn skipn app
       Nat.sub].
  rewrite S8, Nat.sub_0_r, firstn_app, firstn_all, Nat.sub_diag.
  cbn [firstn]. rewrite app_nil_r. reflexivity.
Qed.

(** A message passes exactly if it is the length of its payload, the
    checksum of its payload and the payload. *)
Lemma assert_passes_iff (crc32 : list byte -> Z) msg label :
  (forall p, 0 <= crc32 p < 2 ^ 32) ->
  Crc.slice_ok msg ->
  (Crc.assertMessageCrc32 crc32 msg label = Crc.Pass tt <->
   exists body,
     Z.of_nat (List.length body) < 2 ^ 32 /\
     Crc.elems msg = Crc.bytes32 (Z.of_nat (List.length body))
                     ++ Crc.bytes32 (crc32 body) ++ body).
Proof.
  intros Hcrc Hok. split.
  - intros P.
    destruct (Nat.lt_ge_cases (Crc.len msg) 8) as [Hs | Hl].
    { rewrite assert_short in P by exact Hs. discriminate. }
    pose proof (length_elems msg (proj1 Hok)) as L.
    destruct (Crc.elems msg)
      as [|h0 [|h1 [|h2 [|h3 [|c0 [|c1 [|c2 [|c3 body]]]]]]]] eqn:E;
      simpl in L; try lia.
    rewrite (assert_long crc32 msg label _ _ _ _ _ _ _ _ _ Hok E) in P.
    destruct (Z.eqb_spec (Crc.word c0 c1 c2 c3) (crc32 body)) as [Ec | _];
      [| discriminate].
    destruct (Z.eqb_spec (Crc.word h0 h1 h2 h3) (Z.of_nat (List.length body)))
      as [Eh | _]; [| discriminate].
    exists body. rewrite <- Eh, <- Ec, !bytes32_word. split.
    + apply word_range.
    + reflexivity.
  - intros (body & Hb & E).
    unfold Crc.bytes32 in E. cbn [app] in E.
    rewrite (assert_long crc32 msg label _ _ _ _ _ _ _ _ _ Hok E).
    rewrite !word_bytes32 by (try apply Hcrc; lia).
    rewrite !Z.eqb_refl. reflexivity.
Qed.

(** ** generateCrc32Random *)

Lemma ReadFull_ok r buf :
  Crc.read_err r = None \/ Crc.len buf = O ->
  Crc.ReadFull r buf
  = inr (Crc.mkSlice (map (Crc.read_byte r) (seq 0 (Crc.len buf))
                      ++ skipn (Crc.len buf) (Crc.array buf)) (Crc.len buf)).
Proof.
  unfold Crc.ReadFull. intros [-> | ->]; [destruct (Crc.len buf) |]; reflexivity.
Qed.

Lemma make_ok maxAlloc n :
  0 <= n <= maxAlloc ->
  Crc.make maxAlloc n
  = Crc.Pass (Crc.mkSlice (repeat x00 (Z.to_nat n)) (Z.to_nat n)).
Proof.
  intros H. unfold Crc.make.
  destruct (Z.ltb_spec n 0); [lia|]. destruct (Z.ltb_spec maxAlloc n); [lia|].
  reflexivity.
Qed.

Lemma skipn_repeat {A : Type} (x : A) n : skipn n (repeat x n) = [].
Proof. apply skipn_all2. rewrite repeat_length. lia. Qed.

(** The message made for a size that leaves room for the header. *)
Lemma generate_value (crc32 : list byte -> Z) maxAlloc r size :
  0 <= size <= GoInt.max_int - 8 -> size + 8 <= maxAlloc ->
  Crc.read_err r = None ->
  Crc.generateCrc32Random crc32 maxAlloc r size
  = Crc.Pass
      (Crc.mkSlice
         (Crc.bytes32 (Crc.uint32 size)
          ++ Crc.bytes32 (crc32 (map (Crc.read_byte r) (seq 8 (Z.to_nat size))))
          ++ map (Crc.read_byte r) (seq 8 (Z.to_nat size)))
         (8 + Z.to_nat size)).
Proof.
  intros Hs Hm Hr. unfold Crc.generateCrc32Random.
  assert (A8 : GoInt.add size 8 = size + 8).
  { apply add_small. pose proof int_bounds as [? ?]. unfold GoInt.in_int. lia. }
  rewrite A8, make_ok by lia. cbn [Crc.tbind].
  rewrite ReadFull_ok by (left; exact Hr).
  cbn [Crc.array Crc.len]. rewrite skipn_repeat, app_nil_r.
  replace (Z.to_nat (size + 8)) with (8 + Z.to_nat size)%nat by lia.
  set (m := Z.to_nat size).
  unfold Crc.slice_from, Crc.slice_range, Crc.PutUint32, Crc.through, Crc.elems,
    Crc.cap, Crc.bytes32.
  cbn [Crc.array Crc.len Crc.tbind List.length Nat.leb andb firstn skipn app
       Nat.sub Nat.add seq map].
  rewrite Nat.sub_0_r.
  replace (firstn m (map (Crc.read_byte r) (seq 8 m)))
    with (map (Crc.read_byte r) (seq 8 m))
    by (symmetry; apply firstn_all2; rewrite length_map, length_seq; lia).
  reflexivity.
Qed.

Lemma ChecksumIEEE_range p : 0 <= Crc.ChecksumIEEE p < 2 ^ 32.
Proof.
  assert (X : forall a b, 0 <= a < 2 ^ 32 -> 0 <= b < 2 ^ 32 ->
                0 <= Z.lxor a b < 2 ^ 32).
  { intros a b Ha Hb. split; [apply Z.lxor_nonneg; lia|].
    destruct (Z.eq_dec (Z.lxor a b) 0) as [-> | Hne]; [lia|].
    apply Z.log2_lt_pow2; [pose proof (Z.lxor_nonneg a b); lia|].
    pose proof (Z.log2_lxor a b ltac:(lia) ltac:(lia)) as Hl.
    assert (La : Z.log2 a < 32).
    { destruct (Z.eq_dec a 0) as [-> | ?]; [simpl; lia|].
      apply Z.log2_lt_pow2; lia. }
    assert (Lb : Z.log2 b < 32).
    { destruct (Z.eq_dec b 0) as [-> | ?]; [simpl; lia|].
      apply Z.log2_lt_pow2; lia. }
    lia. }
  assert (R : forall c, 0 <= c < 2 ^ 32 -> 0 <= Z.shiftr c 1 < 2 ^ 32).
  { intros c Hc. rewrite Z.shiftr_div_pow2 by lia. change (2 ^ 1) with 2.
    split; [apply Z.div_pos; lia|].
    apply Z.div_lt_upper_bound; lia. }
  assert (St : forall c, 0 <= c < 2 ^ 32 ->
                 0 <= (if Z.testbit c 0 then Z.lxor (Z.shiftr c 1) Crc.IEEE
                       else Z.shiftr c 1) < 2 ^ 32).
  { intros c Hc. destruct (Z.testbit c 0); [apply X|]; auto.
    unfold Crc.IEEE. lia. }
  assert (En : forall i, 0 <= i < 2 ^ 32 -> 0 <= Crc.entry i < 2 ^ 32).
  { intros i Hi. unfold Crc.entry. cbn [Nat.iter nat_rect]. auto 10. }
  assert (F : forall l c, 0 <= c < 2 ^ 32 ->
     0 <= fold_left (fun crc v =>
            Z.lxor (Crc.entry (Z.lxor (crc mod 256) (Crc.byte_val v)))
                   (Z.shiftr crc 8)) l c < 2 ^ 32).
  { induction l as [|v l IH]; intros c Hc; [exact Hc|].
    cbn [fold_left]. apply IH. apply X.
    - apply En. apply X.
      + pose proof (Z.mod_pos_bound c 256 ltac:(lia)). lia.
      + pose proof (byte_val_range v). lia.
    - rewrite Z.shiftr_div_pow2 by lia. change (2 ^ 8) with 256.
      split; [apply Z.div_pos; lia|]. apply Z.div_lt_upper_bound; lia. }
  unfold Crc.ChecksumIEEE. apply X; [apply F|]; simpl; lia.
Qed.

(** * Further properties: the checksummed message bodies *)

(** X11.  What [generateCrc32Random] makes, [assertMessageCrc32] accepts:
    for a size that fits 32 bits and that [make] allocates, and a reader
    that does not fail, the helper returns a message of [size + 8] bytes
    whose payload is the bytes read from position 8 on; that message, and
    any slice holding the same bytes, passes both checks. *)
Theorem generated_body_passes (crc32 : list byte -> Z) maxAlloc r size label :
  (forall p, 0 <= crc32 p < 2 ^ 32) ->
  0 <= size < 2 ^ 32 -> size + 8 <= maxAlloc -> Crc.read_err r = None ->
  exists msg,
    Crc.generateCrc32Random crc32 maxAlloc r size = Crc.Pass msg /\
    Crc.slice_ok msg /\
    Z.of_nat (Crc.len msg) = size + 8 /\
    skipn 8 (Crc.elems msg) = map (Crc.read_byte r) (seq 8 (Z.to_nat size)) /\
    forall msg', Crc.slice_ok msg' -> Crc.elems msg' = Crc.elems msg ->
      Crc.assertMessageCrc32 crc32 msg' label = Crc.Pass tt.
Proof.
  intros Hcrc Hs Hm Hr. pose proof int_bounds as [Imin Imax].
  change (2 ^ 32) with 4294967296 in Hs.
  eexists. split; [apply generate_value; [lia | lia | exact Hr]|].
  set (body := map (Crc.read_byte r) (seq 8 (Z.to_nat size))).
  assert (Lb : List.length body = Z.to_nat size)
    by (unfold body; rewrite length_map, length_seq; reflexivity).
  assert (E : Crc.elems
                (Crc.mkSlice
                   (Crc.bytes32 (Crc.uint32 size) ++ Crc.bytes32 (crc32 body) ++ body)
                   (8 + Z.to_nat size))
              = Crc.bytes32 (Crc.uint32 size) ++ Crc.bytes32 (crc32 body) ++ body).
  { unfold Crc.elems. cbn [Crc.array Crc.len]. apply firstn_all2.
    rewrite !length_app, Lb. simpl. lia. }
  split; [| split; [| split]].
  - unfold Crc.slice_ok, Crc.cap. cbn [Crc.array Crc.len].
    rewrite !length_app, Lb. simpl List.length. lia.
  - cbn [Crc.len]. lia.
  - rewrite E. reflexivity.
  - intros msg' Hok E'. apply assert_passes_iff; auto.
    exists body. rewrite Lb, E', E, Z2Nat.id by lia.
    unfold Crc.uint32. rewrite Z.mod_small by (change (2 ^ 32) with 4294967296; lia).
    split; [change (2 ^ 32) with 4294967296; lia | reflexivity].
Qed.

Lemma generated_body_passes_witness :
  exists msg,
    Crc.generateCrc32Random Crc.ChecksumIEEE 1024 Crc.counting 3 = Crc.Pass msg /\
    Crc.slice_ok msg /\
    Z.of_nat (Crc.len msg) = 3 + 8 /\
    skipn 8 (Crc.elems msg)
    = map (Crc.read_byte Crc.counting) (seq 8 (Z.to_nat 3)) /\
    forall msg', Crc.slice_ok msg' -> Crc.elems msg' = Crc.elems msg ->
      Crc.assertMessageCrc32 Crc.ChecksumIEEE msg' "missed match at 0"
      = Crc.Pass tt.
Proof.
  apply (generated_body_passes Crc.ChecksumIEEE 1024 Crc.counting 3
           "missed match at 0").
  - exact ChecksumIEEE_range.
  - lia.
  - lia.
  - reflexivity.
Defined.

(** X12.  Sizes [generateCrc32Random] is not made for.  A size whose sum
    with 8 is negative (the sum wraps past the largest int) or more than
    [make] allocates panics in [make]; a size from -8 to -1 panics at
    [msg[8:]]; a failing reader ends the test; and a size of 2^32 or more
    gives a message that [assertMessageCrc32] rejects, its size field
    holding the size modulo 2^32. *)
Theorem generate_outside_uint32 (crc32 : list byte -> Z) maxAlloc r size label :
  (forall p, 0 <= crc32 p < 2 ^ 32) ->
  GoInt.in_int size ->
  (size < -8 \/ GoInt.max_int - 8 < size \/
   (size <= GoInt.max_int - 8 /\ maxAlloc < size + 8) ->
   Crc.generateCrc32Random crc32 maxAlloc r size = Crc.Crash Crc.makeslice_len) /\
  (-8 <= size < 0 -> size + 8 <= maxAlloc ->
   size = -8 \/ Crc.read_err r = None ->
   Crc.generateCrc32Random crc32 maxAlloc r size = Crc.Crash Crc.slice_bounds) /\
  (forall err, -8 < size <= GoInt.max_int - 8 -> size + 8 <= maxAlloc ->
   Crc.read_err r = Some err ->
   Crc.generateCrc32Random crc32 maxAlloc r size
   = Crc.Fatal ("could not get random data: " ++ err)%string) /\
  (2 ^ 32 <= size <= GoInt.max_int - 8 -> size + 8 <= maxAlloc ->
   Crc.read_err r = None ->
   exists msg,
     Crc.generateCrc32Random crc32 maxAlloc r size = Crc.Pass msg /\
     Crc.assertMessageCrc32 crc32 msg label
     = Crc.Fatal ("Message does not match size, should="
                  ++ dec (size mod 2 ^ 32) ++ ", is=" ++ dec size
                  ++ ": " ++ label)%string).
Proof.
  intros Hcrc Hi. pose proof int_bounds as [Imin Imax].
  unfold GoInt.in_int in Hi. rewrite Imin, Imax in *.
  split; [| split; [| split]].
  - intros H. unfold Crc.generateCrc32Random, Crc.make.
    assert (C : ((GoInt.add size 8 <? 0) || (maxAlloc <? GoInt.add size 8))%bool
                = true).
    { apply orb_true_iff. destruct H as [H | [H | [H1 H2]]].
      - left. apply Z.ltb_lt. rewrite add_small; unfold GoInt.in_int; lia.
      - left. apply Z.ltb_lt. unfold GoInt.add, GoInt.wrap, GoInt.size.
        change (2 ^ (64 - 1)) with 9223372036854775808.
        change (2 ^ 64) with 18446744073709551616.
        replace (size + 8 + 9223372036854775808)
          with (size + 8 - 9223372036854775808 + 1 * 18446744073709551616) by lia.
        rewrite Z.mod_add, Z.mod_small by lia. lia.
      - right. apply Z.ltb_lt. rewrite add_small; unfold GoInt.in_int; lia. }
    rewrite C. reflexivity.
  - intros Hs Hm Hr. unfold Crc.generateCrc32Random.
    rewrite add_small by (unfold GoInt.in_int; lia).
    rewrite make_ok by lia. cbn [Crc.tbind].
    rewrite ReadFull_ok
      by (cbn [Crc.len]; destruct Hr as [-> | ->]; [right; reflexivity | left; reflexivity]).
    cbn [Crc.len Crc.array]. unfold Crc.slice_from. cbn [Crc.len].
    destruct (Nat.leb_spec 8 (Z.to_nat (size + 8))) as [H | H]; [lia|].
    reflexivity.
  - intros err Hs Hm Hr. unfold Crc.generateCrc32Random.
    rewrite add_small by (unfold GoInt.in_int; lia).
    rewrite make_ok by lia. cbn [Crc.tbind].
    unfold Crc.ReadFull. cbn [Crc.len]. rewrite Hr.
    destruct (Z.to_nat (size + 8)) eqn:E; [lia | reflexivity].
  - intros Hs Hm Hr. change (2 ^ 32) with 4294967296 in *.
    eexists. split; [apply generate_value; [lia | lia | exact Hr]|].
    set (body := map (Crc.read_byte r) (seq 8 (Z.to_nat size))).
    assert (Lb : List.length body = Z.to_nat size)
      by (unfold body; rewrite length_map, length_seq; reflexivity).
    erewrite assert_long.
    2:{ unfold Crc.slice_ok, Crc.cap. cbn [Crc.array Crc.len].
        rewrite !length_app, Lb. simpl List.length. lia. }
    2:{ unfold Crc.elems. cbn [Crc.array Crc.len]. rewrite firstn_all2.
        - unfold Crc.bytes32. cbn [app]. reflexivity.
        - rewrite !length_app, Lb. simpl. lia. }
    rewrite !word_bytes32.
    2:{ unfold Crc.uint32. change (2 ^ 32) with 4294967296.
        apply Z.mod_pos_bound. lia. }
    2:{ apply Hcrc. }
    rewrite Z.eqb_refl. cbn [negb]. rewrite Lb, Z2Nat.id by lia.
    unfold Crc.uint32. change (2 ^ 32) with 4294967296.
    destruct (Z.eqb_spec (size mod 4294967296) size) as [E | _]; [| reflexivity].
    pose proof (Z.mod_pos_bound size 4294967296 ltac:(lia)). lia.
Qed.

Lemma generate_outside_uint32_witness :
  (-3 < -8 \/ GoInt.max_int - 8 < -3 \/
   (-3 <= GoInt.max_int - 8 /\ 1024 < -3 + 8) ->
   Crc.generateCrc32Random Crc.ChecksumIEEE 1024 Crc.counting (-3)
   = Crc.Crash Crc.makeslice_len) /\
  (-8 <= -3 < 0 -> -3 + 8 <= 1024 ->
   -3 = -8 \/ Crc.read_err Crc.counting = None ->
   Crc.generateCrc32Random Crc.ChecksumIEEE 1024 Crc.counting (-3)
   = Crc.Crash Crc.slice_bounds) /\
  (forall err, -8 < -3 <= GoInt.max_int - 8 -> -3 + 8 <= 1024 ->
   Crc.read_err Crc.counting = Some err ->
   Crc.generateCrc32Random Crc.ChecksumIEEE 1024 Crc.counting (-3)
   = Crc.Fatal ("could not get random data: " ++ err)%string) /\
  (2 ^ 32 <= -3 <= GoInt.max_int - 8 -> -3 + 8 <= 1024 ->
   Crc.read_err Crc.counting = None ->
   exists msg,
     Crc.generateCrc32Random Crc.ChecksumIEEE 1024 Crc.counting (-3)
     = Crc.Pass msg /\
     Crc.assertMessageCrc32 Crc.ChecksumIEEE msg "missed match at 0"
     = Crc.Fatal ("Message does not match size, should="
                  ++ dec (-3 mod 2 ^ 32) ++ ", is=" ++ dec (-3)
                  ++ ": " ++ "missed match at 0")%string).
Proof.
  apply (generate_outside_uint32 Crc.ChecksumIEEE 1024 Crc.counting (-3)
           "missed match at 0").
  - exact ChecksumIEEE_range.
  - int_facts.
Defined.

(** X13.  What passes is pinned down.  Of a message that passes, no other
    message with the same first four bytes and another length passes, and
    none with the same payload and other bytes before it: a body that
    lost or gained bytes on the way, or whose header was damaged, is
    reported. *)
Theorem damaged_body_is_rejected (crc32 : list byte -> Z) msg msg' label label' :
  (forall p, 0 <= crc32 p < 2 ^ 32) ->
  Crc.slice_ok msg -> Crc.slice_ok msg' ->
  Crc.assertMessageCrc32 crc32 msg label = Crc.Pass tt ->
  (firstn 4 (Crc.elems msg') = firstn 4 (Crc.elems msg) ->
   Crc.len msg' <> Crc.len msg ->
   Crc.assertMessageCrc32 crc32 msg' label' <> Crc.Pass tt) /\
  (skipn 8 (Crc.elems msg') = skipn 8 (Crc.elems msg) ->
   Crc.elems msg' <> Crc.elems msg ->
   Crc.assertMessageCrc32 crc32 msg' label' <> Crc.Pass tt).
Proof.
  intros Hcrc Hok Hok' P.
  apply (assert_passes_iff crc32 msg label Hcrc Hok) in P.
  destruct P as (body & Hb & E).
  split.
  - intros Hh Hl P'.
    apply (assert_passes_iff crc32 msg' label' Hcrc Hok') in P'.
    destruct P' as (body' & Hb' & E').
    apply Hl. rewrite <- (length_elems msg (proj1 Hok)),
      <- (length_elems msg' (proj1 Hok')), E, E'.
    rewrite E, E' in Hh. unfold Crc.bytes32 at 1 3 in Hh. cbn [app firstn] in Hh.
    assert (Z.of_nat (List.length body') = Z.of_nat (List.length body)).
    { apply bytes32_inj; [lia | lia |]. exact Hh. }
    rewrite !length_app. unfold Crc.bytes32. simpl List.length. lia.
  - intros Hp Hne P'.
    apply (assert_passes_iff crc32 msg' label' Hcrc Hok') in P'.
    destruct P' as (body' & Hb' & E').
    apply Hne. rewrite E, E' in *.
    unfold Crc.bytes32 in Hp. cbn [app skipn] in Hp. subst body'. reflexivity.
Qed.

Lemma damaged_body_is_rejected_witness :
  (firstn 4 (Crc.elems (Crc.mkSlice [x00; x00; x00; x00; x00; x00; x00; x00; x2a] 9))
   = firstn 4 (Crc.elems (Crc.mkSlice [x00; x00; x00; x00; x00; x00; x00; x00] 8)) ->
   Crc.len (Crc.mkSlice [x00; x00; x00; x00; x00; x00; x00; x00; x2a] 9)
   <> Crc.len (Crc.mkSlice [x00; x00; x00; x00; x00; x00; x00; x00] 8) ->
   Crc.assertMessageCrc32 Crc.ChecksumIEEE
     (Crc.mkSlice [x00; x00; x00; x00; x00; x00; x00; x00; x2a] 9) "at 1"
   <> Crc.Pass tt) /\
  (skipn 8 (Crc.elems (Crc.mkSlice [x00; x00; x00; x00; x00; x00; x00; x00; x2a] 9))
   = skipn 8 (Crc.elems (Crc.mkSlice [x00; x00; x00; x00; x00; x00; x00; x00] 8)) ->
   Crc.elems (Crc.mkSlice [x00; x00; x00; x00; x00; x00; x00; x00; x2a] 9)
   <> Crc.elems (Crc.mkSlice [x00; x00; x00; x00; x00; x00; x00; x00] 8) ->
   Crc.assertMessageCrc32 Crc.ChecksumIEEE
     (Crc.mkSlice [x00; x00; x00; x00; x00; x00; x00; x00; x2a] 9) "at 1"
   <> Crc.Pass tt).
Proof.
  apply (damaged_body_is_rejected Crc.ChecksumIEEE
           (Crc.mkSlice [x00; x00; x00; x00; x00; x00; x00; x00] 8)
           (Crc.mkSlice [x00; x00; x00; x00; x00; x00; x00; x00; x2a] 9)
           "at 0" "at 1").
  - exact ChecksumIEEE_range.
  - unfold Crc.slice_ok. vm_compute. split; [lia | discriminate].
  - unfold Crc.slice_ok. vm_compute. split; [lia | discriminate].
  - vm_compute. reflexivity.
Defined.

(** X14.  [assertMessageCrc32] passes exactly the messages of the format
    [generateCrc32Random] writes: the length of the payload in four bytes,
    most significant first, the checksum of the payload likewise, and the
    payload.  A message of fewer than eight bytes makes it panic on a
    slice bound, before either check. *)
Theorem assert_passes_the_format (crc32 : list byte -> Z) msg label :
  (forall p, 0 <= crc32 p < 2 ^ 32) ->
  Crc.slice_ok msg ->
  (Crc.assertMessageCrc32 crc32 msg label = Crc.Pass tt <->
   exists body,
     Z.of_nat (List.length body) < 2 ^ 32 /\
     Crc.elems msg = Crc.bytes32 (Z.of_nat (List.length body))
                     ++ Crc.bytes32 (crc32 body) ++ body) /\
  ((Crc.len msg < 8)%nat ->
   Crc.assertMessageCrc32 crc32 msg label = Crc.Crash Crc.slice_bounds).
Proof.
  intros Hcrc Hok. split.
  - apply assert_passes_iff; assumption.
  - apply assert_short.
Qed.

Lemma assert_passes_the_format_witness :
  (Crc.assertMessageCrc32 Crc.ChecksumIEEE
     (Crc.mkSlice [x00; x00; x00; x01; xd2; x02; xef; x8d; x00; xff] 9) "at 0"
   = Crc.Pass tt <->
   exists body,
     Z.of_nat (List.length body) < 2 ^ 32 /\
     Crc.elems (Crc.mkSlice [x00; x00; x00; x01; xd2; x02; xef; x8d; x00; xff] 9)
     = Crc.bytes32 (Z.of_nat (List.length body))
       ++ Crc.bytes32 (Crc.ChecksumIEEE body) ++ body) /\
  ((Crc.len (Crc.mkSlice [x00; x00; x00; x01; xd2; x02; xef; x8d; x00; xff] 9) < 8)%nat ->
   Crc.assertMessageCrc32 Crc.ChecksumIEEE
     (Crc.mkSlice [x00; x00; x00; x01; xd2; x02; xef; x8d; x00; xff] 9) "at 0"
   = Crc.Crash Crc.slice_bounds).
Proof.
  apply (assert_passes_the_format Crc.ChecksumIEEE
           (Crc.mkSlice [x00; x00; x00; x01; xd2; x02; xef; x8d; x00; xff] 9)
           "at 0").
  - exact ChecksumIEEE_range.
  - unfold Crc.slice_ok. vm_compute. split; [lia | discriminate].
Defined.

Example crc_of_a_zero_byte :
  Crc.ChecksumIEEE [x00] = 0xd202ef8d /\
  Crc.assertMessageCrc32 Crc.ChecksumIEEE
    (Crc.mkSlice [x00; x00; x00; x01; xd2; x02; xef; x8d; x00; xff] 9) "at 0"
  = Crc.Pass tt.
Proof. split; vm_compute; reflexivity. Qed.
